(** * Terminal flashcards: a shallow embedding of [flashcards/app.py]

    The program is an interactive, single-threaded flashcard manager.  Its
    functions read lines from the terminal, print, and mutate one dictionary
    [data] that is written to [flashcards.json] after every change.

    The embedding keeps that shape:
    - Python [str] values are Rocq strings, read as sequences of code points
      below 256;
    - a card (a dict with keys [id], [front], [back]) is a record; Python
      lists are objects, so the card lists live in a heap of list objects and
      the dictionary [data["collections"]] is a [gmap] from names to the
      locations of their lists;
    - every function that reads, prints, draws random numbers or touches the
      file is a computation in a state-and-exception monad over a [world]
      (pending input lines, terminal output, the data file, the random source).
*)

From Stdlib Require Import ZArith Ascii String.
From stdpp Require Import base option list strings gmap sorting.

Local Open Scope string_scope.
Local Open Scope nat_scope.
Local Open Scope list_scope.

(** ** Python string operations *)

Module PyStr.

(** [c.isspace()] for a code point below 256. *)
Definition isspace (c : ascii) : bool :=
  let n := nat_of_ascii c in
  ((9 <=? n) && (n <=? 13)) || ((28 <=? n) && (n <=? 32))
  || (n =? 133) || (n =? 160).

(** [s.lstrip()] *)
Fixpoint lstrip (s : string) : string :=
  match s with
  | String c s' => if isspace c then lstrip s' else s
  | EmptyString => EmptyString
  end.

(** [s.rstrip()] *)
Fixpoint rstrip (s : string) : string :=
  match s with
  | String c s' =>
      match rstrip s' with
      | EmptyString => if isspace c then EmptyString else String c EmptyString
      | r => String c r
      end
  | EmptyString => EmptyString
  end.

(** [s.strip()] *)
Definition strip (s : string) : string := rstrip (lstrip s).

(** [s.rstrip("\n")] *)
Fixpoint rstrip_newline (s : string) : string :=
  match s with
  | String c s' =>
      match rstrip_newline s' with
      | EmptyString =>
          if (nat_of_ascii c =? 10)%nat then EmptyString
          else String c EmptyString
      | r => String c r
      end
  | EmptyString => EmptyString
  end.

(** [c.lower()] for a code point below 256: the ASCII capitals and the
    Latin-1 capitals (0xC0..0xDE without the multiplication sign 0xD7). *)
Definition lower_char (c : ascii) : ascii :=
  let n := nat_of_ascii c in
  if ((65 <=? n) && (n <=? 90))
     || ((192 <=? n) && (n <=? 222) && negb (n =? 215))
  then ascii_of_nat (n + 32) else c.

(** [s.lower()] *)
Fixpoint lower (s : string) : string :=
  match s with
  | String c s' => String (lower_char c) (lower s')
  | EmptyString => EmptyString
  end.

(** [s.startswith(p)] *)
Fixpoint startswith (p s : string) : bool :=
  match p, s with
  | EmptyString, _ => true
  | String a p', String b s' => if Ascii.eqb a b then startswith p' s' else false
  | String _ _, EmptyString => false
  end.

(** [q in s] on strings: [q] occurs in [s] as a contiguous substring. *)
Fixpoint contains (q s : string) : bool :=
  startswith q s ||
  match s with
  | String _ s' => contains q s'
  | EmptyString => false
  end.

(** [bool(s)]: a string is truthy when it is not empty. *)
Definition truthy (s : string) : bool :=
  match s with EmptyString => false | _ => true end.

(** [c.isdigit()] for a code point below 256: the ASCII digits and the
    superscript digits 0xB2, 0xB3, 0xB9. *)
Definition isdigit_char (c : ascii) : bool :=
  let n := nat_of_ascii c in
  ((48 <=? n) && (n <=? 57)) || (n =? 178) || (n =? 179) || (n =? 185).

Fixpoint all_chars (p : ascii → bool) (s : string) : bool :=
  match s with
  | String c s' => p c && all_chars p s'
  | EmptyString => true
  end.

(** [s.isdigit()]: non-empty and every character is a digit. *)
Definition isdigit (s : string) : bool := truthy s && all_chars isdigit_char s.

(** [c.isdecimal()] for a code point below 256: the ASCII digits.  The
    superscript digits are digits that are not decimal. *)
Definition isdecimal_char (c : ascii) : bool :=
  let n := nat_of_ascii c in (48 <=? n) && (n <=? 57).

(** [s.isdecimal()]: non-empty and every character is a decimal digit. *)
Definition isdecimal (s : string) : bool := truthy s && all_chars isdecimal_char s.

Fixpoint int_acc (acc : nat) (s : string) : nat :=
  match s with
  | String c s' => int_acc (10 * acc + (nat_of_ascii c - 48)) s'
  | EmptyString => acc
  end.

(** [sys.int_info.default_max_str_digits]: the longest digit string that
    [int] converts, leading zeros included, unless the interpreter is
    configured otherwise; the program leaves the default. *)
Definition max_str_digits : nat := 4300.

(** [int(s)] for a string that passed [isdigit]: the decimal value, or
    [None] (a [ValueError]) when a character is not a decimal digit or the
    string has more than [max_str_digits] characters. *)
Definition int (s : string) : option nat :=
  if isdecimal s && (String.length s <=? max_str_digits)
  then Some (int_acc 0 s) else None.

Definition digit_char (d : nat) : ascii := ascii_of_nat (48 + d).

(** [str(n)] for a natural number, least significant digit first into
    an accumulator. *)
Fixpoint str_nat_fuel (fuel n : nat) (acc : string) : string :=
  match fuel with
  | O => acc
  | S fuel' =>
      let acc' := String (digit_char (n mod 10)) acc in
      if (n <? 10)%nat then acc' else str_nat_fuel fuel' (n / 10) acc'
  end.

Definition str_nat (n : nat) : string := str_nat_fuel (S n) n EmptyString.

(** [c * n]: a character repeated. *)
Fixpoint repeat_char (c : ascii) (n : nat) : string :=
  match n with
  | O => EmptyString
  | S n' => String c (repeat_char c n')
  end.

(** [s[:n]] *)
Fixpoint slice_to (n : nat) (s : string) : string :=
  match n, s with
  | S n', String c s' => String c (slice_to n' s')
  | _, _ => EmptyString
  end.

(** [s.rjust(w, "0")], the padding of ['%0wx']. *)
Definition zfill (w : nat) (s : string) : string :=
  repeat_char "0"%char (w - String.length s) +:+ s.

Definition hex_digit (d : Z) : ascii :=
  if (d <? 10)%Z then ascii_of_nat (48 + Z.to_nat d)
  else ascii_of_nat (87 + Z.to_nat d).

Fixpoint hex_fuel (fuel : nat) (z : Z) (acc : string) : string :=
  match fuel with
  | O => acc
  | S fuel' =>
      let acc' := String (hex_digit (z mod 16)) acc in
      if (z <? 16)%Z then acc' else hex_fuel fuel' (z / 16) acc'
  end.

(** ['%x' % z] for [0 <= z]: lowercase hexadecimal without padding. *)
Definition format_x (z : Z) : string :=
  hex_fuel (S (Z.to_nat (Z.log2 z))) z EmptyString.

(** ['%032x' % z] *)
Definition format_032x (z : Z) : string := zfill 32 (format_x z).

End PyStr.

(** ** Cards, JSON documents and the world the program runs in *)

(** A card: the dict [{"id": ..., "front": ..., "back": ...}]. *)
Record card := Card { id : string; front : string; back : string }.

#[export] Instance card_eq_dec : EqDecision card.
Proof. solve_decision. Defined.

(** Python lists are objects: [get_cards] hands out a reference to the stored
    list, [list(...)] makes a new object.  A [loc] names a list object. *)
Abbreviation loc := nat (only parsing).

(** [data["collections"]], with each collection's ["cards"] list given by
    reference. *)
Abbreviation collections := (gmap string loc) (only parsing).

(** What [json.load] can return and [json.dump] can write. *)
#[warnings="-register-all"] Inductive json :=
| JNull
| JBool (b : bool)
| JInt (z : Z)
| JStr (s : string)
| JList (items : list json)
| JDict (fields : list (string * json)).

(** What the terminal receives, in order. *)
Inductive event :=
| Clear
| Echo (line : string)
| Ask (prompt : string).

(** The data file when it exists: a file that cannot be opened ([open]
    raises [OSError]), a file whose bytes are not UTF-8 (reading it raises
    [UnicodeDecodeError]; opening it for writing truncates it), or its
    text. *)
Inductive file :=
| Unreadable
| Undecodable
| Content (text : string).

(** The exceptions that occur.  [except] clauses are modelled on these names
    as they are written in the source: see [handled] in [load_data]. *)
Inductive exn :=
| EOFError
| ValueError
| KeyError
| IndexError
| TypeError
| OSError
| JSONDecodeError
| UnicodeDecodeError
| RecursionError.

Inductive res (A : Type) :=
| Ok (a : A)
| Raise (e : exn).
Arguments Ok {A} a.
Arguments Raise {A} e.

Record world := World {
  stdin : list string;          (* the lines [input] will return *)
  stdout : list event;          (* what was printed so far *)
  disk : option file;           (* [flashcards.json] *)
  heap : gmap loc (list card);  (* the list objects *)
  entropy : nat → Z;            (* the random source *)
  drawn : nat                   (* how many random values were taken *)
}.

Definition M (A : Type) : Type := world → res A * world.

Definition ret {A} (a : A) : M A := λ w, (Ok a, w).

Definition raise {A} (e : exn) : M A := λ w, (Raise e, w).

Definition bind {A B} (m : M A) (k : A → M B) : M B :=
  λ w, match m w with
       | (Ok a, w') => k a w'
       | (Raise e, w') => (Raise e, w')
       end.

Notation "'let*' x := m 'in' k" := (bind m (λ x, k))
  (at level 10, x pattern, m at level 100, k at level 200).
Notation "m ;;; k" := (bind m (λ _, k))
  (at level 100, k at level 200, right associativity).

Definition emit (e : event) : M unit :=
  λ '(World ins out dsk hp ent dr), (Ok tt, World ins (out ++ [e]) dsk hp ent dr).

(** [print(s)] *)
Definition print (s : string) : M unit := emit (Echo s).

(** [input(prompt)]: [EOFError] when no line is left. *)
Definition input (prompt : string) : M string :=
  λ '(World ins out dsk hp ent dr),
    match ins with
    | [] => (Raise EOFError, World [] (out ++ [Ask prompt]) dsk hp ent dr)
    | l :: ls => (Ok l, World ls (out ++ [Ask prompt]) dsk hp ent dr)
    end.

(** One value of the random source. *)
Definition draw : M Z :=
  λ '(World ins out dsk hp ent dr), (Ok (ent dr), World ins out dsk hp ent (S dr)).

(** Reading and writing a list object. *)
Definition deref (l : loc) : M (list card) :=
  λ w, (Ok (default [] (heap w !! l)), w).

Definition assign (l : loc) (cs : list card) : M unit :=
  λ '(World ins out dsk hp ent dr), (Ok tt, World ins out dsk (<[l := cs]> hp) ent dr).

(** A new list object. *)
Definition alloc (cs : list card) : M loc :=
  λ '(World ins out dsk hp ent dr),
    let l := fresh (dom hp) in
    (Ok l, World ins out dsk (<[l := cs]> hp) ent dr).

Definition set_disk (f : option file) : M unit :=
  λ '(World ins out dsk hp ent dr), (Ok tt, World ins out f hp ent dr).

Definition get_disk : M (option file) := λ w, (Ok (disk w), w).

Definition get_heap : M (gmap loc (list card)) := λ w, (Ok (heap w), w).

(** ** Storage *)

Definition _default_data : json := JDict [("collections", JDict [])].

(** [k in d] for a decoded JSON object. *)
Definition has_key (k : string) (fields : list (string * json)) : bool :=
  existsb (λ kv, String.eqb k kv.1) fields.

Definition encode_card (c : card) : json :=
  JDict [("id", JStr (id c)); ("front", JStr (front c)); ("back", JStr (back c))].

Definition encode_collection (cs : list card) : json :=
  JDict [("cards", JList (encode_card <$> cs))].

(** The document of a registry value: the shape [json.dump] sees when it
    walks [data]. *)
Definition encode_registry (r : gmap string (list card)) : json :=
  JDict [("collections",
          JDict ((λ kv, (kv.1, encode_collection kv.2)) <$> map_to_list r))].

(** The registry value held by [data]: every name with the contents of its
    list object. *)
Definition snapshot (h : gmap loc (list card)) (data : collections)
  : gmap string (list card) :=
  (λ l, default [] (h !! l)) <$> data.

(** [json.dump] and [json.load] belong to Python's library: the program is
    modelled over any pair of them.  [json_loads] returns [None] where
    [json.load] raises, and [json_load_error] is the exception it raises
    there: [JSONDecodeError] on malformed text, and others, as [ValueError]
    on an integer literal of more than [PyStr.max_str_digits] digits or
    [RecursionError] on nesting that is too deep. *)
Class JsonCodec := {
  json_dumps : json → string;
  json_loads : string → option json;
  json_load_error : string → exn
}.

Section Storage.
Context `{JsonCodec}.

(** [with open(DATA_FILE, "r", encoding="utf-8") as f: ... f.read()] *)
Definition read_text : M string :=
  let* f := get_disk in
  match f with
  | None => raise OSError
  | Some Unreadable => raise OSError
  | Some Undecodable => raise UnicodeDecodeError
  | Some (Content text) => ret text
  end.

(** [json.load(f)] on the text read. *)
Definition json_load (text : string) : M json :=
  match json_loads text with
  | Some v => ret v
  | None => raise (json_load_error text)
  end.

(** [except (json.JSONDecodeError, OSError)]: the exceptions the handler of
    [load_data] takes.  [ValueError], [UnicodeDecodeError] and
    [RecursionError] are not subclasses of either. *)
Definition handled (e : exn) : bool :=
  match e with
  | JSONDecodeError | OSError => true
  | _ => false
  end.

(** [try: body except (...): handler] *)
Definition try_except {A} (body : M A) (handles : exn → bool) (handler : M A)
  : M A :=
  λ w, match body w with
       | (Ok a, w') => (Ok a, w')
       | (Raise e, w') => if handles e then handler w' else (Raise e, w')
       end.

Definition load_data : M json :=
  let* f := get_disk in
  match f with
  | None => ret _default_data
  | Some _ =>
      try_except
        (let* text := read_text in
         let* data := json_load text in
         match data with
         | JDict fields =>
             if has_key "collections" fields then ret data
             else ret _default_data
         | _ => ret _default_data
         end)
        handled
        (ret _default_data)
  end.

(** [save_data(doc)] for a document; [open(..., "w")] raises [OSError] on a
    file that cannot be opened, and nothing catches it. *)
Definition save_doc (doc : json) : M unit :=
  let* f := get_disk in
  match f with
  | Some Unreadable => raise OSError
  | _ => set_disk (Some (Content (json_dumps doc)))
  end.

Definition save_data (data : collections) : M unit :=
  let* h := get_heap in
  save_doc (encode_registry (snapshot h data)).

End Storage.

(** ** Helpers (UI) *)

Definition clear : M unit := emit Clear.

Definition pause (msg : string) : M unit := input msg ;;; ret tt.

(** What one pass of a [while True] prompt loop does with the line it read:
    return a value, print a message and ask again, or raise. *)
Inductive verdict (A : Type) :=
| Accept (a : A)
| Reject (msg : string)
| Fail (e : exn).
Arguments Accept {A} a.
Arguments Reject {A} msg.
Arguments Fail {A} e.

(** [while True: s = input(prompt); ...; print(msg)], by recursion on the
    lines still to be read. *)
Fixpoint ask_loop {A} (prompt : string) (parse : string → verdict A)
    (lines : list string) (out : list event) : res A * list string * list event :=
  match lines with
  | [] => (Raise EOFError, [], out ++ [Ask prompt])
  | l :: ls =>
      match parse l with
      | Accept a => (Ok a, ls, out ++ [Ask prompt])
      | Reject msg => ask_loop prompt parse ls (out ++ [Ask prompt; Echo msg])
      | Fail e => (Raise e, ls, out ++ [Ask prompt])
      end
  end.

Definition ask_until {A} (prompt : string) (parse : string → verdict A) : M A :=
  λ '(World ins out dsk hp ent dr),
    let '(r, ls, out') := ask_loop prompt parse ins out in
    (r, World ls out' dsk hp ent dr).

Definition parse_int (lo hi : nat) (l : string) : verdict nat :=
  let s := PyStr.strip l in
  let msg := "Please enter a number from " +:+ PyStr.str_nat lo +:+ " to "
             +:+ PyStr.str_nat hi +:+ "." in
  if PyStr.isdigit s then
    match PyStr.int s with
    | Some v => if (lo <=? v) && (v <=? hi) then Accept v else Reject msg
    | None => Fail ValueError
    end
  else Reject msg.

Definition prompt_int (prompt : string) (lo hi : nat) : M nat :=
  ask_until prompt (parse_int lo hi).

Definition parse_nonempty (l : string) : verdict string :=
  let s := PyStr.strip l in
  if PyStr.truthy s then Accept s else Reject "Input cannot be empty.".

Definition prompt_nonempty (prompt : string) : M string :=
  ask_until prompt parse_nonempty.

Definition parse_confirm (l : string) : verdict bool :=
  let s := PyStr.lower (PyStr.strip l) in
  if bool_decide (s ∈ ["y"; "yes"]) then Accept true
  else if bool_decide (s ∈ ["n"; "no"]) then Accept false
  else Reject "Please type y or n.".

Definition confirm (prompt : string) : M bool :=
  ask_until (prompt +:+ " (y/n): ") parse_confirm.

(** [for i, name in enumerate(items, start=i): print(f"  {i}) {name}")] *)
Fixpoint print_items (i : nat) (items : list string) : M unit :=
  match items with
  | [] => ret tt
  | name :: rest =>
      print ("  " +:+ PyStr.str_nat i +:+ ") " +:+ name) ;;;
      print_items (S i) rest
  end.

Definition select_from_list (title : string) (items : list string)
  : M (option string) :=
  match items with
  | [] => print "Nothing to select." ;;; ret None
  | _ =>
      print title ;;;
      print_items 1 items ;;;
      print "  0) Cancel" ;;;
      let* choice := prompt_int "Choose: " 0 (length items) in
      if choice =? 0 then ret None
      else
        match items !! (choice - 1) with
        | Some name => ret (Some name)
        | None => raise IndexError
        end
  end.

(** ** Domain operations *)

Section Domain.
Context `{JsonCodec}.

(** [sorted(data["collections"].keys())]: the names in the order of their
    code points. *)
Definition list_collections (data : collections) : list string :=
  merge_sort (λ a b, String.leb a b) (map_to_list data).*1.

Definition create_collection (data : collections) : M collections :=
  let* name := prompt_nonempty "New collection name: " in
  match data !! name with
  | Some _ =>
      print "A collection with that name already exists." ;;;
      ret data
  | None =>
      let* l := alloc [] in
      let data' := <[name := l]> data in
      save_data data' ;;;
      print ("Created collection '" +:+ name +:+ "'.") ;;;
      ret data'
  end.

Definition delete_collection (data : collections) : M collections :=
  let cols := list_collections data in
  let* name := select_from_list "Delete which collection?" cols in
  match name with
  | None => ret data
  | Some name =>
      if PyStr.truthy name then
        let* yes := confirm ("Delete collection '" +:+ name
                             +:+ "' and ALL its cards?") in
        if yes then
          match data !! name with
          | Some _ =>
              let data' := delete name data in
              save_data data' ;;;
              print "Deleted." ;;;
              ret data'
          | None => raise KeyError
          end
        else ret data
      else ret data
  end.

(** [data["collections"][col_name]["cards"]]: a reference, or [KeyError].
    The dictionary [data] of the embedding gives every collection its
    [cards] list, as every collection that [create_collection] makes has
    one, so here the subscripts fail on a missing name only.  [load_data]
    does not check the collections of a file: [cards_of_document] below
    follows the same subscripts on a decoded document. *)
Definition get_cards (data : collections) (col_name : string) : M loc :=
  match data !! col_name with
  | Some l => ret l
  | None => raise KeyError
  end.

(** What is under a key of a decoded object; of two entries with the same
    key the later one counts, as in the [dict] that [json.load] builds. *)
Fixpoint lookup_key (k : string) (fields : list (string * json)) : option json :=
  match fields with
  | [] => None
  | (k', v) :: rest =>
      match lookup_key k rest with
      | Some v' => Some v'
      | None => if String.eqb k k' then Some v else None
      end
  end.

(** [v[k]] for a string [k] on a decoded value: [KeyError] on an object
    without the key, [TypeError] on a value that is not an object. *)
Definition subscript (k : string) (v : json) : res json :=
  match v with
  | JDict fields =>
      match lookup_key k fields with
      | Some x => Ok x
      | None => Raise KeyError
      end
  | _ => Raise TypeError
  end.

(** [doc["collections"][col_name]["cards"]], the subscripts of [get_cards],
    on a decoded document. *)
Definition cards_of_document (doc : json) (col_name : string) : res json :=
  match subscript "collections" doc with
  | Ok cols =>
      match subscript col_name cols with
      | Ok col => subscript "cards" col
      | Raise e => Raise e
      end
  | Raise e => Raise e
  end.

(** [UUID(bytes=os.urandom(16), version=4).int]: the variant and version
    bits are forced on a 128-bit random integer. *)
Definition uuid4_int (r : Z) : Z :=
  let i := r in
  let i := Z.land i (Z.lnot (Z.shiftl 0xc000 48)) in
  let i := Z.lor i (Z.shiftl 0x8000 48) in
  let i := Z.land i (Z.lnot (Z.shiftl 0xf000 64)) in
  Z.lor i (Z.shiftl 4 76).

(** [uuid.uuid4().hex] *)
Definition uuid4_hex : M string :=
  let* r := draw in
  ret (PyStr.format_032x (uuid4_int (r mod 2 ^ 128))).

Definition add_card (data : collections) (col_name : string) : M unit :=
  let* front := prompt_nonempty "Front: " in
  let* back := prompt_nonempty "Back: " in
  let* h := uuid4_hex in
  let card := Card (PyStr.slice_to 8 h) front back in
  let* l := get_cards data col_name in
  let* cards := deref l in
  assign l (cards ++ [card]) ;;;
  save_data data ;;;
  print ("Added card " +:+ id card +:+ ".").

(** The first card with the given id, with its index in the list: the index
    stands for the reference to the dict that Python returns. *)
Fixpoint find_card_from (i : nat) (cards : list card) (card_id : string)
  : option (nat * card) :=
  match cards with
  | [] => None
  | c :: cs =>
      if String.eqb (id c) card_id then Some (i, c)
      else find_card_from (S i) cs card_id
  end.

Definition find_card (cards : list card) (card_id : string) : option (nat * card) :=
  find_card_from 0 cards card_id.

Definition card_line (c : card) : string :=
  "- " +:+ id c +:+ ": " +:+ front c +:+ "  ->  " +:+ back c.

Fixpoint print_each (cards : list card) : M unit :=
  match cards with
  | [] => ret tt
  | c :: cs => print (card_line c) ;;; print_each cs
  end.

Definition list_cards (cards : list card) : M unit :=
  match cards with
  | [] => print "(No cards yet.)"
  | _ =>
      print ("Cards (" +:+ PyStr.str_nat (length cards) +:+ "):") ;;;
      print_each cards
  end.

Definition edit_card (data : collections) (col_name : string) : M unit :=
  let* l := get_cards data col_name in
  let* cards := deref l in
  match cards with
  | [] => print "No cards to edit."
  | _ =>
      list_cards cards ;;;
      let* card_id := prompt_nonempty "Enter card id to edit: " in
      match find_card cards card_id with
      | None => print "Card id not found."
      | Some (i, card) =>
          print "Press Enter to keep the current value." ;;;
          let* line1 := input ("Front [" +:+ front card +:+ "]: ") in
          let new_front := PyStr.rstrip_newline line1 in
          let* line2 := input ("Back  [" +:+ back card +:+ "]: ") in
          let new_back := PyStr.rstrip_newline line2 in
          let card :=
            if PyStr.truthy (PyStr.strip new_front)
            then Card (id card) (PyStr.strip new_front) (back card) else card in
          let card :=
            if PyStr.truthy (PyStr.strip new_back)
            then Card (id card) (front card) (PyStr.strip new_back) else card in
          assign l (<[i := card]> cards) ;;;
          save_data data ;;;
          print "Updated."
      end
  end.

(** [cards.remove(card)]: drops the first element equal to [card]. *)
Fixpoint list_remove (c : card) (cards : list card) : list card :=
  match cards with
  | [] => []
  | x :: xs => if decide (x = c) then xs else x :: list_remove c xs
  end.

Definition delete_card (data : collections) (col_name : string) : M unit :=
  let* l := get_cards data col_name in
  let* cards := deref l in
  match cards with
  | [] => print "No cards to delete."
  | _ =>
      list_cards cards ;;;
      let* card_id := prompt_nonempty "Enter card id to delete: " in
      match find_card cards card_id with
      | None => print "Card id not found."
      | Some (_, card) =>
          let* yes := confirm ("Delete card " +:+ card_id +:+ "?") in
          if yes then
            assign l (list_remove card cards) ;;;
            save_data data ;;;
            print "Deleted."
          else ret tt
      end
  end.

End Domain.

(** [q in c["front"].lower() or q in c["back"].lower()] *)
Definition matches (q : string) (c : card) : bool :=
  PyStr.contains q (PyStr.lower (front c))
  || PyStr.contains q (PyStr.lower (back c)).

(** [search_cards(cards)], called with the stored list.  The function prints
    its hits; the embedding also returns them. *)
Definition search_cards (l : loc) : M (list card) :=
  let* cards := deref l in
  match cards with
  | [] => print "No cards to search." ;;; ret []
  | _ =>
      let* line := prompt_nonempty "Search text: " in
      let q := PyStr.lower line in
      let hits := filter (λ c, matches q c = true) cards in
      match hits with
      | [] => print "No matches." ;;; ret hits
      | _ =>
          print ("Matches (" +:+ PyStr.str_nat (length hits) +:+ "):") ;;;
          print_each hits ;;;
          ret hits
      end
  end.

(** ** Learn mode *)

(** [self._randbelow(n)] *)
Definition randbelow (n : nat) : M nat :=
  let* r := draw in ret (Z.to_nat (r mod Z.of_nat n)).

(** [x[i], x[j] = x[j], x[i]] *)
Definition swap (x : list card) (i j : nat) : list card :=
  match x !! i, x !! j with
  | Some xi, Some xj => <[j := xi]> (<[i := xj]> x)
  | _, _ => x
  end.

(** [for i in reversed(range(1, len(x))): j = randbelow(i + 1); swap],
    entered with [i = len(x) - 1]. *)
Fixpoint shuffle_loop (i : nat) (x : list card) : M (list card) :=
  match i with
  | O => ret x
  | S i' =>
      let* j := randbelow (S i) in
      shuffle_loop i' (swap x i j)
  end.

(** [random.shuffle(x)]: shuffles the list object in place. *)
Definition random_shuffle (l : loc) : M unit :=
  let* x := deref l in
  let* x' := shuffle_loop (length x - 1) x in
  assign l x'.

Inductive judgment := Correct | Wrong | Skipped | Quit.

Definition parse_judgment (l : string) : verdict judgment :=
  let ans := PyStr.lower (PyStr.strip l) in
  if bool_decide (ans ∈ ["y"; "yes"]) then Accept Correct
  else if bool_decide (ans ∈ ["n"; "no"]) then Accept Wrong
  else if bool_decide (ans ∈ ["s"; "skip"]) then Accept Skipped
  else if bool_decide (ans ∈ ["q"; "quit"]) then Accept Quit
  else Reject "Please enter y, n, skip, or q.".

(** The three counters of [learn_mode]. *)
Record tally := Tally { correct : nat; wrong : nat; skipped : nat }.

Inductive status := Completed | TerminatedEarly.

(** How a session ended: the way the loop was left, the counters at that
    point, and the cards whose front was shown, in the order shown.  Python
    returns [None]; the record is what the function's locals held. *)
Record session := Session {
  outcome : status;
  counts : tally;
  visited : list card
}.

Definition dashes : string := PyStr.repeat_char "-"%char 40.

Definition card_header (col_name : string) (idx total : nat) (c : card) : string :=
  "[" +:+ col_name +:+ "] Card " +:+ PyStr.str_nat idx +:+ "/"
  +:+ PyStr.str_nat total +:+ "  (id: " +:+ id c +:+ ")".

(** The body of [for idx, c in enumerate(cards, start=1)], by recursion on
    the cards still to show. *)
Fixpoint learn_loop (col_name : string) (total idx : nat) (cards : list card)
    (t : tally) (seen : list card) : M session :=
  match cards with
  | [] => ret (Session Completed t seen)
  | c :: rest =>
      clear ;;;
      print (card_header col_name idx total c) ;;;
      print dashes ;;;
      print "FRONT:" ;;;
      print (front c) ;;;
      print dashes ;;;
      input "Press Enter to reveal the back..." ;;;
      print "" ;;;
      print "BACK:" ;;;
      print (back c) ;;;
      print dashes ;;;
      let* j := ask_until "Got it? (y/n/skip/q): " parse_judgment in
      match j with
      | Correct =>
          learn_loop col_name total (S idx) rest
            (Tally (correct t + 1) (wrong t) (skipped t)) (seen ++ [c])
      | Wrong =>
          learn_loop col_name total (S idx) rest
            (Tally (correct t) (wrong t + 1) (skipped t)) (seen ++ [c])
      | Skipped =>
          learn_loop col_name total (S idx) rest
            (Tally (correct t) (wrong t) (skipped t + 1)) (seen ++ [c])
      | Quit =>
          clear ;;;
          print "Session ended early." ;;;
          print ("Correct: " +:+ PyStr.str_nat (correct t) +:+ ", Wrong: "
                 +:+ PyStr.str_nat (wrong t) +:+ ", Skipped: "
                 +:+ PyStr.str_nat (skipped t)) ;;;
          ret (Session TerminatedEarly t (seen ++ [c]))
      end
  end.

(** [learn_mode(data, col_name)]; [None] when there is nothing to learn. *)
Definition learn_mode (data : collections) (col_name : string)
  : M (option session) :=
  let* stored := get_cards data col_name in
  let* content := deref stored in
  let* cards := alloc content in
  let* copy := deref cards in
  match copy with
  | [] => print "No cards to learn yet." ;;; ret None
  | _ =>
      print "Learn mode:" ;;;
      print "  1) In order" ;;;
      print "  2) Random" ;;;
      let* order := prompt_int "Choose: " 1 2 in
      (if order =? 2 then random_shuffle cards else ret tt) ;;;
      let* shown := deref cards in
      let* s := learn_loop col_name (length shown) 1 shown (Tally 0 0 0) [] in
      match outcome s with
      | TerminatedEarly => ret (Some s)
      | Completed =>
          clear ;;;
          print "Done!" ;;;
          print ("Correct: " +:+ PyStr.str_nat (correct (counts s))) ;;;
          print ("Wrong:   " +:+ PyStr.str_nat (wrong (counts s))) ;;;
          print ("Skipped: " +:+ PyStr.str_nat (skipped (counts s))) ;;;
          ret (Some s)
      end
  end.

(** What is on the terminal: the events since the last [clear()]. *)
Fixpoint screen_acc (acc : list event) (out : list event) : list event :=
  match out with
  | [] => acc
  | Clear :: rest => screen_acc [] rest
  | e :: rest => screen_acc (acc ++ [e]) rest
  end.

Definition screen (w : world) : list event := screen_acc [] (stdout w).

(** ** Menus *)

(** How a pass of a [while True] menu loop ends: with [return], or by
    reaching the end of the body, after which the next pass starts.  Both
    carry the dictionary [data] as the pass leaves it. *)
Inductive flow (St : Type) :=
| Return (s : St)
| Continue (s : St).
Arguments Return {St} s.
Arguments Continue {St} s.

(** [while True: body], for at most [passes] passes; a loop that is out of
    passes ends like one that is out of input.  The embedding returns the
    state at the [return]. *)
Fixpoint loop_passes {St} (passes : nat) (body : St → M (flow St)) (s : St) : M St :=
  match passes with
  | O => raise EOFError
  | S n =>
      let* next := body s in
      match next with
      | Return s' => ret s'
      | Continue s' => loop_passes n body s'
      end
  end.

(** Every menu pass that reaches its end has read a line, so a loop makes
    at most one pass more than there are lines to read: the bound below is
    never what ends a menu loop (see [while_true_unfold] and [menus_loop]). *)
Definition while_true {St} (body : St → M (flow St)) (s : St) : M St :=
  λ w, loop_passes (S (length (stdin w))) body s w.

Section Menus.
Context `{JsonCodec}.

(** One pass of the loop of [manage_cards_menu]. *)
Definition manage_cards_pass (data : collections) (col_name : string)
  : M (flow unit) :=
  clear ;;;
  let* cards := get_cards data col_name in
  let* content := deref cards in
  print ("Collection: " +:+ col_name +:+ "  |  Cards: "
         +:+ PyStr.str_nat (length content)) ;;;
  print "Manage cards" ;;;
  print "  1) List cards" ;;;
  print "  2) Add card" ;;;
  print "  3) Edit card" ;;;
  print "  4) Delete card" ;;;
  print "  5) Search" ;;;
  print "  0) Back" ;;;
  let* choice := prompt_int "Choose: " 0 5 in
  clear ;;;
  if choice =? 0 then ret (Return tt)
  else if choice =? 1 then
    (let* shown := deref cards in
     list_cards shown ;;;
     pause "Press Enter to continue..." ;;;
     ret (Continue tt))
  else if choice =? 2 then
    (add_card data col_name ;;;
     pause "Press Enter to continue..." ;;;
     ret (Continue tt))
  else if choice =? 3 then
    (edit_card data col_name ;;;
     pause "Press Enter to continue..." ;;;
     ret (Continue tt))
  else if choice =? 4 then
    (delete_card data col_name ;;;
     pause "Press Enter to continue..." ;;;
     ret (Continue tt))
  else if choice =? 5 then
    (search_cards cards ;;;
     pause "Press Enter to continue..." ;;;
     ret (Continue tt))
  else ret (Continue tt).

Definition manage_cards_menu (data : collections) (col_name : string) : M unit :=
  while_true (λ _, manage_cards_pass data col_name) tt.

(** One pass of the loop of [collection_menu]. *)
Definition collection_pass (data : collections) (col_name : string)
  : M (flow unit) :=
  clear ;;;
  let* cards := get_cards data col_name in
  let* content := deref cards in
  print ("Collection: " +:+ col_name +:+ "  |  Cards: "
         +:+ PyStr.str_nat (length content)) ;;;
  print "  1) Learn" ;;;
  print "  2) Add card" ;;;
  print "  3) Manage cards" ;;;
  print "  0) Back" ;;;
  let* choice := prompt_int "Choose: " 0 3 in
  clear ;;;
  if choice =? 0 then ret (Return tt)
  else if choice =? 1 then
    (learn_mode data col_name ;;;
     pause "Press Enter to continue..." ;;;
     ret (Continue tt))
  else if choice =? 2 then
    (add_card data col_name ;;;
     pause "Press Enter to continue..." ;;;
     ret (Continue tt))
  else if choice =? 3 then
    (manage_cards_menu data col_name ;;;
     ret (Continue tt))
  else ret (Continue tt).

Definition collection_menu (data : collections) (col_name : string) : M unit :=
  while_true (λ _, collection_pass data col_name) tt.

Definition open_collection (data : collections) : M unit :=
  let cols := list_collections data in
  let* name := select_from_list "Open which collection?" cols in
  match name with
  | None => ret tt
  | Some name =>
      if PyStr.truthy name then collection_menu data name else ret tt
  end.

(** [for c in cols: print(f"- {c} ({len(get_cards(data, c))} cards)")] *)
Fixpoint print_counts (data : collections) (cols : list string) : M unit :=
  match cols with
  | [] => ret tt
  | c :: rest =>
      let* cards := get_cards data c in
      let* content := deref cards in
      print ("- " +:+ c +:+ " (" +:+ PyStr.str_nat (length content)
             +:+ " cards)") ;;;
      print_counts data rest
  end.

(** One pass of the loop of [main]. *)
Definition main_pass (data : collections) : M (flow collections) :=
  clear ;;;
  let cols := list_collections data in
  print "Terminal Flashcards" ;;;
  print (PyStr.repeat_char "-"%char 20) ;;;
  print ("Collections: " +:+ PyStr.str_nat (length cols)) ;;;
  print "  1) Create collection" ;;;
  print "  2) Open collection" ;;;
  print "  3) List collections" ;;;
  print "  4) Delete collection" ;;;
  print "  0) Exit" ;;;
  let* choice := prompt_int "Choose: " 0 4 in
  clear ;;;
  if choice =? 0 then print "Bye!" ;;; ret (Return data)
  else if choice =? 1 then
    (let* data' := create_collection data in
     pause "Press Enter to continue..." ;;;
     ret (Continue data'))
  else if choice =? 2 then
    (open_collection data ;;;
     ret (Continue data))
  else if choice =? 3 then
    (match list_collections data with
     | [] => print "(No collections yet.)"
     | cols => print_counts data cols
     end ;;;
     pause "Press Enter to continue..." ;;;
     ret (Continue data))
  else if choice =? 4 then
    (let* data' := delete_collection data in
     pause "Press Enter to continue..." ;;;
     ret (Continue data'))
  else ret (Continue data).

(** The loop of [main], entered with the dictionary [data]; [main] itself
    enters it with what [load_data] returned.  The embedding returns the
    dictionary as it is at the exit. *)
Definition main_menu (data : collections) : M collections :=
  while_true main_pass data.

End Menus.

(** ** Notions the statements use *)

(** A lowercase hexadecimal digit. *)
Definition is_lower_hex (c : ascii) : bool :=
  let n := nat_of_ascii c in
  ((48 <=? n) && (n <=? 57)) || ((97 <=? n) && (n <=? 102)).

(** [q] occurs in [s]: some text before it and some text after it give [s]. *)
Definition occurs_in (q s : string) : Prop :=
  ∃ before after, s = before +:+ q +:+ after.

(** A card is a hit for [q] when [q] occurs in its lowercased front or in
    its lowercased back. *)
Definition is_hit (q : string) (c : card) : Prop :=
  occurs_in q (PyStr.lower (front c)) ∨ occurs_in q (PyStr.lower (back c)).

(** [selects P l hits]: [hits] is exactly the elements of [l] that satisfy
    [P], in the order of [l]. *)
Inductive selects {A} (P : A → Prop) : list A → list A → Prop :=
| selects_nil : selects P [] []
| selects_keep x l hits : P x → selects P l hits → selects P (x :: l) (x :: hits)
| selects_drop x l hits : ¬ P x → selects P l hits → selects P (x :: l) hits.

(** Text that is not empty and neither starts nor ends with whitespace. *)
Definition tidy (s : string) : Prop :=
  s ≠ EmptyString
  ∧ (∀ c s', s = String c s' → PyStr.isspace c = false)
  ∧ (∀ s' c, s = s' +:+ String c EmptyString → PyStr.isspace c = false).

Definition tidy_card (c : card) : Prop := tidy (front c) ∧ tidy (back c).

(** Every card of every list object is tidy. *)
Definition tidy_heap (h : gmap loc (list card)) : Prop :=
  ∀ l cs c, h !! l = Some cs → c ∈ cs → tidy_card c.

(** A decoded document is usable when it is an object with the top-level
    key [collections]. *)
Definition has_collections (v : json) : Prop :=
  ∃ fields, v = JDict fields ∧ "collections" ∈ fields.*1.

(** The card an edit leaves: a field is replaced by the trimmed line when
    that is not empty, and kept otherwise. *)
Definition edited (c : card) (line_front line_back : string) : card :=
  Card (id c)
    (if decide (PyStr.strip line_front = EmptyString) then front c
     else PyStr.strip line_front)
    (if decide (PyStr.strip line_back = EmptyString) then back c
     else PyStr.strip line_back).

(** What [list_cards] prints. *)
Definition listing (cards : list card) : list event :=
  match cards with
  | [] => [Echo "(No cards yet.)"]
  | _ =>
      Echo ("Cards (" +:+ PyStr.str_nat (length cards) +:+ "):")
      :: ((λ c, Echo (card_line c)) <$> cards)
  end.

(** What [search_cards] prints for its hits. *)
Definition search_report (hits : list card) : list event :=
  match hits with
  | [] => [Echo "No matches."]
  | _ =>
      Echo ("Matches (" +:+ PyStr.str_nat (length hits) +:+ "):")
      :: ((λ c, Echo (card_line c)) <$> hits)
  end.

(** A line that a prompt loop refuses: it prints a message and asks again. *)
Definition rejected {A} (parse : string → verdict A) (line : string) : Prop :=
  ∃ msg, parse line = Reject msg.

(** What is typed for one card of a session: the line that reveals the
    back, the lines the judgment prompt refuses, and the line it accepts. *)
Record reply := Reply { reveal : string; refused : list string; answer : string }.

Definition typed (r : reply) : list string := reveal r :: refused r ++ [answer r].

(** The reply [r] judges its card as [j]. *)
Definition judged (j : judgment) (r : reply) : Prop :=
  Forall (rejected parse_judgment) (refused r)
  ∧ parse_judgment (answer r) = Accept j.

(** What a prompt loop prints when it refuses the lines [bad] and then
    accepts a line. *)
Definition asked {A} (p : string) (parse : string → verdict A) (bad : list string)
  : list event :=
  (bad ≫= λ b, match parse b with
               | Reject msg => [Ask p; Echo msg]
               | _ => []
               end) ++ [Ask p].

(** What the session prints for one card answered with the reply [r]. *)
Definition card_shown (col_name : string) (total idx : nat) (c : card) (r : reply)
  : list event :=
  [Clear; Echo (card_header col_name idx total c); Echo dashes; Echo "FRONT:";
   Echo (front c); Echo dashes; Ask "Press Enter to reveal the back...";
   Echo ""; Echo "BACK:"; Echo (back c); Echo dashes]
  ++ asked "Got it? (y/n/skip/q): " parse_judgment (refused r).

(** What the session prints for cards answered one after the other. *)
Fixpoint cards_shown (col_name : string) (total idx : nat) (cards : list card)
    (replies : list reply) : list event :=
  match cards, replies with
  | c :: cards', r :: replies' =>
      card_shown col_name total idx c r
      ++ cards_shown col_name total (S idx) cards' replies'
  | _, _ => []
  end.

(** Counting one judgment; [Quit] counts nothing. *)
Definition score (t : tally) (j : judgment) : tally :=
  match j with
  | Correct => Tally (correct t + 1) (wrong t) (skipped t)
  | Wrong => Tally (correct t) (wrong t + 1) (skipped t)
  | Skipped => Tally (correct t) (wrong t) (skipped t + 1)
  | Quit => t
  end.

Definition tally_of (js : list judgment) : tally := foldl score (Tally 0 0 0) js.

(** The line the early end prints, and the lines the regular end prints. *)
Definition quit_report (t : tally) : list event :=
  [Echo "Session ended early.";
   Echo ("Correct: " +:+ PyStr.str_nat (correct t) +:+ ", Wrong: "
         +:+ PyStr.str_nat (wrong t) +:+ ", Skipped: "
         +:+ PyStr.str_nat (skipped t))].

Definition done_report (t : tally) : list event :=
  [Echo "Done!";
   Echo ("Correct: " +:+ PyStr.str_nat (correct t));
   Echo ("Wrong:   " +:+ PyStr.str_nat (wrong t));
   Echo ("Skipped: " +:+ PyStr.str_nat (skipped t))].

(** What [learn_mode] prints before the first card: the menu and the
    order prompt, once more after each refused line. *)
Definition order_menu (rejects : list string) : list event :=
  [Echo "Learn mode:"; Echo "  1) In order"; Echo "  2) Random"]
  ++ asked "Choose: " (parse_int 1 2) rejects.

(** What [learn_mode] does once the loop is left: after a quit nothing
    more, after the last card the screen is cleared and the three counters
    are printed. *)
Definition learn_end (r : res session * world) : res (option session) * world :=
  match r with
  | (Ok s, World ins out dsk hp ent dr) =>
      match outcome s with
      | TerminatedEarly => (Ok (Some s), World ins out dsk hp ent dr)
      | Completed =>
          (Ok (Some s),
           World ins (out ++ Clear :: done_report (counts s)) dsk hp ent dr)
      end
  | (Raise e, w) => (Raise e, w)
  end.

(** ** Notions for the frame of an operation *)

(** A computation is [stable] for a relation between worlds when the world
    it leaves is related to the world it started in, however it ends. *)
Definition stable (R : relation world) {A} (m : M A) : Prop :=
  ∀ w, R w (m w).2.

(** No line is given back to the terminal. *)
Definition fewer_lines : relation world :=
  λ w w', length (stdin w') ≤ length (stdin w).

(** The file is as it was. *)
Definition in_memory : relation world :=
  λ w w', length (stdin w') ≤ length (stdin w) ∧ disk w' = disk w.

(** The file and the list objects are as they were. *)
Definition io_only : relation world :=
  λ w w', length (stdin w') ≤ length (stdin w)
          ∧ heap w' = heap w ∧ disk w' = disk w.

(** Every list object that existed, except [l], is as it was. *)
Definition only_object (l : loc) : relation world :=
  λ w w', ∀ l', l' ≠ l → is_Some (heap w !! l') → heap w' !! l' = heap w !! l'.

(** A computation that returns has read at least one line. *)
Definition takes_line {A} (m : M A) : Prop :=
  ∀ w a w', m w = (Ok a, w') → length (stdin w') < length (stdin w).

(** [triple P m Q E]: started in a world with [P], the computation returns
    [a] in a world with [Q a], or raises in a world with [E]; nothing is said
    when the exception is the [OSError] of a failed save. *)
Definition triple {A} (P : world → Prop) (m : M A)
    (Q : A → world → Prop) (E : world → Prop) : Prop :=
  ∀ w, P w →
    match m w with
    | (Ok a, w') => Q a w'
    | (Raise e, w') => e ≠ OSError → E w'
    end.

(** Every name of [data] is bound to a list object that exists. *)
Definition bound (data : collections) (h : gmap loc (list card)) : Prop :=
  ∀ name l, data !! name = Some l → is_Some (h !! l).

(** The file holds the text of the registry as it is in memory. *)
Definition on_file `{JsonCodec} (data : collections) (w : world) : Prop :=
  disk w = Some (Content (json_dumps (encode_registry (snapshot (heap w) data)))).

(** Relative to a registry [r0] and a file [d0]: memory and file are both
    what they were, or the file holds the registry as it is in memory. *)
Definition written_through `{JsonCodec} (r0 : gmap string (list card))
    (d0 : option file) (data : collections) (w : world) : Prop :=
  bound data (heap w)
  ∧ ((snapshot (heap w) data = r0 ∧ disk w = d0) ∨ on_file data w).

(** A line that [confirm] takes as an answer. *)
Definition is_answer (l : string) : Prop :=
  PyStr.lower (PyStr.strip l) ∈ ["y"; "yes"]
  ∨ PyStr.lower (PyStr.strip l) ∈ ["n"; "no"].

(** The ids of the cards of every list object. *)
Definition ids_of (h : gmap loc (list card)) : gmap loc (list string) :=
  (λ cs : list card, id <$> cs) <$> h.

(** A property of the world that only looks at the list objects and the
    file. *)
Definition of_store (P : world → Prop) : Prop :=
  ∀ w w', heap w' = heap w → disk w' = disk w → P w → P w'.

(** What [select_from_list] prints for its items: one numbered line each. *)
Fixpoint menu_lines (i : nat) (items : list string) : list event :=
  match items with
  | [] => []
  | name :: rest =>
      Echo ("  " +:+ PyStr.str_nat i +:+ ") " +:+ name) :: menu_lines (S i) rest
  end.

(** What [select_from_list] prints when it refuses the lines [bad] and then
    accepts a line. *)
Definition select_shown (title : string) (items : list string) (bad : list string)
  : list event :=
  Echo title :: menu_lines 1 items
  ++ Echo "  0) Cancel" :: asked "Choose: " (parse_int 0 (length items)) bad.

(** What the main menu prints for its collections: one line per name with
    the number of cards of the collection. *)
Definition count_lines (data : collections) (h : gmap loc (list card))
    (names : list string) : list event :=
  (λ c, Echo ("- " +:+ c +:+ " ("
              +:+ PyStr.str_nat (length (default [] (data !! c ≫= (h !!.))))
              +:+ " cards)")) <$> names.

(** Tidy stored text stays tidy. *)
Definition keeps_tidy : relation world :=
  λ w w', tidy_heap (heap w) → tidy_heap (heap w').

(** ** Sample values *)

Definition hola : card := Card "a1b2c3d4" "hola" "hello".
Definition gato : card := Card "0f9e8d7c" "gato" "cat".
Definition perro : card := Card "11223344" "perro" "dog".

(** A codec that knows one document and its text, and takes any other text
    for malformed. *)
Definition table_codec (doc : json) (text : string) : JsonCodec :=
  {| json_dumps := λ _, text;
     json_loads := λ s, if String.eqb s text then Some doc else None;
     json_load_error := λ _, JSONDecodeError |}.

(** A text of one digit more than [int] converts. *)
Definition long_number : string :=
  PyStr.repeat_char "1"%char (S PyStr.max_str_digits).

(** A codec that decodes nothing and raises [e] on every text. *)
Definition failing_codec (e : exn) : JsonCodec :=
  {| json_dumps := λ _, EmptyString;
     json_loads := λ _, None;
     json_load_error := λ _, e |}.

Definition sample_codec : JsonCodec := table_codec JNull "{}".

(** A world with the given input lines, an empty screen, no data file and
    one list object per given card list, at locations 0, 1, ... *)
Definition world0 (lines : list string) (lists : list (list card)) (rnd : nat → Z) : world :=
  World lines [] None (list_to_map (zip (seq 0 (length lists)) lists)) rnd 0.

Definition spanish : gmap string nat := {["Spanish" := 0]}.

(** Two lines typed for a new card, one stored list, a fixed random value. *)
Definition w_add : world :=
  world0 [" hola"; "hello "] [[gato]] (λ _, 295990755076957556440877544977013132783%Z).

(** A collection name typed with surrounding blanks. *)
Definition w_create : world :=
  world0 ["  Spanish "; "next"] [[hola]] (λ _, 0%Z).

(** The id of a stored card, an empty line for the front, a new back. *)
Definition w_edit : world :=
  world0 [" 0f9e8d7c "; ""; " kitty "; "after"] [[hola; gato]] (λ _, 0%Z).

(** The id of a stored card and a confirmation. *)
Definition w_delete : world :=
  world0 ["0f9e8d7c"; "y"; "after"] [[hola; gato; perro]] (λ _, 0%Z).

(** An id that no stored card has. *)
Definition w_delete_missing : world :=
  world0 ["ffffffff"; "y"] [[hola; gato; perro]] (λ _, 0%Z).

(** An empty line and then a word that no card contains. *)
Definition w_empty_query : world :=
  world0 [""; "zzz"] [[hola; gato]] (λ _, 0%Z).

(** A query with a leading blank. *)
Definition w_spaced_query : world :=
  world0 [" cat"] [[hola; gato]] (λ _, 0%Z).

(** A blank line, then a query in capitals with blanks around it. *)
Definition w_query : world :=
  world0 ["   "; "  CAT "; "after"] [[hola; gato]] (λ _, 0%Z).

(** A registry, and below the text it is written as. *)
Definition sample_registry : gmap string (list card) :=
  {["Spanish" := [hola; gato]]}.

(** A JSON string literal (for text without characters to escape). *)
Definition quoted (s : string) : string :=
  String (ascii_of_nat 34) s +:+ String (ascii_of_nat 34) EmptyString.

Definition card_text (c : card) : string :=
  "{" +:+ quoted "id" +:+ ": " +:+ quoted (id c) +:+ ", "
  +:+ quoted "front" +:+ ": " +:+ quoted (front c) +:+ ", "
  +:+ quoted "back" +:+ ": " +:+ quoted (back c) +:+ "}".

Definition sample_text : string :=
  "{" +:+ quoted "collections" +:+ ": {" +:+ quoted "Spanish" +:+ ": {"
  +:+ quoted "cards" +:+ ": [" +:+ card_text hola +:+ ", " +:+ card_text gato
  +:+ "]}}}".

(** A world whose list object 0 holds the sample cards, before any save. *)
Definition w_save : world := world0 [] [[hola; gato]] (λ _, 0%Z).

(** A registry with a card whose front is empty and whose back is a blank. *)
Definition untidy_registry : gmap string (list card) :=
  {["Spanish" := [Card "a1b2c3d4" "" " "]]}.

Definition untidy_text : string :=
  "{" +:+ quoted "collections" +:+ ": {" +:+ quoted "Spanish" +:+ ": {"
  +:+ quoted "cards" +:+ ": [" +:+ card_text (Card "a1b2c3d4" "" " ") +:+ "]}}}".

(** Three cards in stored order; the second card ends the session. *)
Definition w_quit_seq : world :=
  world0 ["1"; ""; "y"; ""; "q"; "after"] [[hola; gato; perro]] (λ _, 7%Z).

(** Three cards; random order; the first card is judged and the second
    ends the session. *)
Definition w_quit3 : world :=
  world0 ["2"; ""; "y"; ""; "q"; "after"] [[hola; gato; perro]] (λ _, 7%Z).

(** The same lines typed on a collection of two cards. *)
Definition w_quit2 : world :=
  world0 ["2"; ""; "y"; ""; "q"; "after"] [[hola; gato]] (λ _, 7%Z).

(** Three cards, random order, every card judged; one answer is first
    mistyped. *)
Definition w_full3 : world :=
  world0 ["x"; " 2 "; ""; "Y"; ""; "maybe"; "no"; ""; "skip"; "after"]
    [[hola; gato; perro]] (λ n, Z.of_nat n).

(** A word, a number out of range, and a number in range with blanks. *)
Definition w_choice : world := world0 ["x"; "7"; " 2 "; "after"] [] (λ _, 0%Z).

(** A word and then a superscript two. *)
Definition w_superscript : world :=
  world0 ["nine"; String (ascii_of_nat 178) EmptyString; "1"] [] (λ _, 0%Z).

(** Two collections, and the lines that delete the first of them. *)
Definition two_collections : gmap string nat := {["Spanish" := 0; "French" := 1]}.

Definition w_delete_collection : world :=
  world0 ["1"; "Yes"; "after"] [[hola; gato]; [perro]] (λ _, 0%Z).

(** A stored card that already has the id the random value will give. *)
Definition w_collision : world :=
  world0 [" hola"; "hello "] [[gato; Card "deadbeef" "bos" "ox"]]
    (λ _, 295990755076957556440877544977013132783%Z).

(** A collection without cards. *)
Definition w_no_cards : world := world0 ["1"; "y"] [[]] (λ _, 0%Z).

(** A run of the program: a collection is created, the first collection is
    opened and a card is added to it, and the program is left. *)
Definition w_session : world :=
  world0 ["1"; " French "; ""; "2"; "2"; "2"; "gato"; "cat"; ""; "0"; "0"]
    [[hola]] (λ _, 295990755076957556440877544977013132783%Z).

(** The data file cannot be opened. *)
Definition w_locked : world :=
  World [" hola"; "hello "] [] (Some Unreadable) {[0 := [gato]]}
    (λ _, 295990755076957556440877544977013132783%Z) 0.

(** Two collections; a card is added to the first and one is deleted. *)
Definition w_two : world :=
  world0 ["2"; "bos"; "ox"; ""; "3"; "4"; "0f9e8d7c"; "y"; ""; "0"; "0"]
    [[hola; gato]; [perro]] (λ _, 295990755076957556440877544977013132783%Z).

(** A number out of range and then the number of the second item. *)
Definition w_pick : world := world0 ["5"; "2"; "after"] [] (λ _, 0%Z).

(** * Facts *)

(** ** Strings *)

Lemma string_app_cons c (s t : string) : String c s +:+ t = String c (s +:+ t).
Proof. reflexivity. Qed.

Lemma string_length_app (a b : string) :
  String.length (a +:+ b) = String.length a + String.length b.
Proof.
  induction a as [|x a IH]; [done|]. rewrite string_app_cons. simpl. by rewrite IH.
Qed.

Lemma length_repeat_char c n : String.length (PyStr.repeat_char c n) = n.
Proof. induction n as [|n IH]; simpl; [done | by rewrite IH]. Qed.

Lemma length_slice_to n s :
  n ≤ String.length s → String.length (PyStr.slice_to n s) = n.
Proof.
  revert s. induction n as [|n IH]; intros s Hlen; [by destruct s|].
  destruct s as [|c s]; simpl in *; [lia|]. rewrite IH; lia.
Qed.

Lemma all_chars_app p a b :
  PyStr.all_chars p (a +:+ b) = PyStr.all_chars p a && PyStr.all_chars p b.
Proof.
  induction a as [|x a IH]; [done|].
  rewrite string_app_cons. simpl. by rewrite IH, andb_assoc.
Qed.

Lemma all_chars_repeat p c n : p c = true → PyStr.all_chars p (PyStr.repeat_char c n) = true.
Proof. intros Hc. induction n as [|n IH]; simpl; [done | by rewrite Hc, IH]. Qed.

Lemma all_chars_slice_to p n s :
  PyStr.all_chars p s = true → PyStr.all_chars p (PyStr.slice_to n s) = true.
Proof.
  revert s. induction n as [|n IH]; intros [|c s]; simpl; try done.
  intros [Hc Hs]%andb_true_iff. by rewrite Hc, IH.
Qed.

Lemma hex_digit_lower (d : Z) :
  (0 ≤ d < 16)%Z → is_lower_hex (PyStr.hex_digit d) = true.
Proof.
  intros Hd.
  assert (Hcases : ∃ n : nat, n < 16 ∧ d = Z.of_nat n).
  { exists (Z.to_nat d). lia. }
  destruct Hcases as (n & Hn & ->).
  do 16 (destruct n as [|n]; [reflexivity|]). lia.
Qed.

Lemma hex_fuel_lower fuel z acc :
  (0 ≤ z)%Z → PyStr.all_chars is_lower_hex acc = true →
  PyStr.all_chars is_lower_hex (PyStr.hex_fuel fuel z acc) = true.
Proof.
  revert z acc. induction fuel as [|fuel IH]; intros z acc Hz Hacc; simpl; [done|].
  assert (Hd : is_lower_hex (PyStr.hex_digit (z mod 16)) = true).
  { apply hex_digit_lower, Z.mod_pos_bound. lia. }
  destruct (z <? 16)%Z; simpl.
  - by rewrite Hd, Hacc.
  - apply IH; [apply Z.div_pos; lia | simpl; by rewrite Hd, Hacc].
Qed.

Lemma uuid4_int_nonneg r : (0 ≤ r)%Z → (0 ≤ uuid4_int r)%Z.
Proof.
  intros Hr. unfold uuid4_int.
  apply Z.lor_nonneg. split; [|by apply Z.shiftl_nonneg].
  apply Z.land_nonneg. left.
  apply Z.lor_nonneg. split; [|by apply Z.shiftl_nonneg].
  apply Z.land_nonneg. by left.
Qed.

Lemma format_032x_shape z :
  (0 ≤ z)%Z →
  32 ≤ String.length (PyStr.format_032x z)
  ∧ PyStr.all_chars is_lower_hex (PyStr.format_032x z) = true.
Proof.
  intros Hz. unfold PyStr.format_032x, PyStr.zfill. split.
  - rewrite string_length_app, length_repeat_char. lia.
  - rewrite all_chars_app, all_chars_repeat by done. simpl.
    by apply hex_fuel_lower.
Qed.

(** The identifier [uuid.uuid4().hex[:8]] is eight lowercase hex digits. *)
Lemma card_id_shape r :
  let h := PyStr.format_032x (uuid4_int (r mod 2 ^ 128)) in
  String.length (PyStr.slice_to 8 h) = 8
  ∧ PyStr.all_chars is_lower_hex (PyStr.slice_to 8 h) = true.
Proof.
  intros h.
  destruct (format_032x_shape (uuid4_int (r mod 2 ^ 128))) as [Hlen Hhex].
  { apply uuid4_int_nonneg, Z.mod_pos_bound. lia. }
  split.
  - apply length_slice_to. fold h in Hlen. lia.
  - by apply all_chars_slice_to.
Qed.

(** ** Running the prompt loops *)

Arguments PyStr.str_nat : simpl never.
Arguments PyStr.strip : simpl never.
Arguments PyStr.lower : simpl never.

(** Unfolds the monad and the helpers, so that a run on a world given field
    by field computes. *)
Ltac unfold_ops :=
  unfold prompt_nonempty, prompt_int, confirm, pause, get_cards, uuid4_hex,
    randbelow, clear, print, deref, assign, alloc,
    get_disk, set_disk, get_heap, draw, input, emit, ask_until, ret, raise, bind.

Ltac run := unfold_ops; cbn.

(** Saving succeeds unless the file cannot be opened, and then the file
    holds the text of the registry's document. *)
Lemma save_data_run `{JsonCodec} data w :
  disk w ≠ Some Unreadable →
  save_data data w =
    (Ok tt,
     World (stdin w) (stdout w)
       (Some (Content (json_dumps (encode_registry (snapshot (heap w) data)))))
       (heap w) (entropy w) (drawn w)).
Proof.
  intros Hd. destruct w as [ins out dsk hp ent dr].
  unfold save_data, save_doc, bind, get_heap, get_disk, set_disk.
  cbn in *. by destruct dsk as [[]|].
Qed.

Arguments save_data : simpl never.

Lemma parse_nonempty_accept l :
  PyStr.strip l ≠ EmptyString → parse_nonempty l = Accept (PyStr.strip l).
Proof. unfold parse_nonempty. intros. by destruct (PyStr.strip l). Qed.

Lemma parse_nonempty_reject l :
  PyStr.strip l = EmptyString → parse_nonempty l = Reject "Input cannot be empty.".
Proof. unfold parse_nonempty. by intros ->. Qed.


Arguments PyStr.slice_to : simpl never.
Arguments PyStr.format_032x : simpl never.
Arguments uuid4_int : simpl never.

(** ** Adding a card *)

(** C9.  Every card that [add_card] appends carries as its id the first
    eight characters of the hexadecimal form of a version-4 UUID: exactly
    eight characters, each a lowercase hexadecimal digit. *)
Theorem add_card_id_shape `{JsonCodec} data col l cards w f b rest :
  data !! col = Some l → heap w !! l = Some cards →
  stdin w = f :: b :: rest →
  PyStr.strip f ≠ EmptyString → PyStr.strip b ≠ EmptyString →
  disk w ≠ Some Unreadable →
  ∃ c w',
    add_card data col w = (Ok tt, w')
    ∧ heap w' = <[l := cards ++ [c]]> (heap w)
    ∧ front c = PyStr.strip f ∧ back c = PyStr.strip b
    ∧ id c = PyStr.slice_to 8
               (PyStr.format_032x (uuid4_int (entropy w (drawn w) mod 2 ^ 128)))
    ∧ String.length (id c) = 8
    ∧ PyStr.all_chars is_lower_hex (id c) = true.
Proof.
  intros Hcol Hl Hin Hf Hb Hd.
  destruct w as [ins out dsk hp ent dr]; simpl in *; subst.
  unfold add_card. run.
  rewrite (parse_nonempty_accept f) by done. cbn.
  rewrite (parse_nonempty_accept b) by done. cbn.
  rewrite Hcol. cbn. rewrite Hl. cbn.
  rewrite save_data_run by done. cbn.
  eexists (Card _ _ _), _. split; [done|].
  simpl. repeat split; try done; apply card_id_shape.
Qed.

Lemma add_card_id_shape_witness :
  ∃ c w',
    @add_card sample_codec spanish "Spanish" w_add = (Ok tt, w')
    ∧ heap w' = <[0 := [gato] ++ [c]]> (heap w_add)
    ∧ front c = "hola" ∧ back c = "hello"
    ∧ id c = "deadbeef"
    ∧ String.length (id c) = 8
    ∧ PyStr.all_chars is_lower_hex (id c) = true.
Proof.
  exact (@add_card_id_shape sample_codec spanish "Spanish" 0 [gato] w_add
           " hola" "hello " [] eq_refl eq_refl eq_refl
           ltac:(by vm_compute) ltac:(by vm_compute) ltac:(by vm_compute)).
Defined.

(** ** Creating a collection *)

Lemma snapshot_insert_fresh (h : gmap loc (list card)) (data : collections) name l :
  h !! l = None →
  snapshot (<[l := []]> h) (<[name := l]> data) = <[name := []]> (snapshot h data).
Proof.
  intros Hl. unfold snapshot. rewrite fmap_insert, lookup_insert_eq. simpl.
  f_equal. apply map_fmap_ext. intros k l' _.
  destruct (decide (l = l')) as [<-|Hne].
  - by rewrite lookup_insert_eq, Hl.
  - by rewrite lookup_insert_ne.
Qed.

(** C5.  When the name typed at the prompt is already a collection,
    [create_collection] prints the duplicate-name message and changes
    nothing: the same mapping, the same list objects, the same file.  When
    it is not, a new empty list object is stored under that name and the
    registry with the added empty collection is saved. *)
Theorem create_collection_duplicate_or_insert `{JsonCodec} data w line rest :
  stdin w = line :: rest → PyStr.strip line ≠ EmptyString →
  let name := PyStr.strip line in
  (is_Some (data !! name) →
     create_collection data w =
       (Ok data,
        World rest
          (stdout w ++ [Ask "New collection name: ";
                        Echo "A collection with that name already exists."])
          (disk w) (heap w) (entropy w) (drawn w)))
  ∧ (data !! name = None → disk w ≠ Some Unreadable →
     ∃ l w',
       create_collection data w = (Ok (<[name := l]> data), w')
       ∧ heap w !! l = None
       ∧ heap w' = <[l := []]> (heap w)
       ∧ snapshot (heap w') (<[name := l]> data)
         = <[name := []]> (snapshot (heap w) data)
       ∧ disk w' = Some (Content (json_dumps
           (encode_registry (<[name := []]> (snapshot (heap w) data)))))).
Proof.
  intros Hin Hname name.
  destruct w as [ins out dsk hp ent dr]; simpl in *; subst.
  unfold create_collection. run.
  rewrite (parse_nonempty_accept line) by done. cbn. fold name.
  split.
  - intros [l Hl]. rewrite Hl. cbn. by rewrite <- app_assoc.
  - intros Hnone Hd. rewrite Hnone. cbn.
    assert (Hfresh : hp !! fresh (dom hp) = None).
    { apply not_elem_of_dom, is_fresh. }
    rewrite save_data_run by done. cbn.
    eexists _, _. split; [done|].
    cbn. by rewrite snapshot_insert_fresh.
Qed.

Lemma create_collection_duplicate_or_insert_witness :
  @create_collection sample_codec spanish w_create =
    (Ok spanish,
     World ["next"]
       [Ask "New collection name: ";
        Echo "A collection with that name already exists."]
       None (heap w_create) (entropy w_create) 0)
  ∧ ∃ l w',
      @create_collection sample_codec ∅ w_create = (Ok {["Spanish" := l]}, w')
      ∧ heap w_create !! l = None
      ∧ heap w' = <[l := []]> (heap w_create).
Proof.
  destruct (@create_collection_duplicate_or_insert sample_codec spanish w_create
              "  Spanish " ["next"] eq_refl ltac:(by vm_compute)) as [Hdup _].
  destruct (@create_collection_duplicate_or_insert sample_codec ∅ w_create
              "  Spanish " ["next"] eq_refl ltac:(by vm_compute)) as [_ Hnew].
  split.
  - exact (Hdup ltac:(by eexists)).
  - destruct (Hnew eq_refl ltac:(by vm_compute)) as (l & w' & Hrun & Hl & Hh & _).
    exists l, w'. repeat split; [exact Hrun | exact Hl | exact Hh].
Defined.

(** ** Trimming *)

Lemma rstrip_rstrip_newline s :
  PyStr.rstrip (PyStr.rstrip_newline s) = PyStr.rstrip s.
Proof.
  induction s as [|c s IH]; [done|]. simpl.
  destruct (PyStr.rstrip_newline s) as [|a r] eqn:Hr.
  - simpl in IH. rewrite <- IH.
    destruct (nat_of_ascii c =? 10) eqn:Hc; simpl.
    + apply Nat.eqb_eq in Hc. unfold PyStr.isspace. by rewrite Hc.
    + done.
  - change (PyStr.rstrip (String c (String a r)))
      with (match PyStr.rstrip (String a r) with
            | EmptyString =>
                if PyStr.isspace c then EmptyString else String c EmptyString
            | x => String c x
            end).
    by rewrite IH.
Qed.

Lemma isspace_newline c : (nat_of_ascii c =? 10) = true → PyStr.isspace c = true.
Proof. intros Hc%Nat.eqb_eq. unfold PyStr.isspace. by rewrite Hc. Qed.

Lemma lstrip_rstrip_newline s :
  PyStr.lstrip (PyStr.rstrip_newline s) = PyStr.rstrip_newline (PyStr.lstrip s).
Proof.
  induction s as [|c s IH]; [done|]. simpl.
  destruct (PyStr.isspace c) eqn:Hsp.
  - rewrite <- IH. destruct (PyStr.rstrip_newline s) as [|a r]; simpl.
    + destruct (nat_of_ascii c =? 10); simpl; [done | by rewrite Hsp].
    + by rewrite Hsp.
  - simpl. destruct (PyStr.rstrip_newline s) as [|a r]; simpl.
    + destruct (nat_of_ascii c =? 10) eqn:Hc.
      * apply isspace_newline in Hc. congruence.
      * simpl. by rewrite Hsp.
    + by rewrite Hsp.
Qed.

(** [input(...).rstrip("\n").strip()] is [input(...).strip()]. *)
Lemma strip_rstrip_newline s : PyStr.strip (PyStr.rstrip_newline s) = PyStr.strip s.
Proof.
  unfold PyStr.strip. by rewrite lstrip_rstrip_newline, rstrip_rstrip_newline.
Qed.

Lemma lstrip_head s c s' : PyStr.lstrip s = String c s' → PyStr.isspace c = false.
Proof.
  induction s as [|a s IH]; simpl; [done|].
  destruct (PyStr.isspace a) eqn:Ha; [done|]. intros [= <- _]. done.
Qed.

Lemma rstrip_head s c s' :
  PyStr.rstrip s = String c s' → ∃ s0, s = String c s0.
Proof.
  destruct s as [|a s]; simpl; [done|].
  destruct (PyStr.rstrip s); [destruct (PyStr.isspace a)|]; intros [= <- _]; eauto.
Qed.

Lemma rstrip_last s s' c :
  PyStr.rstrip s = s' +:+ String c EmptyString → PyStr.isspace c = false.
Proof.
  revert s'. induction s as [|a s IH]; intros s'; simpl.
  - destruct s'; done.
  - destruct (PyStr.rstrip s) as [|b r] eqn:Hr.
    + destruct (PyStr.isspace a) eqn:Ha.
      * destruct s'; done.
      * destruct s' as [|x s'].
        -- by intros [= <-].
        -- rewrite string_app_cons. intros [= _ Heq]. by destruct s'.
    + destruct s' as [|x s'].
      * intros Heq. by inversion Heq.
      * rewrite string_app_cons. intros [= _ Heq]. by apply (IH s').
Qed.

(** What [strip] returns is tidy unless it is empty. *)
Lemma strip_tidy s : PyStr.strip s ≠ EmptyString → tidy (PyStr.strip s).
Proof.
  intros Hne. split; [done|]. split.
  - intros c s' Heq. unfold PyStr.strip in Heq.
    destruct (rstrip_head _ _ _ Heq) as [s0 Hs0].
    by apply lstrip_head in Hs0.
  - intros s' c Heq. by apply rstrip_last in Heq.
Qed.

(** ** Finding, listing, editing and deleting cards *)

Lemma find_card_from_first k cards cid i c :
  cards !! i = Some c → id c = cid →
  (∀ j x, j < i → cards !! j = Some x → id x ≠ cid) →
  find_card_from k cards cid = Some (k + i, c).
Proof.
  revert k i. induction cards as [|a cards IH]; intros k i Hi Hid Hfirst; [done|].
  simpl. destruct i as [|i]; simpl in Hi.
  - injection Hi as ->. rewrite Hid, String.eqb_refl. by rewrite Nat.add_0_r.
  - assert (Ha : id a ≠ cid) by (apply (Hfirst 0); [lia | done]).
    apply String.eqb_neq in Ha. rewrite Ha.
    rewrite (IH (S k) i); [f_equal; f_equal; lia | done | done |].
    intros j x Hj Hx. apply (Hfirst (S j)); [lia | done].
Qed.

Lemma find_card_first cards cid i c :
  cards !! i = Some c → id c = cid →
  (∀ j x, j < i → cards !! j = Some x → id x ≠ cid) →
  find_card cards cid = Some (i, c).
Proof. intros. unfold find_card. by erewrite find_card_from_first. Qed.

Lemma find_card_from_absent k cards cid :
  (∀ c, c ∈ cards → id c ≠ cid) → find_card_from k cards cid = None.
Proof.
  revert k. induction cards as [|a cards IH]; intros k Habs; [done|]. simpl.
  assert (Ha : id a ≠ cid) by (apply Habs; left).
  apply String.eqb_neq in Ha. rewrite Ha. apply IH.
  intros c Hc. apply Habs. by right.
Qed.

Lemma find_card_absent cards cid :
  (∀ c, c ∈ cards → id c ≠ cid) → find_card cards cid = None.
Proof. apply find_card_from_absent. Qed.

(** [cards.remove(card)] compares by value; on the first card with a given
    id it removes the element at that card's own position. *)
Lemma list_remove_first cards i c :
  cards !! i = Some c →
  (∀ j x, j < i → cards !! j = Some x → x ≠ c) →
  list_remove c cards = take i cards ++ drop (S i) cards.
Proof.
  revert i. induction cards as [|a cards IH]; intros i Hi Hfirst; [done|].
  simpl. destruct i as [|i]; simpl in *.
  - injection Hi as ->. by rewrite decide_True.
  - rewrite decide_False by (apply (Hfirst 0); [lia | done]).
    f_equal. apply IH; [done|].
    intros j x Hj Hx. apply (Hfirst (S j)); [lia | done].
Qed.

Lemma print_each_run cards w :
  print_each cards w =
    (Ok tt, World (stdin w) (stdout w ++ ((λ c, Echo (card_line c)) <$> cards))
              (disk w) (heap w) (entropy w) (drawn w)).
Proof.
  revert w. induction cards as [|c cards IH]; intros [ins out dsk hp ent dr]; simpl.
  - unfold ret. by rewrite app_nil_r.
  - unfold bind, print, emit. rewrite IH. simpl. by rewrite <- app_assoc.
Qed.

Lemma list_cards_run cards w :
  list_cards cards w =
    (Ok tt, World (stdin w) (stdout w ++ listing cards)
              (disk w) (heap w) (entropy w) (drawn w)).
Proof.
  destruct w as [ins out dsk hp ent dr]. destruct cards as [|c cards]; [done|].
  unfold list_cards, bind, print, emit. rewrite print_each_run. simpl.
  by rewrite <- app_assoc.
Qed.

Arguments find_card : simpl never.
Arguments list_remove : simpl never.
Arguments list_cards : simpl never.
Arguments listing : simpl never.

Lemma truthy_decide s :
  PyStr.truthy s = if decide (s = EmptyString) then false else true.
Proof. by destruct s. Qed.

(** C4.  Editing the card found under the typed id: a line that is not
    blank replaces the field by its trimmed text, an empty or blank line
    keeps the stored value, so no field is ever set to empty.  The id and
    the position of the card stay, every other card stays, and with both
    lines blank the card list is exactly what it was. *)
Theorem edit_card_partial_update `{JsonCodec}
    data col l cards w i c idline line_front line_back rest :
  data !! col = Some l → heap w !! l = Some cards →
  cards !! i = Some c →
  PyStr.strip idline = id c → id c ≠ EmptyString →
  (∀ j x, j < i → cards !! j = Some x → id x ≠ id c) →
  stdin w = idline :: line_front :: line_back :: rest →
  disk w ≠ Some Unreadable →
  let c' := edited c line_front line_back in
  ∃ w',
    edit_card data col w = (Ok tt, w')
    ∧ heap w' = <[l := <[i := c']> cards]> (heap w)
    ∧ stdin w' = rest
    ∧ id c' = id c
    ∧ (PyStr.strip line_front ≠ EmptyString → front c' = PyStr.strip line_front)
    ∧ (PyStr.strip line_front = EmptyString → front c' = front c)
    ∧ (PyStr.strip line_back ≠ EmptyString → back c' = PyStr.strip line_back)
    ∧ (PyStr.strip line_back = EmptyString → back c' = back c)
    ∧ (front c ≠ EmptyString → front c' ≠ EmptyString)
    ∧ (back c ≠ EmptyString → back c' ≠ EmptyString)
    ∧ length (<[i := c']> cards) = length cards
    ∧ <[i := c']> cards !! i = Some c'
    ∧ (∀ j, j ≠ i → <[i := c']> cards !! j = cards !! j)
    ∧ (PyStr.strip line_front = EmptyString → PyStr.strip line_back = EmptyString →
       c' = c ∧ heap w' = heap w).
Proof.
  intros Hcol Hl Hi Hid Hne Hfirst Hin Hd c'.
  assert (Hfind : find_card cards (PyStr.strip idline) = Some (i, c)).
  { apply find_card_first; [done | done |]. by rewrite Hid. }
  destruct w as [ins out dsk hp ent dr]; simpl in *; subst ins.
  unfold edit_card. run. rewrite Hcol. cbn. rewrite Hl. cbn.
  destruct cards as [|c0 cs]; [done|].
  rewrite list_cards_run. cbn.
  rewrite (parse_nonempty_accept idline) by (by rewrite Hid). cbn.
  rewrite Hfind. cbn.
  rewrite !strip_rstrip_newline, !truthy_decide.
  assert (Hc' : (if (if decide (PyStr.strip line_back = EmptyString) then false else true)
                 then Card
                        (id (if (if decide (PyStr.strip line_front = EmptyString) then false else true)
                             then Card (id c) (PyStr.strip line_front) (back c) else c))
                        (front (if (if decide (PyStr.strip line_front = EmptyString) then false else true)
                                then Card (id c) (PyStr.strip line_front) (back c) else c))
                        (PyStr.strip line_back)
                 else (if (if decide (PyStr.strip line_front = EmptyString) then false else true)
                       then Card (id c) (PyStr.strip line_front) (back c) else c)) = c').
  { unfold c', edited. destruct c. by repeat case_decide. }
  rewrite Hc'. clear Hc'.
  rewrite save_data_run by done. cbn.
  eexists. split; [done|].
  assert (Hsame : PyStr.strip line_front = EmptyString →
                  PyStr.strip line_back = EmptyString → c' = c).
  { intros Hf Hb. unfold c', edited. rewrite !decide_True by done. by destruct c. }
  unfold c', edited. cbn.
  repeat split.
  - intros Hf. by rewrite decide_False.
  - intros Hf. by rewrite decide_True.
  - intros Hb. by rewrite decide_False.
  - intros Hb. by rewrite decide_True.
  - intros Hf. by destruct (decide (PyStr.strip line_front = EmptyString)).
  - intros Hb. by destruct (decide (PyStr.strip line_back = EmptyString)).
  - by rewrite length_insert.
  - apply list_lookup_insert_eq. by eapply lookup_lt_Some.
  - intros j Hj. by rewrite list_lookup_insert_ne.
  - by apply Hsame.
  - change (<[l := <[i := c']> (c0 :: cs)]> hp = hp).
    rewrite Hsame by done.
    rewrite list_insert_id by done. by rewrite insert_id.
Qed.

Lemma edit_card_partial_update_witness :
  ∃ w',
    @edit_card sample_codec spanish "Spanish" w_edit = (Ok tt, w')
    ∧ heap w' = <[0 := [hola; Card "0f9e8d7c" "gato" "kitty"]]> (heap w_edit)
    ∧ stdin w' = ["after"].
Proof.
  destruct (@edit_card_partial_update sample_codec spanish "Spanish" 0
              [hola; gato] w_edit 1 gato " 0f9e8d7c " "" " kitty " ["after"]
              eq_refl eq_refl eq_refl eq_refl ltac:(by vm_compute)
              ltac:(intros j x Hj Hx; assert (j = 0) as -> by lia;
                      injection Hx as <-; by vm_compute)
              eq_refl ltac:(by vm_compute))
    as (w' & Hrun & Hheap & Hin & _).
  exists w'. repeat split; [exact Hrun | exact Hheap | exact Hin].
Defined.

(** C6.  Deleting by a typed id.  When no stored card has the id, the
    not-found message is printed and neither the card list nor the file
    changes.  When a card has it and the deletion is confirmed, exactly that
    card (the first with the id) leaves the list, the cards before it and
    after it stay in order, and the result is saved.  A declined
    confirmation changes nothing. *)
Theorem delete_card_removes_one `{JsonCodec} data col l cards w idline rest :
  data !! col = Some l → heap w !! l = Some cards →
  stdin w = idline :: rest → PyStr.strip idline ≠ EmptyString →
  let cid := PyStr.strip idline in
  ((∀ c, c ∈ cards → id c ≠ cid) →
     ∃ w',
       delete_card data col w = (Ok tt, w')
       ∧ heap w' = heap w ∧ disk w' = disk w
       ∧ last (stdout w') =
           Some (Echo (match cards with
                       | [] => "No cards to delete."
                       | _ => "Card id not found."
                       end)))
  ∧ (∀ i c answer rest',
       cards !! i = Some c → id c = cid →
       (∀ j x, j < i → cards !! j = Some x → id x ≠ cid) →
       rest = answer :: rest' →
       (parse_confirm answer = Accept true → disk w ≠ Some Unreadable →
          ∃ w',
            delete_card data col w = (Ok tt, w')
            ∧ heap w' = <[l := take i cards ++ drop (S i) cards]> (heap w)
            ∧ disk w' = Some (Content (json_dumps
                (encode_registry (snapshot (heap w') data))))
            ∧ stdin w' = rest')
       ∧ (parse_confirm answer = Accept false →
          ∃ w',
            delete_card data col w = (Ok tt, w')
            ∧ heap w' = heap w ∧ disk w' = disk w ∧ stdin w' = rest')).
Proof.
  intros Hcol Hl Hin Hne cid.
  destruct w as [ins out dsk hp ent dr]; simpl in *; subst ins.
  unfold delete_card. run. rewrite Hcol. cbn. rewrite Hl. cbn. split.
  - intros Habs. destruct cards as [|c0 cs].
    + cbn. eexists. split; [done|]. cbn. by rewrite last_snoc.
    + rewrite list_cards_run. cbn.
      rewrite (parse_nonempty_accept idline) by done. cbn. fold cid.
      rewrite find_card_absent by done. cbn.
      eexists. split; [done|]. cbn. by rewrite last_snoc.
  - intros i c answer rest' Hi Hid Hfirst ->.
    assert (Hfind : find_card cards cid = Some (i, c)) by by apply find_card_first.
    assert (Hrem : list_remove c cards = take i cards ++ drop (S i) cards).
    { apply list_remove_first; [done|]. intros j x Hj Hx ->. by eapply Hfirst. }
    destruct cards as [|c0 cs]; [done|].
    rewrite list_cards_run. cbn.
    rewrite (parse_nonempty_accept idline) by done. cbn. fold cid.
    rewrite Hfind. cbn. split.
    + intros Hyes Hd. rewrite Hyes. cbn.
      rewrite save_data_run by done. cbn.
      eexists. split; [done|]. cbn. by rewrite Hrem.
    + intros Hno. rewrite Hno. cbn. by eexists.
Qed.

Lemma delete_card_removes_one_witness :
  (∃ w',
     @delete_card sample_codec spanish "Spanish" w_delete_missing = (Ok tt, w')
     ∧ heap w' = heap w_delete_missing ∧ disk w' = None
     ∧ last (stdout w') = Some (Echo "Card id not found."))
  ∧ (∃ w',
       @delete_card sample_codec spanish "Spanish" w_delete = (Ok tt, w')
       ∧ heap w' = <[0 := [hola; perro]]> (heap w_delete)).
Proof.
  destruct (@delete_card_removes_one sample_codec spanish "Spanish" 0
              [hola; gato; perro] w_delete_missing "ffffffff" ["y"]
              eq_refl eq_refl eq_refl ltac:(by vm_compute)) as [Habsent _].
  destruct (@delete_card_removes_one sample_codec spanish "Spanish" 0
              [hola; gato; perro] w_delete "0f9e8d7c" ["y"; "after"]
              eq_refl eq_refl eq_refl ltac:(by vm_compute)) as [_ Hpresent].
  split.
  - apply Habsent. intros c Hc.
    repeat (apply elem_of_cons in Hc as [->|Hc]; [by vm_compute|]).
    by apply elem_of_nil in Hc.
  - destruct (Hpresent 1 gato "y" ["after"] eq_refl eq_refl
                ltac:(intros j x Hj Hx; assert (j = 0) as -> by lia;
                      injection Hx as <-; by vm_compute)
                eq_refl) as [Hyes _].
    destruct (Hyes eq_refl ltac:(by vm_compute)) as (w' & Hrun & Hheap & _).
    exists w'. split; [exact Hrun | exact Hheap].
Defined.

(** ** Storage *)

Lemma has_key_elem k (fields : list (string * json)) :
  has_key k fields = true ↔ k ∈ fields.*1.
Proof.
  unfold has_key. rewrite existsb_exists, list_elem_of_fmap. split.
  - intros (kv & Hin & Heq). apply String.eqb_eq in Heq.
    exists kv. split; [done|]. by apply list_elem_of_In.
  - intros (kv & -> & Hin). exists kv. split; [by apply list_elem_of_In|].
    apply String.eqb_refl.
Qed.

Lemma encode_registry_has_collections r : has_collections (encode_registry r).
Proof. eexists. split; [done|]. simpl. left. Qed.

#[local] Instance encode_card_inj : Inj (=) (=) encode_card.
Proof. intros [i1 f1 b1] [i2 f2 b2] [= -> -> ->]. done. Qed.

#[local] Instance encode_collection_inj : Inj (=) (=) encode_collection.
Proof. intros cs1 cs2 [= Heq]. by apply (inj (fmap encode_card)) in Heq. Qed.

(** Two registries with the same document are the same registry. *)
Lemma encode_registry_inj r1 r2 : encode_registry r1 = encode_registry r2 → r1 = r2.
Proof.
  intros [= Heq]. apply map_to_list_inj.
  assert (Hinj : Inj (=) (=)
            (λ kv : string * list card, (kv.1, encode_collection kv.2))).
  { intros [k1 c1] [k2 c2] [= -> Hc]. simpl in *. f_equal. by apply (inj _) in Hc. }
  apply (inj (fmap _)) in Heq. by rewrite Heq.
Qed.

(** Every registry value is held by some state of the program. *)
Lemma snapshot_surj (r : gmap string (list card)) :
  ∃ (h : gmap loc (list card)) (data : collections),
    snapshot h data = r ∧ ∀ k l, data !! k = Some l → is_Some (h !! l).
Proof.
  induction r as [|k cs r Hk _ IH] using map_first_key_ind.
  - exists ∅, ∅. split; [apply fmap_empty | done].
  - destruct IH as (h & data & Hsnap & Hwf).
    assert (Hfresh : h !! fresh (dom h) = None) by apply not_elem_of_dom, is_fresh.
    exists (<[fresh (dom h) := cs]> h), (<[k := fresh (dom h)]> data). split.
    + unfold snapshot in *. rewrite fmap_insert, lookup_insert_eq. simpl.
      f_equal. rewrite <- Hsnap. apply map_fmap_ext. intros k' l' Hl'.
      rewrite lookup_insert_ne; [done|]. intros <-.
      destruct (Hwf _ _ Hl') as [x Hx]. congruence.
    + intros k' l'. rewrite lookup_insert. case_decide.
      * intros [= <-]. rewrite lookup_insert_eq. by eexists.
      * intros Hl'. rewrite lookup_insert_ne; [by eapply Hwf|].
        intros <-. destruct (Hwf _ _ Hl') as [x Hx]. congruence.
Qed.

(** C7.  What [save_data] writes, [load_data] reads back: after a save that
    succeeded, loading returns the document of the registry that was saved,
    for a codec that decodes that document's text to the document.  A
    document determines its registry: the same names, and under each name
    the same cards (id, front, back) in the same order.  Every registry
    value is the content of some program state. *)
Theorem save_load_roundtrip `{JsonCodec} (data : collections) w w1 :
  let r := snapshot (heap w) data in
  json_loads (json_dumps (encode_registry r)) = Some (encode_registry r) →
  save_data data w = (Ok tt, w1) →
  load_data w1 = (Ok (encode_registry r), w1)
  ∧ (∀ r', load_data w1 = (Ok (encode_registry r'), w1) → r' = r)
  ∧ (∀ r0 : gmap string (list card), ∃ h0 data0, snapshot h0 data0 = r0).
Proof.
  intros r Hcodec Hsave.
  assert (Hload : load_data w1 = (Ok (encode_registry r), w1)).
  { destruct w as [ins out dsk hp ent dr].
    unfold save_data, save_doc, bind, get_heap, get_disk, set_disk, raise in Hsave.
    cbn in *. fold r in Hsave.
    destruct dsk as [[| |text]|]; [done| | |]; injection Hsave as <-.
    all: unfold load_data, try_except, read_text, json_load, bind, get_disk, ret.
    all: cbn; rewrite Hcodec; reflexivity. }
  split; [done|]. split.
  - intros r' Hr'. rewrite Hload in Hr'.
    apply encode_registry_inj. congruence.
  - intros r0. destruct (snapshot_surj r0) as (h0 & data0 & Hsnap & _). eauto.
Qed.

Lemma save_load_roundtrip_witness :
  ∃ w1,
    @save_data (table_codec (encode_registry sample_registry) sample_text)
      spanish w_save = (Ok tt, w1)
    ∧ disk w1 = Some (Content sample_text)
    ∧ @load_data (table_codec (encode_registry sample_registry) sample_text) w1
      = (Ok (encode_registry sample_registry), w1).
Proof.
  eexists. split; [reflexivity|]. split; [reflexivity|].
  apply (@save_load_roundtrip
           (table_codec (encode_registry sample_registry) sample_text)
           spanish w_save _ ltac:(by vm_compute) eq_refl).
Defined.

(** C8, as the code has it.  [load_data] leaves the world as it is.  It
    returns the default document, whose [collections] mapping is empty, when
    the file is absent, when it cannot be opened, when [json.load] raises
    [JSONDecodeError] or [OSError], and when the decoded document is not an
    object with the key [collections]; it returns the decoded document when
    that is an object with the key.  It raises [UnicodeDecodeError] when the
    bytes of the file are not UTF-8, and every other exception of
    [json.load], which the handler does not take, is raised by [load_data]
    as well. *)
Theorem load_data_fallback `{JsonCodec} w :
  _default_data = JDict [("collections", JDict [])]
  ∧ (load_data w).2 = w
  ∧ (disk w = None → load_data w = (Ok _default_data, w))
  ∧ (disk w = Some Unreadable → load_data w = (Ok _default_data, w))
  ∧ (disk w = Some Undecodable → load_data w = (Raise UnicodeDecodeError, w))
  ∧ (∀ text, disk w = Some (Content text) →
       match json_loads text with
       | Some v =>
           (has_collections v → load_data w = (Ok v, w))
           ∧ (¬ has_collections v → load_data w = (Ok _default_data, w))
       | None =>
           let e := json_load_error text in
           (e = JSONDecodeError ∨ e = OSError →
            load_data w = (Ok _default_data, w))
           ∧ (e ≠ JSONDecodeError → e ≠ OSError → load_data w = (Raise e, w))
       end).
Proof.
  destruct w as [ins out dsk hp ent dr].
  unfold load_data, try_except, read_text, json_load, bind, get_disk, ret, raise.
  cbn. split; [done|].
  destruct dsk as [[| |text]|]; cbn.
  1,2,4: by repeat split.
  assert (Hnot : ∀ v', (∀ fields, v' ≠ JDict fields) → ¬ has_collections v').
  { intros v' Hv' (fields & -> & _). by eapply Hv'. }
  destruct (json_loads text) as [v|] eqn:Hv; cbn.
  - destruct v as [| | | |items|fields]; cbn.
    1-5: repeat split; try done; intros text' [= <-]; rewrite Hv;
         (split; [intros (fields & ? & _); done | done]).
    destruct (has_key "collections" fields) eqn:Hk; cbn.
    + repeat split; try done. intros text' [= <-]. rewrite Hv.
      split; [done|]. intros []. eexists. split; [done|].
      by apply has_key_elem.
    + repeat split; try done. intros text' [= <-]. rewrite Hv.
      split; [|done]. intros (fields' & [= <-] & Hin).
      apply has_key_elem in Hin. congruence.
  - destruct (json_load_error text) eqn:He; cbn.
    all: repeat split; try done; intros text' [= <-]; rewrite Hv, He; cbn.
    all: split; [by intros [|] | by intros].
Qed.

Lemma load_data_fallback_witness :
  @load_data (table_codec (encode_registry sample_registry) sample_text)
    (World [] [] (Some (Content sample_text)) ∅ (λ _, 0%Z) 0)
  = (Ok (encode_registry sample_registry),
     World [] [] (Some (Content sample_text)) ∅ (λ _, 0%Z) 0)
  ∧ @load_data (table_codec (JList []) sample_text)
      (World [] [] (Some (Content sample_text)) ∅ (λ _, 0%Z) 0)
    = (Ok _default_data,
       World [] [] (Some (Content sample_text)) ∅ (λ _, 0%Z) 0)
  ∧ @load_data sample_codec (World [] [] (Some (Content "{")) ∅ (λ _, 0%Z) 0)
    = (Ok _default_data, World [] [] (Some (Content "{")) ∅ (λ _, 0%Z) 0)
  ∧ @load_data sample_codec (World [] [] (Some Unreadable) ∅ (λ _, 0%Z) 0)
    = (Ok _default_data, World [] [] (Some Unreadable) ∅ (λ _, 0%Z) 0).
Proof.
  split; [|split; [|split]].
  - destruct (@load_data_fallback
                (table_codec (encode_registry sample_registry) sample_text)
                (World [] [] (Some (Content sample_text)) ∅ (λ _, 0%Z) 0))
      as (_ & _ & _ & _ & _ & Htext).
    specialize (Htext sample_text eq_refl). cbn in Htext.
    destruct Htext as [Hyes _].
    exact (Hyes (encode_registry_has_collections sample_registry)).
  - destruct (@load_data_fallback (table_codec (JList []) sample_text)
                (World [] [] (Some (Content sample_text)) ∅ (λ _, 0%Z) 0))
      as (_ & _ & _ & _ & _ & Htext).
    specialize (Htext sample_text eq_refl). cbn in Htext.
    destruct Htext as [_ Hno].
    apply Hno. by intros (fields & ? & _).
  - destruct (@load_data_fallback sample_codec
                (World [] [] (Some (Content "{")) ∅ (λ _, 0%Z) 0))
      as (_ & _ & _ & _ & _ & Htext).
    specialize (Htext "{" eq_refl). cbn in Htext.
    destruct Htext as [Hmalformed _].
    apply Hmalformed. by left.
  - destruct (@load_data_fallback sample_codec
                (World [] [] (Some Unreadable) ∅ (λ _, 0%Z) 0))
      as (_ & _ & _ & Hunreadable & _).
    exact (Hunreadable eq_refl).
Defined.

(** C8, counterexample.  On a file that exists and whose bytes are not
    UTF-8, [load_data] raises [UnicodeDecodeError], where the claim has it
    return a registry.  The same happens with a text on which [json.load]
    raises [ValueError], as it does on an integer literal of more digits
    than [PyStr.max_str_digits], or [RecursionError]: the handler names
    [JSONDecodeError] and [OSError] only. *)
Lemma load_data_unhandled_counterexample :
  @load_data sample_codec (World [] [] (Some Undecodable) ∅ (λ _, 0%Z) 0)
  = (Raise UnicodeDecodeError, World [] [] (Some Undecodable) ∅ (λ _, 0%Z) 0)
  ∧ (@load_data (failing_codec ValueError)
       (World [] [] (Some (Content long_number)) ∅ (λ _, 0%Z) 0)).1
    = Raise ValueError
  ∧ (@load_data (failing_codec RecursionError)
       (World [] [] (Some (Content "[[[[")) ∅ (λ _, 0%Z) 0)).1
    = Raise RecursionError
  ∧ handled ValueError = false ∧ handled UnicodeDecodeError = false
  ∧ handled RecursionError = false.
Proof. by vm_compute. Qed.

(** ** Searching *)

Lemma startswith_prefix p s :
  PyStr.startswith p s = true ↔ ∃ t, s = p +:+ t.
Proof.
  revert s. induction p as [|a p IH]; intros s; simpl.
  - split; [by exists s | done].
  - destruct s as [|b s].
    + split; [done | by intros [t Ht]].
    + destruct (Ascii.eqb a b) eqn:Hab.
      * apply Ascii.eqb_eq in Hab as ->. rewrite IH. split.
        -- intros [t ->]. by exists t.
        -- intros [t Ht]. rewrite string_app_cons in Ht.
           injection Ht as ->. by exists t.
      * split; [done|]. intros [t Ht]. rewrite string_app_cons in Ht.
        injection Ht as -> _. by rewrite Ascii.eqb_refl in Hab.
Qed.

(** Python's [q in s] on strings is the substring relation. *)
Lemma contains_occurs q s : PyStr.contains q s = true ↔ occurs_in q s.
Proof.
  induction s as [|c s IH].
  - simpl. rewrite orb_false_r, startswith_prefix. split.
    + intros [t Ht]. by exists EmptyString, t.
    + intros (before & after & Heq). destruct before; [|done]. by exists after.
  - simpl. rewrite orb_true_iff, startswith_prefix, IH. split.
    + intros [[t Ht]|(before & after & ->)].
      * by exists EmptyString, t.
      * by exists (String c before), after.
    + intros (before & after & Heq). destruct before as [|x before].
      * left. by exists after.
      * right. rewrite string_app_cons in Heq. injection Heq as _ ->.
        by exists before, after.
Qed.

Lemma matches_is_hit q c : matches q c = true ↔ is_hit q c.
Proof. unfold matches, is_hit. by rewrite orb_true_iff, !contains_occurs. Qed.

Lemma filter_selects {A} (f : A → bool) (P : A → Prop) l :
  (∀ x, f x = true ↔ P x) → selects P l (filter (λ x, f x = true) l).
Proof.
  intros Hf. induction l as [|x l IH]; [constructor|].
  rewrite filter_cons. case_decide as Hx.
  - apply selects_keep; [by apply Hf | done].
  - apply selects_drop; [by rewrite <- Hf | done].
Qed.

(** A list has at most one selection. *)
Lemma selects_unique {A} (P : A → Prop) l h1 h2 :
  selects P l h1 → selects P l h2 → h1 = h2.
Proof.
  intros H1. revert h2. induction H1; intros h2 H2; inversion H2; subst;
    try done; f_equal; auto.
Qed.

Lemma prompt_nonempty_run p blanks line rest w :
  Forall (λ b, PyStr.strip b = EmptyString) blanks →
  PyStr.strip line ≠ EmptyString →
  stdin w = blanks ++ line :: rest →
  prompt_nonempty p w =
    (Ok (PyStr.strip line),
     World rest
       (stdout w
        ++ (blanks ≫= λ _, [Ask p; Echo "Input cannot be empty."]) ++ [Ask p])
       (disk w) (heap w) (entropy w) (drawn w)).
Proof.
  intros Hblank Hline Hin. destruct w as [ins out0 dsk hp ent dr].
  unfold prompt_nonempty, ask_until. cbn in *. subst ins.
  revert out0. induction Hblank as [|b blanks Hb _ IH]; intros out.
  - simpl. by rewrite parse_nonempty_accept.
  - simpl. rewrite parse_nonempty_reject by done.
    specialize (IH (out ++ [Ask p; Echo "Input cannot be empty."])).
    destruct (ask_loop p parse_nonempty (blanks ++ line :: rest)
                (out ++ [Ask p; Echo "Input cannot be empty."])) as [[r ls] out'].
    injection IH as -> -> ->. by rewrite <- !app_assoc.
Qed.

Lemma prompt_nonempty_eof p w :
  Forall (λ b, PyStr.strip b = EmptyString) (stdin w) →
  prompt_nonempty p w =
    (Raise EOFError,
     World []
       (stdout w
        ++ (stdin w ≫= λ _, [Ask p; Echo "Input cannot be empty."]) ++ [Ask p])
       (disk w) (heap w) (entropy w) (drawn w)).
Proof.
  intros Hblank. destruct w as [ins out0 dsk hp ent dr].
  unfold prompt_nonempty, ask_until. cbn in *.
  revert out0. induction Hblank as [|b blanks Hb _ IH]; intros out.
  - done.
  - simpl. rewrite parse_nonempty_reject by done.
    specialize (IH (out ++ [Ask p; Echo "Input cannot be empty."])).
    destruct (ask_loop p parse_nonempty blanks
                (out ++ [Ask p; Echo "Input cannot be empty."])) as [[r ls] out'].
    injection IH as -> -> ->. by rewrite <- !app_assoc.
Qed.

(** C3, as the code has it.  On an empty collection nothing is asked and
    nothing is searched: a message is printed and no line is read.  On a
    collection with cards the query is the typed line with surrounding
    whitespace removed; a line that is empty or blank is refused with a
    message and the prompt is repeated, so the query that is searched is
    never empty, and when every line is blank the input runs out with
    nothing searched.  For the first line that is not blank, with [q] its
    trimmed, lowercased text, the hits are exactly the stored cards, in
    stored order, for which [q] occurs in the lowercased front or the
    lowercased back.  The stored list and the file are left as they
    were. *)
Theorem search_cards_trimmed_query l cards w :
  heap w !! l = Some cards →
  (cards = [] →
   search_cards l w =
     (Ok [],
      World (stdin w) (stdout w ++ [Echo "No cards to search."])
        (disk w) (heap w) (entropy w) (drawn w)))
  ∧ (cards ≠ [] →
     ∀ blanks line rest,
       Forall (λ b, PyStr.strip b = EmptyString) blanks →
       PyStr.strip line ≠ EmptyString →
       stdin w = blanks ++ line :: rest →
       let q := PyStr.lower (PyStr.strip line) in
       ∃ hits w',
         search_cards l w = (Ok hits, w')
         ∧ q ≠ EmptyString
         ∧ selects (is_hit q) cards hits
         ∧ stdin w' = rest
         ∧ stdout w' =
             stdout w
             ++ (blanks ≫= λ _, [Ask "Search text: "; Echo "Input cannot be empty."])
             ++ [Ask "Search text: "] ++ search_report hits
         ∧ heap w' = heap w ∧ disk w' = disk w)
  ∧ (cards ≠ [] →
     Forall (λ b, PyStr.strip b = EmptyString) (stdin w) →
     search_cards l w =
       (Raise EOFError,
        World []
          (stdout w
           ++ (stdin w ≫= λ _, [Ask "Search text: "; Echo "Input cannot be empty."])
           ++ [Ask "Search text: "])
          (disk w) (heap w) (entropy w) (drawn w))).
Proof.
  intros Hl. split; [|split].
  - intros ->. destruct w as [ins out dsk hp ent dr]. cbn in Hl.
    unfold search_cards, bind, deref, print, emit, ret. cbn. by rewrite Hl.
  - intros Hne blanks line rest Hblank Hline Hin q.
    exists (filter (λ c, matches q c = true) cards).
    unfold search_cards, bind, deref. cbn -[filter]. rewrite Hl. cbn -[filter].
    destruct cards as [|c0 cs]; [done|].
    rewrite (prompt_nonempty_run _ blanks line rest) by done. cbn -[filter]. fold q.
    assert (Hq : q ≠ EmptyString).
    { unfold q. by destruct (PyStr.strip line). }
    assert (Hsel : selects (is_hit q) (c0 :: cs)
                     (filter (λ c, matches q c = true) (c0 :: cs))).
    { apply filter_selects, matches_is_hit. }
    destruct (filter (λ c, matches q c = true) (c0 :: cs)) as [|h hits].
    + unfold print, emit, ret. cbn -[filter]. eexists. split; [done|]. cbn -[filter].
      repeat split; try done. by rewrite <- !app_assoc.
    + unfold print, emit, ret. rewrite print_each_run. cbn -[filter].
      eexists. split; [done|]. cbn -[filter]. repeat split; try done.
      by rewrite <- !app_assoc.
  - intros Hne Hblank.
    unfold search_cards, bind, deref. cbn. rewrite Hl. cbn.
    destruct cards as [|c0 cs]; [done|].
    by rewrite prompt_nonempty_eof.
Qed.

Lemma search_cards_trimmed_query_witness :
  (∃ w',
     search_cards 0 w_query = (Ok [gato], w')
     ∧ stdin w' = ["after"]
     ∧ stdout w' =
         [Ask "Search text: "; Echo "Input cannot be empty.";
          Ask "Search text: "; Echo "Matches (1):";
          Echo "- 0f9e8d7c: gato  ->  cat"])
  ∧ search_cards 0 (world0 ["cat"] [[]] (λ _, 0%Z)) =
      (Ok [],
       World ["cat"] ([] ++ [Echo "No cards to search."]) None {[0 := []]}
         (λ _, 0%Z) 0).
Proof.
  split.
  - destruct (search_cards_trimmed_query 0 [hola; gato] w_query eq_refl)
      as (_ & Hsearch & _).
    destruct (Hsearch ltac:(done) ["   "] "  CAT " ["after"]
                ltac:(by repeat constructor) ltac:(by vm_compute) eq_refl)
      as (hits & w' & Hrun & _ & Hsel & Hin & Hout & _).
    exists w'.
    assert (Hhits : hits = [gato]).
    { assert (Heq : (search_cards 0 w_query).1 = Ok [gato]) by by vm_compute.
      rewrite Hrun in Heq. by injection Heq. }
    subst hits. repeat split; [exact Hrun | exact Hin | exact Hout].
  - destruct (search_cards_trimmed_query 0 [] (world0 ["cat"] [[]] (λ _, 0%Z))
                ltac:(by vm_compute)) as (Hempty & _).
    rewrite (Hempty eq_refl). by vm_compute.
Defined.

(** C3, counterexample.  With the cards [hola] and [gato] stored, typing an
    empty line and then [zzz] gives no hit, where the claim has the empty
    query return both cards; typing [ cat] with a leading blank gives the
    card [gato], where the claim compares the untrimmed query, which occurs
    in no field. *)
Lemma search_cards_empty_query_counterexample :
  (search_cards 0 w_empty_query).1 = Ok []
  ∧ ¬ selects (is_hit (PyStr.lower "")) [hola; gato] []
  ∧ (search_cards 0 w_spaced_query).1 = Ok [gato]
  ∧ ¬ selects (is_hit (PyStr.lower " cat")) [hola; gato] [gato].
Proof.
  split; [by vm_compute|]. split; [|split; [by vm_compute|]].
  - intros Hsel. inversion Hsel as [| |x l hits Hno _]; subst.
    apply Hno. left. by exists EmptyString, "hola".
  - intros Hsel.
    assert (Hgato : ¬ is_hit (PyStr.lower " cat") gato).
    { rewrite <- matches_is_hit. by vm_compute. }
    inversion Hsel as [| |x l hits Hno Hrest]; subst.
    inversion Hrest as [|x l hits Hyes _|x l hits _ Hnil]; subst; [done|].
    inversion Hnil.
Qed.

(** ** Shuffling *)

Lemma swap_perm x i j : swap x i j ≡ₚ x.
Proof.
  unfold swap. destruct (x !! i) as [xi|] eqn:Hi; [|done].
  destruct (x !! j) as [xj|] eqn:Hj; [|done].
  by apply Permutation_insert_swap.
Qed.

(** The shuffle draws once per position but the first, touches nothing
    else, and returns a rearrangement of its argument. *)
Lemma shuffle_loop_run i x w :
  ∃ x',
    shuffle_loop i x w =
      (Ok x', World (stdin w) (stdout w) (disk w) (heap w) (entropy w) (drawn w + i))
    ∧ x' ≡ₚ x.
Proof.
  revert x w. induction i as [|i IH]; intros x [ins out dsk hp ent dr].
  - exists x. split; [|done]. unfold shuffle_loop, ret. cbn.
    by rewrite Nat.add_0_r.
  - cbn [shuffle_loop]. unfold bind, randbelow, draw, ret. cbn.
    edestruct (IH (swap x (S i) (Z.to_nat (ent dr `mod` Z.of_nat (S (S i)))))
                 (World ins out dsk hp ent (S dr))) as (x' & Hrun & Hperm).
    cbn in Hrun. rewrite Hrun. exists x'. split.
    + do 2 f_equal. lia.
    + by rewrite Hperm, swap_perm.
Qed.

Lemma random_shuffle_run l x w :
  heap w !! l = Some x →
  ∃ x',
    random_shuffle l w =
      (Ok tt, World (stdin w) (stdout w) (disk w) (<[l := x']> (heap w))
                (entropy w) (drawn w + (length x - 1)))
    ∧ x' ≡ₚ x.
Proof.
  intros Hl. destruct w as [ins out dsk hp ent dr].
  unfold random_shuffle, bind, deref, assign. cbn in *. rewrite Hl. cbn.
  destruct (shuffle_loop_run (length x - 1) x (World ins out dsk hp ent dr))
    as (x' & -> & Hperm).
  by exists x'.
Qed.

(** ** The session loop *)

Lemma ask_until_run {A} p (parse : string → verdict A) bad line rest a w :
  Forall (rejected parse) bad → parse line = Accept a →
  stdin w = bad ++ line :: rest →
  ask_until p parse w =
    (Ok a, World rest (stdout w ++ asked p parse bad)
             (disk w) (heap w) (entropy w) (drawn w)).
Proof.
  intros Hbad Hline Hin. destruct w as [ins out0 dsk hp ent dr].
  unfold ask_until, asked. cbn in *. subst ins.
  revert out0. induction Hbad as [|b bad [msg Hb] _ IH]; intros out.
  - simpl. by rewrite Hline.
  - simpl. rewrite Hb. specialize (IH (out ++ [Ask p; Echo msg])).
    destruct (ask_loop p parse (bad ++ line :: rest) (out ++ [Ask p; Echo msg]))
      as [[r ls] out'].
    injection IH as -> -> ->. by rewrite <- !app_assoc.
Qed.

Lemma screen_acc_clear acc out tail :
  screen_acc acc (out ++ Clear :: tail) = screen_acc [] tail.
Proof.
  revert acc. induction out as [|e out IH]; intros acc; [done|].
  destruct e; simpl; apply IH.
Qed.

Lemma score_total t j :
  j ≠ Quit →
  correct (score t j) + wrong (score t j) + skipped (score t j)
  = S (correct t + wrong t + skipped t).
Proof. destruct j; simpl; intros; try done; lia. Qed.

Lemma foldl_score_total t js :
  Quit ∉ js →
  correct (foldl score t js) + wrong (foldl score t js) + skipped (foldl score t js)
  = correct t + wrong t + skipped t + length js.
Proof.
  revert t. induction js as [|j js IH]; intros t Hq; simpl; [lia|].
  rewrite IH by (intros Hin; apply Hq; by right).
  rewrite score_total by (intros ->; apply Hq; left). lia.
Qed.

Arguments ask_until : simpl never.
Arguments dashes : simpl never.
Arguments card_header : simpl never.
Arguments asked : simpl never.
Arguments quit_report : simpl never.
Arguments done_report : simpl never.

(** One card answered: the loop moves on to the next card with the counter
    of the judgment raised. *)
Lemma learn_loop_step col total idx c cards t seen w r j rest :
  judged j r → j ≠ Quit → stdin w = typed r ++ rest →
  learn_loop col total idx (c :: cards) t seen w =
    learn_loop col total (S idx) cards (score t j) (seen ++ [c])
      (World rest (stdout w ++ card_shown col total idx c r)
         (disk w) (heap w) (entropy w) (drawn w)).
Proof.
  intros [Hbad Hans] Hj Hin. destruct w as [ins out dsk hp ent dr].
  simpl in Hin. subst ins.
  cbn [learn_loop]. unfold bind, clear, print, emit, input. cbn.
  erewrite (ask_until_run "Got it? (y/n/skip/q): " parse_judgment
              (refused r) (answer r) rest j); [|done|done|].
  2:{ cbn. by rewrite <- app_assoc. }
  cbn. unfold card_shown. rewrite <- !app_assoc. cbn.
  by destruct j.
Qed.

(** Several cards answered in a row. *)
Lemma learn_loop_replies col total js replies :
  Forall2 judged js replies → Quit ∉ js →
  ∀ shown cards idx t seen w rest,
    length shown = length js →
    stdin w = (replies ≫= typed) ++ rest →
    learn_loop col total idx (shown ++ cards) t seen w =
      learn_loop col total (idx + length shown) cards (foldl score t js)
        (seen ++ shown)
        (World rest (stdout w ++ cards_shown col total idx shown replies)
           (disk w) (heap w) (entropy w) (drawn w)).
Proof.
  induction 1 as [|j r js replies Hj _ IH];
    intros Hq shown cards idx t seen w rest Hlen Hin.
  - destruct shown; [|done]. destruct w as [ins out dsk hp ent dr].
    cbn in *. subst ins. by rewrite Nat.add_0_r, !app_nil_r.
  - destruct shown as [|c shown]; [done|]. simpl in Hlen.
    assert (Hjq : j ≠ Quit) by (intros ->; apply Hq; left).
    assert (Hq' : Quit ∉ js) by (intros H'; apply Hq; by right).
    cbn [app].
    rewrite (learn_loop_step col total idx c (shown ++ cards) t seen w r j
               ((replies ≫= typed) ++ rest) Hj Hjq).
    2:{ rewrite Hin. cbn. by rewrite <- !app_assoc. }
    rewrite (IH Hq' shown cards (S idx) (score t j) (seen ++ [c]) _ rest);
      [|lia|done].
    cbn. rewrite <- !app_assoc. cbn. do 2 f_equal. lia.
Qed.

(** A card answered with a quit: the screen is cleared, the three counters
    are printed as they stand, and the loop is left at once. *)
Lemma learn_loop_quit col total idx c cards t seen w r rest :
  judged Quit r → stdin w = typed r ++ rest →
  learn_loop col total idx (c :: cards) t seen w =
    (Ok (Session TerminatedEarly t (seen ++ [c])),
     World rest (stdout w ++ card_shown col total idx c r ++ Clear :: quit_report t)
       (disk w) (heap w) (entropy w) (drawn w)).
Proof.
  intros [Hbad Hans] Hin. destruct w as [ins out dsk hp ent dr].
  simpl in Hin. subst ins.
  cbn [learn_loop]. unfold bind, clear, print, emit, input. cbn.
  erewrite (ask_until_run "Got it? (y/n/skip/q): " parse_judgment
              (refused r) (answer r) rest Quit); [|done|done|].
  2:{ cbn. by rewrite <- app_assoc. }
  cbn. unfold card_shown, quit_report, ret. by rewrite <- !app_assoc.
Qed.

(** Whatever is typed, the loop changes neither the file, nor a list
    object, nor the random source; when it returns, it has shown the first
    cards of its list, one after the other, and all of them if it was not
    left by a quit. *)
Lemma learn_loop_safe col total cards :
  ∀ idx t seen w,
    disk (learn_loop col total idx cards t seen w).2 = disk w
    ∧ heap (learn_loop col total idx cards t seen w).2 = heap w
    ∧ entropy (learn_loop col total idx cards t seen w).2 = entropy w
    ∧ drawn (learn_loop col total idx cards t seen w).2 = drawn w
    ∧ ∀ s, (learn_loop col total idx cards t seen w).1 = Ok s →
        ∃ k, k ≤ length cards
             ∧ visited s = seen ++ take k cards
             ∧ (outcome s = Completed → k = length cards)
             ∧ (outcome s = TerminatedEarly → 0 < k).
Proof.
  induction cards as [|c cards IH]; intros idx t seen w.
  - cbn. repeat split; try done. intros s [= <-]. exists 0. cbn.
    rewrite app_nil_r. repeat split; try done.
  - destruct w as [ins out dsk hp ent dr].
    cbn [learn_loop]. unfold bind, clear, print, emit, input. cbn.
    destruct ins as [|rv ins]; [done|]. cbn. unfold ask_until.
    match goal with
    | |- context [ask_loop ?p ?f ?ls ?o] =>
        destruct (ask_loop p f ls o) as [[[j|e] ls'] out'] eqn:Hask
    end; [|done].
    assert (Hnext : ∀ t',
      let w1 := World ls' out' dsk hp ent dr in
      disk (learn_loop col total (S idx) cards t' (seen ++ [c]) w1).2 = dsk
      ∧ heap (learn_loop col total (S idx) cards t' (seen ++ [c]) w1).2 = hp
      ∧ entropy (learn_loop col total (S idx) cards t' (seen ++ [c]) w1).2 = ent
      ∧ drawn (learn_loop col total (S idx) cards t' (seen ++ [c]) w1).2 = dr
      ∧ ∀ s, (learn_loop col total (S idx) cards t' (seen ++ [c]) w1).1 = Ok s →
          ∃ k, k ≤ length (c :: cards)
               ∧ visited s = seen ++ take k (c :: cards)
               ∧ (outcome s = Completed → k = length (c :: cards))
               ∧ (outcome s = TerminatedEarly → 0 < k)).
    { intros t' w1.
      destruct (IH (S idx) t' (seen ++ [c]) w1) as (Hd & Hh & He & Hr & Hs).
      repeat split; try done. intros s Hok.
      destruct (Hs s Hok) as (k & Hk & Hv & Hc & _).
      exists (S k). cbn. rewrite Hv, <- app_assoc. cbn.
      repeat split; [lia | intros Ho; by rewrite Hc | lia]. }
    destruct j; cbn; try apply Hnext.
    repeat split; try done. intros s [= <-]. exists 1. cbn.
    rewrite take_0. repeat split; try done; lia.
Qed.

(** ** Learn mode *)

Arguments learn_loop : simpl never.
Arguments card_shown : simpl never.
Arguments cards_shown : simpl never.
Arguments random_shuffle : simpl never.

(** The start of [learn_mode], up to the loop: the stored list is copied
    into a new list object, the order is asked for, and only the copy is
    shuffled, once, when the answer is 2. *)
Lemma learn_mode_start data col l snap w rejects choice o lines :
  data !! col = Some l → heap w !! l = Some snap → snap ≠ [] →
  Forall (rejected (parse_int 1 2)) rejects → parse_int 1 2 choice = Accept o →
  stdin w = rejects ++ choice :: lines →
  ∃ order,
    order ≡ₚ snap ∧ (o ≠ 2 → order = snap)
    ∧ learn_mode data col w =
        learn_end
          (learn_loop col (length order) 1 order (Tally 0 0 0) []
             (World lines
                (stdout w
                 ++ [Echo "Learn mode:"; Echo "  1) In order"; Echo "  2) Random"]
                 ++ asked "Choose: " (parse_int 1 2) rejects)
                (disk w) (<[fresh (dom (heap w)) := order]> (heap w)) (entropy w)
                (drawn w + (if o =? 2 then length snap - 1 else 0)))).
Proof.
  intros Hcol Hl Hne Hrej Hchoice Hin.
  destruct w as [ins out dsk hp ent dr]. cbn in *. subst ins.
  unfold learn_mode, get_cards. rewrite Hcol.
  unfold bind at 1, ret at 1. unfold bind at 1, deref at 1. cbn. rewrite Hl. cbn.
  unfold bind at 1, alloc. cbn.
  unfold bind at 1, deref at 1. cbn. rewrite lookup_insert_eq. cbn.
  destruct snap as [|c0 cs] eqn:Hsnap; [done|]. rewrite <- Hsnap in *.
  unfold bind at 1 2 3, print, emit. cbn.
  unfold bind at 1, prompt_int.
  erewrite (ask_until_run "Choose: " (parse_int 1 2) rejects choice lines o);
    [|done|done|done].
  cbn. rewrite <- !app_assoc. cbn.
  destruct (o =? 2) eqn:Ho.
  - edestruct (random_shuffle_run (fresh (dom hp)) snap
                 (World lines
                    (out ++ Echo "Learn mode:" :: Echo "  1) In order"
                         :: Echo "  2) Random"
                         :: asked "Choose: " (parse_int 1 2) rejects)
                    dsk (<[fresh (dom hp) := snap]> hp) ent dr))
      as (order & Hrun & Hperm); [apply lookup_insert_eq|].
    exists order. split; [done|]. split; [by apply Nat.eqb_eq in Ho|].
    unfold bind at 1. cbn in Hrun. rewrite Hrun. cbn.
    unfold bind at 1, deref. cbn. rewrite lookup_insert_eq, insert_insert_eq. cbn.
    unfold bind at 1.
    destruct (learn_loop _ _ _ _ _ _ _) as [[s|e] [ins' out' dsk' hp' ent' dr']];
      [|done].
    cbn. destruct (outcome s); [|done].
    unfold bind, clear, print, emit, ret, done_report. cbn.
    by rewrite <- !app_assoc.
  - exists snap. split; [done|]. split; [done|].
    unfold bind at 1, ret at 1. cbn.
    unfold bind at 1, deref. cbn. rewrite lookup_insert_eq. cbn.
    rewrite Nat.add_0_r. unfold bind at 1.
    destruct (learn_loop _ _ _ _ _ _ _) as [[s|e] [ins' out' dsk' hp' ent' dr']];
      [|done].
    cbn. destruct (outcome s); [|done].
    unfold bind, clear, print, emit, ret, done_report. cbn.
    by rewrite <- !app_assoc.
Qed.

Lemma learn_end_ok r s w' :
  learn_end r = (Ok (Some s), w') →
  ∃ w1, r = (Ok s, w1) ∧ stdin w' = stdin w1 ∧ disk w' = disk w1
        ∧ heap w' = heap w1 ∧ drawn w' = drawn w1.
Proof.
  destruct r as [[s0|e] [ins out dsk hp ent dr]]; [|done]. cbn.
  destruct (outcome s0); intros [= -> <-]; by eexists.
Qed.

Lemma learn_end_frame r :
  disk (learn_end r).2 = disk r.2 ∧ heap (learn_end r).2 = heap r.2
  ∧ drawn (learn_end r).2 = drawn r.2.
Proof.
  destruct r as [[s0|e] [ins out dsk hp ent dr]]; [|done]. cbn.
  by destruct (outcome s0).
Qed.

(** C1.  A session on a non-empty collection for which the order prompt
    was answered with 2.  There is one order of the session, a rearrangement
    of the stored cards, fixed before the first card is shown: the random
    source is used [N - 1] times in the whole session, whatever is typed.
    The cards shown are always the first cards of that order, each position
    once; a session that is not left by a quit shows the whole order, so each
    of the N cards exactly once, and N judgments that are not a quit always
    give such a session.  No list object that existed before is changed, so
    the stored order is what it was; the file is not touched. *)
Theorem learn_random_visits_each_once data col l snap w rejects choice lines :
  data !! col = Some l → heap w !! l = Some snap → snap ≠ [] →
  Forall (rejected (parse_int 1 2)) rejects → parse_int 1 2 choice = Accept 2 →
  stdin w = rejects ++ choice :: lines →
  ∃ order,
    order ≡ₚ snap
    ∧ (∀ r w', learn_mode data col w = (r, w') →
         drawn w' = drawn w + (length snap - 1)
         ∧ disk w' = disk w
         ∧ heap w' !! l = Some snap
         ∧ (∀ l', is_Some (heap w !! l') → heap w' !! l' = heap w !! l')
         ∧ ∀ s, r = Ok (Some s) →
             visited s `prefix_of` order
             ∧ (outcome s = Completed → visited s = order ∧ visited s ≡ₚ snap))
    ∧ (∀ js replies rest,
         Forall2 judged js replies → Quit ∉ js → length js = length snap →
         lines = (replies ≫= typed) ++ rest →
         ∃ s w',
           learn_mode data col w = (Ok (Some s), w')
           ∧ outcome s = Completed
           ∧ visited s = order ∧ visited s ≡ₚ snap
           ∧ counts s = tally_of js
           ∧ stdin w' = rest
           ∧ stdout w' =
               stdout w ++ order_menu rejects
               ++ cards_shown col (length order) 1 order replies
               ++ Clear :: done_report (counts s)).
Proof.
  intros Hcol Hl Hne Hrej Hchoice Hin.
  destruct (learn_mode_start data col l snap w rejects choice 2 lines)
    as (order & Hperm & _ & Hstart); try done.
  exists order. split; [done|]. cbn in Hstart. split.
  - intros r w' Hrun. rewrite Hstart in Hrun.
    match type of Hrun with learn_end (learn_loop ?c ?n ?i ?o ?t ?s ?w1) = _ =>
      destruct (learn_loop_safe c n o i t s w1) as (Hd & Hh & _ & Hdr & Hvis);
      destruct (learn_end_frame (learn_loop c n i o t s w1)) as (Hd' & Hh' & Hdr')
    end.
    rewrite Hrun in Hd', Hh', Hdr'. cbn in Hd', Hh', Hdr'.
    rewrite Hd in Hd'. rewrite Hh in Hh'. rewrite Hdr in Hdr'. cbn in Hd', Hh', Hdr'.
    assert (Hold : ∀ l', is_Some (heap w !! l') → heap w' !! l' = heap w !! l').
    { intros l' Hsome. rewrite Hh'. apply lookup_insert_ne. intros <-.
      assert (Hfresh : heap w !! fresh (dom (heap w)) = None)
        by apply not_elem_of_dom, is_fresh.
      rewrite Hfresh in Hsome. by destruct Hsome. }
    split; [done|]. split; [done|].
    split; [by rewrite Hold by (by rewrite Hl)|]. split; [done|].
    intros s ->. apply learn_end_ok in Hrun as (w1 & Heq & _).
    rewrite Heq in Hvis.
    destruct (Hvis s eq_refl) as (k & _ & Hv & Hk & _). cbn in Hv. split.
    + rewrite Hv. apply prefix_take.
    + intros Ho. rewrite Hv, (Hk Ho), firstn_all. done.
  - intros js replies rest Hjs Hq Hlen ->. rewrite Hstart.
    match goal with |- context [learn_loop _ _ _ _ _ _ ?w1] =>
      pose proof (learn_loop_replies col (length order) js replies Hjs Hq
                    order [] 1 (Tally 0 0 0) [] w1 rest) as Hrep
    end.
    rewrite app_nil_r in Hrep. rewrite Hrep; [|by rewrite Hperm|done].
    unfold learn_loop. cbn. eexists _, _. split; [done|]. cbn.
    split_and!; try done. unfold order_menu. by rewrite <- !app_assoc.
Qed.

Lemma learn_random_visits_each_once_witness :
  ∃ s w',
    learn_mode spanish "Spanish" w_full3 = (Ok (Some s), w')
    ∧ outcome s = Completed
    ∧ visited s ≡ₚ [hola; gato; perro]
    ∧ counts s = Tally 1 1 1
    ∧ stdin w' = ["after"]
    ∧ heap w' !! 0 = Some [hola; gato; perro]
    ∧ drawn w' = 2.
Proof.
  destruct (learn_random_visits_each_once spanish "Spanish" 0 [hola; gato; perro]
              w_full3 ["x"] " 2 "
              [""; "Y"; ""; "maybe"; "no"; ""; "skip"; "after"]
              eq_refl eq_refl ltac:(done)
              ltac:(repeat constructor; by eexists) eq_refl eq_refl)
    as (order & Hperm & Hsafe & Hlive).
  destruct (Hlive [Correct; Wrong; Skipped]
              [Reply "" [] "Y"; Reply "" ["maybe"] "no"; Reply "" [] "skip"]
              ["after"])
    as (s & w' & Hrun & Hout & Hvis & Hvperm & Hcounts & Hin & _).
  - repeat constructor. by eexists.
  - intros Hq. repeat (apply elem_of_cons in Hq as [Hq|Hq]; [done|]).
    by apply elem_of_nil in Hq.
  - done.
  - done.
  - destruct (Hsafe _ _ Hrun) as (Hdrawn & _ & Hstored & _).
    exists s, w'. repeat split; [exact Hrun | exact Hout | exact Hvperm
                                | exact Hcounts | exact Hin | exact Hstored
                                | exact Hdrawn].
Defined.

(** C2, as the code has it.  A quit typed for a card ends the session at
    once: the cards shown are the cards judged so far and the card the quit
    was typed for, no later card is shown and no further line is read.  The
    end states show three tallies, and only these: the counts of cards
    judged correct, wrong and skipped before the end (the card a quit was
    typed for counts in none), under [Session ended early.] after a quit
    and under [Done!] after the last card. *)
Theorem learn_quit_ends_session data col l snap w rejects choice o lines :
  data !! col = Some l → heap w !! l = Some snap → snap ≠ [] →
  Forall (rejected (parse_int 1 2)) rejects → parse_int 1 2 choice = Accept o →
  stdin w = rejects ++ choice :: lines →
  ∃ order,
    order ≡ₚ snap ∧ (o ≠ 2 → order = snap)
    ∧ (∀ js replies r rest,
         Forall2 judged js replies → Quit ∉ js → length js < length snap →
         judged Quit r →
         lines = (replies ≫= typed) ++ typed r ++ rest →
         ∃ s w' c,
           learn_mode data col w = (Ok (Some s), w')
           ∧ outcome s = TerminatedEarly
           ∧ visited s = take (S (length js)) order
           ∧ counts s = tally_of js
           ∧ correct (counts s) + wrong (counts s) + skipped (counts s) = length js
           ∧ stdin w' = rest
           ∧ screen w' = quit_report (counts s)
           ∧ order !! length js = Some c
           ∧ stdout w' =
               stdout w ++ order_menu rejects
               ++ cards_shown col (length order) 1 (take (length js) order) replies
               ++ card_shown col (length order) (S (length js)) c r
               ++ Clear :: quit_report (counts s))
    ∧ (∀ js replies rest,
         Forall2 judged js replies → Quit ∉ js → length js = length snap →
         lines = (replies ≫= typed) ++ rest →
         ∃ s w',
           learn_mode data col w = (Ok (Some s), w')
           ∧ outcome s = Completed
           ∧ visited s = order
           ∧ counts s = tally_of js
           ∧ correct (counts s) + wrong (counts s) + skipped (counts s) = length snap
           ∧ stdin w' = rest
           ∧ screen w' = done_report (counts s)
           ∧ stdout w' =
               stdout w ++ order_menu rejects
               ++ cards_shown col (length order) 1 order replies
               ++ Clear :: done_report (counts s)).
Proof.
  intros Hcol Hl Hne Hrej Hchoice Hin.
  destruct (learn_mode_start data col l snap w rejects choice o lines)
    as (order & Hperm & Hseq & Hstart); try done.
  exists order. split; [done|]. split; [done|]. split.
  - intros js replies r rest Hjs Hq Hlen Hr ->. rewrite Hstart.
    assert (Hlen' : length js < length order) by by rewrite Hperm.
    destruct (drop (length js) order) as [|c cards] eqn:Hdrop.
    { apply (f_equal length) in Hdrop. rewrite length_drop in Hdrop.
      simpl in Hdrop. lia. }
    assert (Hc : order !! length js = Some c).
    { rewrite <- (Nat.add_0_r (length js)), <- lookup_drop. by rewrite Hdrop. }
    match goal with |- context [learn_loop _ _ _ _ _ _ ?w1] =>
      pose proof (learn_loop_replies col (length order) js replies Hjs Hq
                    (take (length js) order) (drop (length js) order) 1
                    (Tally 0 0 0) [] w1 (typed r ++ rest)) as Hrep
    end.
    rewrite take_drop in Hrep.
    rewrite Hrep; [|rewrite length_take; lia|done]. rewrite Hdrop.
    rewrite length_take_le by lia.
    erewrite (learn_loop_quit col (length order) _ c cards _ _ _ r rest);
      [|exact Hr|reflexivity].
    cbn. eexists _, _, c. split; [done|]. cbn.
    split; [done|]. split; [by rewrite (take_S_r order (length js) c)|].
    split; [done|]. split.
    { unfold tally_of. rewrite foldl_score_total by done. simpl. lia. }
    split; [done|]. split.
    { unfold screen. cbn. rewrite ?app_assoc. rewrite screen_acc_clear.
      reflexivity. }
    split; [done|]. unfold order_menu. by rewrite <- !app_assoc.
  - intros js replies rest Hjs Hq Hlen ->. rewrite Hstart.
    match goal with |- context [learn_loop _ _ _ _ _ _ ?w1] =>
      pose proof (learn_loop_replies col (length order) js replies Hjs Hq
                    order [] 1 (Tally 0 0 0) [] w1 rest) as Hrep
    end.
    rewrite app_nil_r in Hrep. rewrite Hrep; [|by rewrite Hperm|done].
    unfold learn_loop. cbn. eexists _, _. split; [done|]. cbn.
    split; [done|]. split; [done|]. split; [done|]. split.
    { unfold tally_of. rewrite foldl_score_total by done. simpl. lia. }
    split; [done|]. split.
    { unfold screen. cbn. rewrite ?app_assoc. rewrite screen_acc_clear.
      reflexivity. }
    unfold order_menu. by rewrite <- !app_assoc.
Qed.

Lemma learn_quit_ends_session_witness :
  ∃ s w',
    learn_mode spanish "Spanish" w_quit_seq = (Ok (Some s), w')
    ∧ outcome s = TerminatedEarly
    ∧ visited s = [hola; gato]
    ∧ counts s = Tally 1 0 0
    ∧ stdin w' = ["after"]
    ∧ screen w' = [Echo "Session ended early.";
                   Echo "Correct: 1, Wrong: 0, Skipped: 0"].
Proof.
  destruct (learn_quit_ends_session spanish "Spanish" 0 [hola; gato; perro]
              w_quit_seq [] "1" 1 [""; "y"; ""; "q"; "after"]
              eq_refl eq_refl ltac:(done) ltac:(constructor) eq_refl eq_refl)
    as (order & _ & Hseq & Hquit & _).
  destruct (Hquit [Correct] [Reply "" [] "y"] (Reply "" [] "q") ["after"])
    as (s & w' & c & Hrun & Hout & Hvis & Hcounts & _ & Hin & Hscreen & _).
  - repeat constructor.
  - intros Hq. apply elem_of_cons in Hq as [Hq|Hq]; [done|].
    by apply elem_of_nil in Hq.
  - cbn. lia.
  - by repeat constructor.
  - done.
  - rewrite (Hseq ltac:(lia)) in Hvis. rewrite Hcounts in Hscreen.
    exists s, w'. repeat split; [exact Hrun | exact Hout | exact Hvis
                                | exact Hcounts | exact Hin | exact Hscreen].
Defined.

(** C2, counterexample.  The same lines (one card judged correct, then a
    quit) typed on a collection of three cards and on a collection of two
    leave the same screen, made of the end message and the three counters.
    Nothing that reads the end screen can tell the number of cards, so the
    end state does not show a [total_cards]; and no figure 2 for the cards
    seen is shown, the counters add up to 1. *)
Lemma learn_quit_report_counterexample :
  screen (learn_mode spanish "Spanish" w_quit3).2 =
    [Echo "Session ended early."; Echo "Correct: 1, Wrong: 0, Skipped: 0"]
  ∧ screen (learn_mode spanish "Spanish" w_quit2).2 =
      [Echo "Session ended early."; Echo "Correct: 1, Wrong: 0, Skipped: 0"]
  ∧ heap w_quit3 !! 0 = Some [hola; gato; perro]
  ∧ heap w_quit2 !! 0 = Some [hola; gato]
  ∧ ¬ ∃ total_cards : list event → nat,
        total_cards (screen (learn_mode spanish "Spanish" w_quit3).2) = 3
        ∧ total_cards (screen (learn_mode spanish "Spanish" w_quit2).2) = 2.
Proof.
  assert (H3 : screen (learn_mode spanish "Spanish" w_quit3).2 =
                 [Echo "Session ended early.";
                  Echo "Correct: 1, Wrong: 0, Skipped: 0"]) by by vm_compute.
  assert (H2 : screen (learn_mode spanish "Spanish" w_quit2).2 =
                 [Echo "Session ended early.";
                  Echo "Correct: 1, Wrong: 0, Skipped: 0"]) by by vm_compute.
  repeat split; try done.
  intros (total_cards & Ht3 & Ht2). rewrite H3 in Ht3. rewrite H2 in Ht2.
  congruence.
Qed.

(** ** Tidy text *)

Lemma ask_loop_accept_inv {A} p (parse : string → verdict A) lines out a ls out' :
  ask_loop p parse lines out = (Ok a, ls, out') → ∃ l, parse l = Accept a.
Proof.
  revert out. induction lines as [|l lines IH]; intros out; simpl; [done|].
  destruct (parse l) eqn:Hl; [|apply IH|done].
  intros [= <- _ _]. by exists l.
Qed.

Lemma parse_nonempty_tidy l a : parse_nonempty l = Accept a → tidy a.
Proof.
  unfold parse_nonempty. destruct (PyStr.truthy (PyStr.strip l)) eqn:Ht; [|done].
  intros [= <-]. apply strip_tidy. by destruct (PyStr.strip l).
Qed.

Lemma prompt_nonempty_tidy p lines out a ls out' :
  ask_loop p parse_nonempty lines out = (Ok a, ls, out') → tidy a.
Proof. intros [l Hl]%ask_loop_accept_inv. by eapply parse_nonempty_tidy. Qed.

Lemma save_data_heap `{JsonCodec} data w : heap (save_data data w).2 = heap w.
Proof.
  destruct w as [ins out dsk hp ent dr].
  unfold save_data, save_doc, bind, get_heap, get_disk, set_disk, raise. cbn.
  by destruct dsk as [[]|].
Qed.

Lemma tidy_heap_insert h l cs :
  tidy_heap h → (∀ c, c ∈ cs → tidy_card c) → tidy_heap (<[l := cs]> h).
Proof.
  intros Hh Hcs l' cs' c. rewrite lookup_insert. case_decide.
  - intros [= <-]. apply Hcs.
  - apply (Hh l' cs' c).
Qed.

Lemma tidy_heap_default h l c :
  tidy_heap h → c ∈ default [] (h !! l) → tidy_card c.
Proof.
  intros Hh. destruct (h !! l) as [cs|] eqn:Hl; simpl.
  - apply (Hh l cs c Hl).
  - by intros ?%elem_of_nil.
Qed.

(** Destructs the outcome of every prompt loop in the goal. *)
Ltac ask_cases :=
  repeat match goal with
    | |- context [ask_loop ?p ?f ?ls ?o] =>
        let H := fresh "Hask" in
        destruct (ask_loop p f ls o) as [[[?|?] ?] ?] eqn:H; cbn
    end.

(** Destructs the outcome of the save in the goal, keeping that it leaves
    the list objects alone. *)
Ltac save_cases :=
  match goal with
  | |- context [save_data ?d ?w] =>
      let Hh := fresh "Hsaved" in
      pose proof (save_data_heap d w) as Hh;
      destruct (save_data d w) as [[[]|?] [? ? ? ? ? ?]]; cbn in Hh; subst; cbn
  end.

(** What [add_card] does to the list objects, whatever is typed: nothing,
    or one tidy card appended to the list of the collection. *)
Lemma add_card_heap `{JsonCodec} data col w :
  heap (add_card data col w).2 = heap w
  ∨ ∃ l c,
      data !! col = Some l ∧ tidy_card c
      ∧ heap (add_card data col w).2
        = <[l := default [] (heap w !! l) ++ [c]]> (heap w).
Proof.
  destruct w as [ins out dsk hp ent dr]. unfold add_card. run. ask_cases.
  all: try by left.
  destruct (data !! col) as [lc|] eqn:Hcol; cbn; [|by left].
  right. exists lc. eexists (Card _ _ _). split; [done|].
  apply and_comm. split; [by save_cases|].
  split; cbn; by eapply prompt_nonempty_tidy.
Qed.

Lemma find_card_from_lookup k cards cid i c :
  find_card_from k cards cid = Some (i, c) →
  ∃ j, i = k + j ∧ cards !! j = Some c.
Proof.
  revert k. induction cards as [|a cards IH]; intros k; simpl; [done|].
  destruct (String.eqb (id a) cid).
  - intros [= <- <-]. exists 0. split; [lia | done].
  - intros (j & -> & Hj)%IH. exists (S j). split; [lia | done].
Qed.

Lemma find_card_lookup cards cid i c :
  find_card cards cid = Some (i, c) → cards !! i = Some c.
Proof. intros (j & -> & Hj)%find_card_from_lookup. done. Qed.

Lemma list_remove_subset c cards x : x ∈ list_remove c cards → x ∈ cards.
Proof.
  induction cards as [|a cards IH]; [done|].
  unfold list_remove. fold list_remove. case_decide.
  - by right.
  - intros [->|Hx]%elem_of_cons; [left | right; by apply IH].
Qed.

Lemma truthy_strip_tidy s : PyStr.truthy (PyStr.strip s) = true → tidy (PyStr.strip s).
Proof. intros Ht. apply strip_tidy. by destruct (PyStr.strip s). Qed.

(** What [edit_card] does to the list objects, whatever is typed: nothing,
    or one card of the collection replaced, at its place, by a card with the
    same id whose front and back are each the old text or a tidy text. *)
Lemma edit_card_heap `{JsonCodec} data col w :
  heap (edit_card data col w).2 = heap w
  ∨ ∃ l cards i c c',
      data !! col = Some l ∧ heap w !! l = Some cards ∧ cards !! i = Some c
      ∧ heap (edit_card data col w).2 = <[l := <[i := c']> cards]> (heap w)
      ∧ id c' = id c
      ∧ (front c' = front c ∨ tidy (front c'))
      ∧ (back c' = back c ∨ tidy (back c')).
Proof.
  destruct w as [ins out dsk hp ent dr]. unfold edit_card. run.
  destruct (data !! col) as [lc|] eqn:Hcol; cbn; [|by left].
  destruct (hp !! lc) as [cards|] eqn:Hlc; cbn; [|by left].
  destruct cards as [|c0 cs]; cbn; [by left|].
  rewrite list_cards_run. cbn. ask_cases; [|by left].
  destruct (find_card (c0 :: cs) a) as [[i c]|] eqn:Hfind; cbn; [|by left].
  destruct l as [|line1 l]; cbn; [by left|].
  destruct l as [|line2 l]; cbn; [by left|].
  right. exists lc, (c0 :: cs), i, c. eexists.
  split; [done|]. split; [done|]. split; [by eapply find_card_lookup|].
  split; [by save_cases|].
  destruct (PyStr.truthy (PyStr.strip (PyStr.rstrip_newline line1))) eqn:H1;
    destruct (PyStr.truthy (PyStr.strip (PyStr.rstrip_newline line2))) eqn:H2;
    cbn; repeat split; auto using truthy_strip_tidy.
Qed.

(** What [delete_card] does to the list objects: nothing, or one card
    removed from the list of the collection. *)
Lemma delete_card_heap `{JsonCodec} data col w :
  heap (delete_card data col w).2 = heap w
  ∨ ∃ l cards c,
      data !! col = Some l ∧ heap w !! l = Some cards
      ∧ heap (delete_card data col w).2 = <[l := list_remove c cards]> (heap w).
Proof.
  destruct w as [ins out dsk hp ent dr]. unfold delete_card. run.
  destruct (data !! col) as [lc|] eqn:Hcol; cbn; [|by left].
  destruct (hp !! lc) as [cards|] eqn:Hlc; cbn; [|by left].
  destruct cards as [|c0 cs]; cbn; [by left|].
  rewrite list_cards_run. cbn. ask_cases; [|by left].
  destruct (find_card (c0 :: cs) a) as [[i c]|] eqn:Hfind; cbn; [|by left].
  ask_cases; [|by left].
  match goal with yes : bool |- _ => destruct yes end; cbn; [|by left].
  right. exists lc, (c0 :: cs), c. split; [done|]. split; [done|].
  by save_cases.
Qed.

(** What [create_collection] does to the list objects: nothing, or one new
    empty list. *)
Lemma create_collection_heap `{JsonCodec} data w :
  heap (create_collection data w).2 = heap w
  ∨ heap (create_collection data w).2 = <[fresh (dom (heap w)) := []]> (heap w).
Proof.
  destruct w as [ins out dsk hp ent dr]. unfold create_collection. run.
  ask_cases; [|by left].
  destruct (data !! a); cbn; [by left|]. right. by save_cases.
Qed.

Lemma print_items_run i items w :
  ∃ more,
    print_items i items w =
      (Ok tt, World (stdin w) (stdout w ++ more) (disk w) (heap w)
                (entropy w) (drawn w)).
Proof.
  revert i w. induction items as [|name items IH]; intros i [ins out dsk hp ent dr].
  - exists []. cbn. unfold ret. by rewrite app_nil_r.
  - cbn. unfold bind, print, emit.
    destruct (IH (S i) (World ins (out ++ [Echo ("  " +:+ PyStr.str_nat i +:+ ") "
                                                 +:+ name)]) dsk hp ent dr))
      as [more ->].
    cbn. eexists. by rewrite <- app_assoc.
Qed.

Arguments print_items : simpl never.
Arguments list_collections : simpl never.

(** [delete_collection] changes no list object: it only drops a name. *)
Lemma delete_collection_heap `{JsonCodec} data w :
  heap (delete_collection data w).2 = heap w.
Proof.
  destruct w as [ins out dsk hp ent dr].
  unfold delete_collection, select_from_list.
  destruct (list_collections data) as [|n0 names]; [done|].
  run.
  match goal with |- context [print_items ?i ?items ?w1] =>
    destruct (print_items_run i items w1) as [more ->]
  end.
  cbn. ask_cases; [|done].
  match goal with |- context [?o =? 0] => destruct (o =? 0) end; [done|].
  destruct (_ !! _) as [name|]; cbn; [|done].
  destruct (PyStr.truthy name); cbn; [|done].
  ask_cases; [|done].
  match goal with yes : bool |- _ => destruct yes end; cbn; [|done].
  destruct (data !! name); cbn; [|done].
  by save_cases.
Qed.

(** [search_cards] changes no list object. *)
Lemma search_cards_heap l w : heap (search_cards l w).2 = heap w.
Proof.
  destruct w as [ins out dsk hp ent dr].
  unfold search_cards, bind, deref, print, emit, ret. cbn.
  destruct (default [] (hp !! l)) as [|c0 cs] eqn:Hcards; [done|].
  unfold prompt_nonempty, ask_until. cbn -[filter].
  destruct (ask_loop _ _ _ _) as [[[q|e] ls] out'] eqn:Hask; cbn -[filter];
    [|done].
  destruct (filter _ _); [done|].
  rewrite print_each_run. done.
Qed.

(** Destructs the outcome of the session loop in the goal, keeping that it
    leaves the list objects alone. *)
Ltac loop_cases :=
  match goal with
  | |- context [learn_loop ?c ?n ?i ?o ?t ?s ?w] =>
      let Hh := fresh "Hloop" in
      destruct (learn_loop_safe c n o i t s w) as (_ & Hh & _);
      destruct (learn_loop c n i o t s w) as [[?|?] [? ? ? ? ? ?]];
      cbn in Hh; subst; cbn
  end.

(** What [learn_mode] does to the list objects, whatever is typed: nothing,
    or one new list that holds the cards of the collection in some order.
    No list that existed is written to. *)
Lemma learn_mode_heap data col w :
  heap (learn_mode data col w).2 = heap w
  ∨ ∃ l order,
      data !! col = Some l ∧ order ≡ₚ default [] (heap w !! l)
      ∧ heap (learn_mode data col w).2
        = <[fresh (dom (heap w)) := order]> (heap w).
Proof.
  destruct w as [ins out dsk hp ent dr]. unfold learn_mode. run.
  destruct (data !! col) as [lc|] eqn:Hcol; cbn; [|by left].
  right. exists lc.
  generalize (default [] (hp !! lc)). intros cards.
  rewrite lookup_insert_eq. cbn.
  destruct cards as [|c0 cs] eqn:Hcards; cbn.
  { by exists []. }
  rewrite <- Hcards. ask_cases; [|by exists cards].
  match goal with |- context [?o =? 2] => destruct (o =? 2) end.
  - match goal with |- context [random_shuffle ?lf ?w1] =>
      destruct (random_shuffle_run lf cards w1) as (order & Hrun & Hperm);
        [apply lookup_insert_eq|]
    end.
    cbn in Hrun. rewrite Hrun. cbn. rewrite lookup_insert_eq, insert_insert_eq.
    cbn. exists order. split; [done|]. split; [done|].
    loop_cases; [|done]. by destruct (outcome _).
  - cbn. rewrite lookup_insert_eq. cbn.
    exists cards. split; [done|]. split; [done|].
    loop_cases; [|done]. by destruct (outcome _).
Qed.

Lemma elem_of_insert_inv {A} (l : list A) i y x :
  x ∈ <[i := y]> l → x = y ∨ x ∈ l.
Proof.
  intros (j & Hj)%list_elem_of_lookup.
  destruct (decide (i = j)) as [<-|Hne].
  - destruct (decide (i < length l)) as [Hlt|Hge].
    + rewrite list_lookup_insert_eq in Hj by done. left. congruence.
    + rewrite list_insert_ge in Hj by lia. right.
      apply list_elem_of_lookup. eauto.
  - rewrite list_lookup_insert_ne in Hj by done. right.
    apply list_elem_of_lookup. eauto.
Qed.

(** C10.  Text typed for a card is trimmed before it is stored and is
    refused while it is empty: the card [add_card] appends has a tidy front
    and a tidy back, and after [edit_card] each field of the edited card is
    the text it was or a tidy text.  So when every stored card is tidy, it
    stays so through every operation (creating or deleting a collection,
    adding, editing, deleting, searching, a learn session), whatever is typed and
    however the operation ends.  [load_data] checks nothing below the key
    [collections]: it returns the decoded document of any registry,
    for one a registry whose card has an empty front and a blank back. *)
Theorem stored_text_tidy_except_load `{JsonCodec} :
  (∀ data col w,
     heap (add_card data col w).2 = heap w
     ∨ ∃ l c,
         data !! col = Some l ∧ tidy_card c
         ∧ heap (add_card data col w).2
           = <[l := default [] (heap w !! l) ++ [c]]> (heap w))
  ∧ (∀ data col w,
       heap (edit_card data col w).2 = heap w
       ∨ ∃ l cards i c c',
           data !! col = Some l ∧ heap w !! l = Some cards ∧ cards !! i = Some c
           ∧ heap (edit_card data col w).2 = <[l := <[i := c']> cards]> (heap w)
           ∧ id c' = id c
           ∧ (front c' = front c ∨ tidy (front c'))
           ∧ (back c' = back c ∨ tidy (back c')))
  ∧ (∀ data col l w,
       tidy_heap (heap w) →
       tidy_heap (heap (create_collection data w).2)
       ∧ tidy_heap (heap (delete_collection data w).2)
       ∧ tidy_heap (heap (add_card data col w).2)
       ∧ tidy_heap (heap (edit_card data col w).2)
       ∧ tidy_heap (heap (delete_card data col w).2)
       ∧ tidy_heap (heap (search_cards l w).2)
       ∧ tidy_heap (heap (learn_mode data col w).2))
  ∧ (∀ w text r,
       disk w = Some (Content text) →
       json_loads text = Some (encode_registry r) →
       load_data w = (Ok (encode_registry r), w))
  ∧ (untidy_registry !! "Spanish" = Some [Card "a1b2c3d4" "" " "]
     ∧ ¬ tidy_card (Card "a1b2c3d4" "" " ")).
Proof.
  split; [apply add_card_heap|]. split; [apply edit_card_heap|]. split; [|split].
  - intros data col l w Hw. split_and!.
    + destruct (create_collection_heap data w) as [->| ->]; [done|].
      apply tidy_heap_insert; [done|]. by intros c ?%elem_of_nil.
    + by rewrite delete_collection_heap.
    + destruct (add_card_heap data col w) as [->|(lc & c & _ & Hc & ->)]; [done|].
      apply tidy_heap_insert; [done|].
      intros c' [Hc'| ->%list_elem_of_singleton]%elem_of_app; [|done].
      by eapply tidy_heap_default.
    + destruct (edit_card_heap data col w)
        as [->|(lc & cards & i & c & c' & _ & Hlc & Hi & -> & _ & Hf & Hb)]; [done|].
      apply tidy_heap_insert; [done|].
      assert (Hc : tidy_card c).
      { apply (Hw lc cards c Hlc). apply list_elem_of_lookup. eauto. }
      intros x [->|Hx]%elem_of_insert_inv; [|by apply (Hw lc cards x Hlc)].
      destruct Hc as [Hcf Hcb]. split.
      * by destruct Hf as [-> |].
      * by destruct Hb as [-> |].
    + destruct (delete_card_heap data col w)
        as [->|(lc & cards & c & _ & Hlc & ->)]; [done|].
      apply tidy_heap_insert; [done|].
      intros x Hx%list_remove_subset. by apply (Hw lc cards x Hlc).
    + by rewrite search_cards_heap.
    + destruct (learn_mode_heap data col w) as [->|(lc & order & _ & Hperm & ->)];
        [done|].
      apply tidy_heap_insert; [done|]. intros x Hx. rewrite Hperm in Hx.
      by eapply tidy_heap_default.
  - intros w text r Hd Hr. destruct w as [ins out dsk hp ent dr]. cbn in Hd.
    subst dsk.
    unfold load_data, try_except, read_text, json_load, bind, get_disk, ret.
    cbn. by rewrite Hr.
  - split; [done|]. intros [[Hne _] _]. by apply Hne.
Qed.

Lemma stored_text_tidy_except_load_witness :
  @load_data (table_codec (encode_registry untidy_registry) untidy_text)
    (World [] [] (Some (Content untidy_text)) ∅ (λ _, 0%Z) 0)
  = (Ok (encode_registry untidy_registry),
     World [] [] (Some (Content untidy_text)) ∅ (λ _, 0%Z) 0)
  ∧ tidy_heap (heap (@add_card sample_codec spanish "Spanish" w_add).2)
  ∧ heap (@add_card sample_codec spanish "Spanish" w_add).2 !! 0
    = Some [gato; Card "deadbeef" "hola" "hello"].
Proof.
  destruct (@stored_text_tidy_except_load
              (table_codec (encode_registry untidy_registry) untidy_text))
    as (_ & _ & _ & Hload & _).
  destruct (@stored_text_tidy_except_load sample_codec) as (_ & _ & Hkeep & _).
  split; [|split].
  - apply (Hload _ untidy_text); [done | by vm_compute].
  - eapply (Hkeep spanish "Spanish" 0 w_add).
    intros l cs c Hl Hc.
    change (heap w_add) with (<[0 := [gato]]> (∅ : gmap nat (list card))) in Hl.
    apply lookup_insert_Some in Hl as [[<- <-]|[_ Hl]];
      [|by rewrite lookup_empty in Hl].
    apply list_elem_of_singleton in Hc as ->.
    split; [apply (strip_tidy "gato") | apply (strip_tidy "cat")]; by vm_compute.
  - by vm_compute.
Defined.

(** * Further facts *)

(** ** Frames *)

#[local] Instance fewer_lines_preorder : PreOrder fewer_lines.
Proof. split; unfold fewer_lines; [intros w | intros w1 w2 w3]; lia. Qed.

#[local] Instance in_memory_preorder : PreOrder in_memory.
Proof.
  split; unfold in_memory; [intros w | intros w1 w2 w3]; [done|].
  intros [? ?] [? ?]. split; [lia | congruence].
Qed.

#[local] Instance io_only_preorder : PreOrder io_only.
Proof.
  split; unfold io_only; [intros w | intros w1 w2 w3]; [done|].
  intros (? & ? & ?) (? & ? & ?). split_and!; [lia | congruence | congruence].
Qed.

#[local] Instance only_object_preorder l : PreOrder (only_object l).
Proof.
  split; unfold only_object; [intros w | intros w1 w2 w3]; [done|].
  intros H12 H23 l' Hne Hl'. rewrite H23; [by apply H12 | done |].
  by rewrite H12.
Qed.

Lemma stable_weaken (R R' : relation world) {A} (m : M A) :
  (∀ w w', R w w' → R' w w') → stable R m → stable R' m.
Proof. intros HR Hm w. apply HR, Hm. Qed.

Lemma io_only_in_memory {A} (m : M A) : stable io_only m → stable in_memory m.
Proof. apply stable_weaken. by intros w w' (? & ? & ?). Qed.

Lemma in_memory_fewer_lines {A} (m : M A) : stable in_memory m → stable fewer_lines m.
Proof. apply stable_weaken. by intros w w' (? & ?). Qed.

Lemma io_only_only_object l {A} (m : M A) : stable io_only m → stable (only_object l) m.
Proof. apply stable_weaken. intros w w' (_ & Hh & _) l' _ _. by rewrite Hh. Qed.

Lemma stable_bind R `{!PreOrder R} {A B} (m : M A) (k : A → M B) :
  stable R m → (∀ a, stable R (k a)) → stable R (bind m k).
Proof.
  intros Hm Hk w. unfold bind. specialize (Hm w).
  destruct (m w) as [[a|e] w1]; cbn in *; [|done].
  etrans; [apply Hm | apply Hk].
Qed.

Lemma stable_ret R `{!Reflexive R} {A} (a : A) : stable R (ret a).
Proof. by intros w. Qed.

Lemma stable_raise R `{!Reflexive R} {A} e : stable R (@raise A e).
Proof. by intros w. Qed.

Lemma stable_emit e : stable io_only (emit e).
Proof. by intros []. Qed.

Lemma stable_print s : stable io_only (print s).
Proof. by intros []. Qed.

Lemma stable_clear : stable io_only clear.
Proof. by intros []. Qed.

Lemma stable_input p : stable io_only (input p).
Proof. intros [[|l ins] out dsk hp ent dr]; cbn; split_and!; simpl; [lia|done|done|lia|done|done]. Qed.

Lemma stable_draw : stable io_only draw.
Proof. by intros []. Qed.

Lemma stable_deref l : stable io_only (deref l).
Proof. by intros []. Qed.

Lemma stable_get_disk : stable io_only get_disk.
Proof. by intros []. Qed.

Lemma stable_get_heap : stable io_only get_heap.
Proof. by intros []. Qed.

Lemma stable_assign l cs : stable in_memory (assign l cs).
Proof. by intros []. Qed.

Lemma stable_alloc cs : stable in_memory (alloc cs).
Proof. by intros []. Qed.

Lemma stable_set_disk f : stable fewer_lines (set_disk f).
Proof. intros []. unfold fewer_lines. cbn. lia. Qed.

Lemma ask_loop_lines {A} p (parse : string → verdict A) lines out :
  length (ask_loop p parse lines out).1.2 ≤ length lines.
Proof.
  revert out. induction lines as [|l lines IH]; intros out; simpl; [done|].
  destruct (parse l); simpl; [lia | | lia].
  specialize (IH (out ++ [Ask p; Echo msg])). lia.
Qed.

Lemma stable_ask_until {A} p (parse : string → verdict A) :
  stable io_only (ask_until p parse).
Proof.
  intros [ins out dsk hp ent dr]. unfold ask_until.
  pose proof (ask_loop_lines p parse ins out) as Hlen.
  destruct (ask_loop p parse ins out) as [[r ls] out']. by cbn in *.
Qed.

Lemma stable_get_cards data col : stable io_only (get_cards data col).
Proof. intros w. unfold get_cards. by destruct (data !! col). Qed.

Create HintDb stable discriminated.
#[local] Hint Resolve stable_emit stable_print stable_clear stable_input stable_draw
  stable_deref stable_get_disk stable_get_heap stable_assign stable_alloc
  stable_set_disk stable_ask_until stable_get_cards : stable.
#[local] Hint Extern 1 (stable _ (ret _)) => apply stable_ret; apply _ : stable.
#[local] Hint Extern 1 (stable _ (raise _)) => apply stable_raise; apply _ : stable.
#[local] Hint Extern 5 (stable in_memory _) => apply io_only_in_memory : stable.
#[local] Hint Extern 5 (stable fewer_lines _) => apply in_memory_fewer_lines : stable.
#[local] Hint Extern 5 (stable (only_object _) _) => apply io_only_only_object : stable.

(** Splits a composed computation into its steps and closes each step with
    what is known of it. *)
Ltac stable_steps :=
  repeat match goal with
    | |- stable _ (bind _ _) => apply stable_bind; [apply _ | | intros ?]
    | |- stable _ (if ?b then _ else _) => destruct b
    | |- stable _ (match ?x with Some _ => _ | None => _ end) => destruct x
    | |- stable _ (match ?x with [] => _ | _ :: _ => _ end) => destruct x
    | |- stable _ (let (_, _) := ?x in _) => destruct x
    | |- stable _ (match ?x with Correct => _ | Wrong => _ | Skipped => _ | Quit => _ end) =>
        destruct x
    | |- stable _ (match outcome ?s with Completed => _ | TerminatedEarly => _ end) =>
        destruct (outcome s)
    | |- stable _ _ => solve [eauto with stable]
    end.

Lemma stable_prompt_int p lo hi : stable io_only (prompt_int p lo hi).
Proof. apply stable_ask_until. Qed.

Lemma stable_prompt_nonempty p : stable io_only (prompt_nonempty p).
Proof. apply stable_ask_until. Qed.

Lemma stable_confirm p : stable io_only (confirm p).
Proof. apply stable_ask_until. Qed.

Lemma stable_pause p : stable io_only (pause p).
Proof. unfold pause. stable_steps. Qed.

#[local] Hint Resolve stable_prompt_int stable_prompt_nonempty stable_confirm
  stable_pause : stable.

Lemma stable_print_each cards : stable io_only (print_each cards).
Proof. induction cards; cbn [print_each]; stable_steps. Qed.

Lemma stable_print_items i items : stable io_only (print_items i items).
Proof.
  revert i. induction items; intros i; unfold print_items; fold print_items;
    stable_steps.
Qed.

#[local] Hint Resolve stable_print_each stable_print_items : stable.

Lemma stable_list_cards cards : stable io_only (list_cards cards).
Proof. unfold list_cards. stable_steps. Qed.

Lemma stable_select_from_list title items : stable io_only (select_from_list title items).
Proof. unfold select_from_list. stable_steps. Qed.

Lemma stable_search_cards l : stable io_only (search_cards l).
Proof. unfold search_cards. stable_steps. Qed.

#[local] Hint Resolve stable_list_cards stable_select_from_list stable_search_cards
  : stable.

Lemma stable_save_data `{JsonCodec} data : stable fewer_lines (save_data data).
Proof.
  intros [ins out dsk hp ent dr]. unfold fewer_lines, save_data, save_doc.
  unfold_ops. cbn. destruct dsk as [[]|]; cbn; lia.
Qed.

Lemma stable_uuid4_hex : stable io_only uuid4_hex.
Proof. unfold uuid4_hex. stable_steps. Qed.

Lemma stable_randbelow n : stable io_only (randbelow n).
Proof. unfold randbelow. stable_steps. Qed.

#[local] Hint Resolve stable_save_data stable_uuid4_hex stable_randbelow : stable.

Lemma stable_shuffle_loop i x : stable io_only (shuffle_loop i x).
Proof. revert x. induction i; intros x; cbn [shuffle_loop]; stable_steps. Qed.

#[local] Hint Resolve stable_shuffle_loop : stable.

Lemma stable_random_shuffle l : stable in_memory (random_shuffle l).
Proof. unfold random_shuffle. stable_steps. Qed.

Lemma stable_learn_loop col total cards :
  ∀ idx t seen, stable io_only (learn_loop col total idx cards t seen).
Proof.
  induction cards as [|c cards IH]; intros idx t seen;
    unfold learn_loop; fold learn_loop; stable_steps.
Qed.

#[local] Hint Resolve stable_random_shuffle stable_learn_loop : stable.

Lemma stable_learn_mode data col : stable in_memory (learn_mode data col).
Proof.
  unfold learn_mode. stable_steps.
Qed.

Lemma stable_create_collection `{JsonCodec} data :
  stable fewer_lines (create_collection data).
Proof. unfold create_collection. stable_steps. Qed.

Lemma stable_delete_collection `{JsonCodec} data :
  stable fewer_lines (delete_collection data).
Proof. unfold delete_collection. stable_steps. Qed.

Lemma stable_add_card `{JsonCodec} data col : stable fewer_lines (add_card data col).
Proof. unfold add_card. stable_steps. Qed.

Lemma stable_edit_card `{JsonCodec} data col : stable fewer_lines (edit_card data col).
Proof.
  unfold edit_card. stable_steps.
Qed.

Lemma stable_delete_card `{JsonCodec} data col : stable fewer_lines (delete_card data col).
Proof.
  unfold delete_card. stable_steps.
Qed.

#[local] Hint Resolve stable_learn_mode stable_create_collection
  stable_delete_collection stable_add_card stable_edit_card stable_delete_card
  : stable.

(** ** The menu loops *)

Lemma stable_loop_passes R `{!PreOrder R} {St} (body : St → M (flow St)) :
  (∀ s, stable R (body s)) → ∀ n s, stable R (loop_passes n body s).
Proof.
  intros Hbody. induction n as [|n IH]; intros s; cbn [loop_passes].
  - by intros w.
  - apply stable_bind; [done | done |]. intros [s'|s']; [by intros w | apply IH].
Qed.

Lemma stable_while_true R `{!PreOrder R} {St} (body : St → M (flow St)) s :
  (∀ s, stable R (body s)) → stable R (while_true body s).
Proof. intros Hbody w. unfold while_true. by apply stable_loop_passes. Qed.

Lemma takes_line_ask_until {A} p (parse : string → verdict A) :
  takes_line (ask_until p parse).
Proof.
  intros [ins out dsk hp ent dr] a w'. unfold ask_until.
  destruct (ask_loop p parse ins out) as [[r ls] out'] eqn:Hask.
  intros [= -> <-]. cbn. clear dsk hp ent dr.
  revert out Hask. induction ins as [|l ins IH]; intros out; simpl; [done|].
  destruct (parse l).
  - intros [= _ <- _]. lia.
  - intros Hask%IH. lia.
  - done.
Qed.

Lemma takes_line_bind_l {A B} (m : M A) (k : A → M B) :
  takes_line m → (∀ a, stable fewer_lines (k a)) → takes_line (bind m k).
Proof.
  intros Hm Hk w b w'. unfold bind.
  destruct (m w) as [[a|e] w1] eqn:Hmw; [|done].
  intros Hka. pose proof (Hk a w1) as Hle. rewrite Hka in Hle.
  apply Hm in Hmw. unfold fewer_lines in Hle. cbn in Hle. lia.
Qed.

Lemma takes_line_bind_r {A B} (m : M A) (k : A → M B) :
  stable fewer_lines m → (∀ a, takes_line (k a)) → takes_line (bind m k).
Proof.
  intros Hm Hk w b w'. unfold bind. pose proof (Hm w) as Hle.
  destruct (m w) as [[a|e] w1] eqn:Hmw; [|done].
  intros Hka%Hk. unfold fewer_lines in Hle. cbn in Hle. lia.
Qed.

(** With a body that reads a line in every pass, the bound on the passes
    does not matter once it exceeds the number of lines left. *)
Lemma loop_passes_enough {St} (body : St → M (flow St)) :
  (∀ s, takes_line (body s)) →
  ∀ n n' s w,
    length (stdin w) < n → length (stdin w) < n' →
    loop_passes n body s w = loop_passes n' body s w.
Proof.
  intros Hbody. induction n as [|n IH]; intros n' s w Hn Hn'; [lia|].
  destruct n' as [|n']; [lia|]. cbn [loop_passes]. unfold bind.
  destruct (body s w) as [[[s'|s']|e] w1] eqn:Hpass; try done.
  apply Hbody in Hpass. apply IH; lia.
Qed.

(** [while_true] is the loop: one pass, and after a pass that reached its
    end, the loop again. *)
Lemma while_true_unfold {St} (body : St → M (flow St)) s w :
  (∀ s, takes_line (body s)) →
  while_true body s w =
    (let* next := body s in
     match next with
     | Return s' => ret s'
     | Continue s' => while_true body s'
     end) w.
Proof.
  intros Hbody. unfold while_true at 1. cbn [loop_passes]. unfold bind.
  destruct (body s w) as [[[s'|s']|e] w1] eqn:Hpass; try done.
  apply Hbody in Hpass. unfold while_true.
  apply loop_passes_enough; [done | lia | lia].
Qed.

(** Finds the prompt of a menu pass: the steps before it give no line back,
    the prompt takes one, and the steps after it give none back. *)
Ltac takes_steps :=
  repeat match goal with
    | |- takes_line (bind (prompt_int _ _ _) _) =>
        apply takes_line_bind_l; [apply takes_line_ask_until | intros ?]
    | |- takes_line (bind _ _) =>
        apply takes_line_bind_r; [solve [eauto with stable] | intros ?]
    end.

Lemma stable_manage_cards_pass `{JsonCodec} data col :
  stable fewer_lines (manage_cards_pass data col).
Proof. unfold manage_cards_pass. stable_steps. Qed.

Lemma takes_line_manage_cards_pass `{JsonCodec} data col :
  takes_line (manage_cards_pass data col).
Proof. unfold manage_cards_pass. takes_steps. stable_steps. Qed.

Lemma stable_manage_cards_menu `{JsonCodec} data col :
  stable fewer_lines (manage_cards_menu data col).
Proof.
  apply stable_while_true; [apply _|]. intros _. apply stable_manage_cards_pass.
Qed.

#[local] Hint Resolve stable_manage_cards_menu : stable.

Lemma stable_collection_pass `{JsonCodec} data col :
  stable fewer_lines (collection_pass data col).
Proof. unfold collection_pass. stable_steps. Qed.

Lemma takes_line_collection_pass `{JsonCodec} data col :
  takes_line (collection_pass data col).
Proof. unfold collection_pass. takes_steps. stable_steps. Qed.

Lemma stable_collection_menu `{JsonCodec} data col :
  stable fewer_lines (collection_menu data col).
Proof.
  apply stable_while_true; [apply _|]. intros _. apply stable_collection_pass.
Qed.

#[local] Hint Resolve stable_collection_menu : stable.

Lemma stable_open_collection `{JsonCodec} data :
  stable fewer_lines (open_collection data).
Proof. unfold open_collection. stable_steps. Qed.

Lemma stable_print_counts data cols : stable io_only (print_counts data cols).
Proof. induction cols; cbn [print_counts]; stable_steps. Qed.

#[local] Hint Resolve stable_open_collection stable_print_counts : stable.

Lemma stable_main_pass `{JsonCodec} data : stable fewer_lines (main_pass data).
Proof. unfold main_pass. stable_steps. Qed.

Lemma takes_line_main_pass `{JsonCodec} data : takes_line (main_pass data).
Proof. unfold main_pass. takes_steps. stable_steps. Qed.

(** X23.  The three menus are their [while True] loops: a menu is one
    pass and, unless the pass returned, the menu again.  Every pass that
    reaches its end has read a line, so on the lines that are there to read
    the bound on the number of passes is never reached. *)
Theorem menus_loop `{JsonCodec} data col w :
  manage_cards_menu data col w =
    (let* next := manage_cards_pass data col in
     match next with
     | Return _ => ret tt
     | Continue _ => manage_cards_menu data col
     end) w
  ∧ collection_menu data col w =
      (let* next := collection_pass data col in
       match next with
       | Return _ => ret tt
       | Continue _ => collection_menu data col
       end) w
  ∧ main_menu data w =
      (let* next := main_pass data in
       match next with
       | Return data' => ret data'
       | Continue data' => main_menu data'
       end) w
  ∧ (∀ next w', manage_cards_pass data col w = (Ok next, w') →
       length (stdin w') < length (stdin w))
  ∧ (∀ next w', collection_pass data col w = (Ok next, w') →
       length (stdin w') < length (stdin w))
  ∧ (∀ next w', main_pass data w = (Ok next, w') →
       length (stdin w') < length (stdin w)).
Proof.
  split_and!.
  - unfold manage_cards_menu.
    rewrite while_true_unfold by (intros _; apply takes_line_manage_cards_pass).
    unfold bind. destruct (manage_cards_pass data col w) as [[[[]|[]]|e] w1]; done.
  - unfold collection_menu.
    rewrite while_true_unfold by (intros _; apply takes_line_collection_pass).
    unfold bind. destruct (collection_pass data col w) as [[[[]|[]]|e] w1]; done.
  - unfold main_menu.
    by rewrite while_true_unfold by apply takes_line_main_pass.
  - apply takes_line_manage_cards_pass.
  - apply takes_line_collection_pass.
  - apply takes_line_main_pass.
Qed.

(** ** Saving after every change *)

Lemma triple_bind {A B} P (m : M A) (k : A → M B) Q1 Q E :
  triple P m Q1 E → (∀ a, triple (Q1 a) (k a) Q E) → triple P (bind m k) Q E.
Proof.
  intros Hm Hk w HP. unfold bind. specialize (Hm w HP).
  destruct (m w) as [[a|e] w1]; [by apply Hk | done].
Qed.

Lemma triple_ret {A} (P : world → Prop) (a : A) (Q : A → world → Prop) E :
  (∀ w, P w → Q a w) → triple P (ret a) Q E.
Proof. intros HQ w HP. by apply HQ. Qed.

Lemma triple_raise {A} (P : world → Prop) e (Q : A → world → Prop) (E : world → Prop) :
  (∀ w, P w → E w) → triple P (raise e) Q E.
Proof. intros HE w HP _. by apply HE. Qed.

Lemma triple_io {A} (P : world → Prop) (m : M A) (E : world → Prop) :
  stable io_only m → of_store P → (∀ w, P w → E w) →
  triple P m (λ _, P) E.
Proof.
  intros Hm HP HE w Hw. destruct (Hm w) as (_ & Hh & Hd).
  assert (P (m w).2) by by eapply HP.
  destruct (m w) as [[a|e] w1]; [done|]. intros _. by apply HE.
Qed.

Lemma triple_print (P : world → Prop) s (E : world → Prop) :
  of_store P → triple P (print s) (λ _, P) E.
Proof.
  intros HP [ins out dsk hp ent dr] Hw. cbn. eapply HP; [| |exact Hw]; done.
Qed.

Lemma of_store_bound data : of_store (λ w, bound data (heap w)).
Proof. intros w w' Hh _. by rewrite Hh. Qed.

Lemma of_store_written_through `{JsonCodec} r0 d0 data :
  of_store (written_through r0 d0 data).
Proof.
  intros w w' Hh Hd. unfold written_through, on_file. by rewrite Hh, Hd.
Qed.

Lemma of_store_ex {A} (P : A → world → Prop) :
  (∀ a, of_store (P a)) → of_store (λ w, ∃ a, P a w).
Proof. intros HP w w' Hh Hd [a Ha]. exists a. by eapply HP. Qed.

Lemma bound_insert data h l cs : bound data h → bound data (<[l := cs]> h).
Proof.
  intros Hb name l' Hl'. rewrite lookup_insert_is_Some'. right. by eapply Hb.
Qed.

Lemma triple_assign `{JsonCodec} r0 d0 data l cs E :
  triple (written_through r0 d0 data) (assign l cs)
    (λ _ w, bound data (heap w)) E.
Proof. intros [ins out dsk hp ent dr] [Hb _]. cbn. by apply bound_insert. Qed.

Lemma save_data_cases `{JsonCodec} data w :
  save_data data w =
    (Ok tt,
     World (stdin w) (stdout w)
       (Some (Content (json_dumps (encode_registry (snapshot (heap w) data)))))
       (heap w) (entropy w) (drawn w))
  ∨ save_data data w = (Raise OSError, w).
Proof.
  destruct w as [ins out dsk hp ent dr].
  unfold save_data, save_doc, bind, get_heap, get_disk, set_disk, raise. cbn.
  destruct dsk as [[]|]; auto.
Qed.

Lemma triple_save_data `{JsonCodec} r0 d0 data E :
  triple (λ w, bound data (heap w)) (save_data data)
    (λ _, written_through r0 d0 data) E.
Proof.
  intros w Hb. destruct (save_data_cases data w) as [-> | ->]; [|done].
  split; [done|]. by right.
Qed.

Lemma triple_alloc_name `{JsonCodec} r0 d0 data name E :
  triple (written_through r0 d0 data) (alloc [])
    (λ l w, bound (<[name := l]> data) (heap w)) E.
Proof.
  intros [ins out dsk hp ent dr] [Hb _]. cbn. intros name' l'.
  rewrite lookup_insert_is_Some'.
  destruct (decide (name = name')) as [<-|Hne].
  - rewrite lookup_insert_eq. intros [= <-]. by left.
  - rewrite lookup_insert_ne by done. intros Hl'. right. by eapply Hb.
Qed.

#[local] Hint Resolve of_store_bound of_store_written_through : stable.
#[local] Hint Extern 2 (of_store (λ w, ∃ a, _)) => apply of_store_ex; intros ? : stable.

(** Splits a composed computation into its steps for [triple]. *)
Ltac triple_step :=
  match goal with
  | |- triple _ (bind (assign _ _) _) _ _ =>
      eapply triple_bind; [apply triple_assign | intros ?]
  | |- triple _ (bind (save_data _) _) _ _ =>
      eapply triple_bind; [apply triple_save_data | intros ?]
  | |- triple _ (bind (alloc []) _) _ _ =>
      eapply triple_bind; [apply triple_alloc_name | intros ?]
  | |- triple _ (bind (print _) _) _ _ =>
      eapply triple_bind; [apply triple_print; solve [eauto with stable] | intros ?]
  | |- triple _ (print _) _ _ => apply triple_print; solve [eauto with stable]
  | |- triple _ (bind _ _) _ _ =>
      eapply triple_bind;
        [first [ solve [eauto with triple]
               | apply triple_io; [solve [eauto with stable]
                                  | solve [eauto with stable]
                                  | solve [eauto] ] ]
        | intros ?]
  | |- triple _ (if ?b then _ else _) _ _ => destruct b
  | |- triple _ (match ?x with Some _ => _ | None => _ end) _ _ => destruct x eqn:?
  | |- triple _ (match ?x with [] => _ | _ :: _ => _ end) _ _ => destruct x eqn:?
  | |- triple _ (let (_, _) := ?x in _) _ _ => destruct x
  | |- triple _ (ret _) _ _ => apply triple_ret; solve [eauto]
  | |- triple _ (raise _) _ _ => apply triple_raise; solve [eauto]
  | |- triple _ _ _ _ =>
      first [ solve [eauto with triple]
            | apply triple_io; [solve [eauto with stable]
                               | solve [eauto with stable]
                               | solve [eauto] ] ]
  end.

Ltac triple_steps := repeat triple_step.

Create HintDb triple discriminated.

Lemma triple_pre {A} (P P' : world → Prop) (m : M A) Q E :
  (∀ w, P w → P' w) → triple P' m Q E → triple P m Q E.
Proof. intros HP Hm w Hw. by apply Hm, HP. Qed.

Lemma triple_post {A} (P : world → Prop) (m : M A) (Q Q' : A → world → Prop) E :
  (∀ a w, Q a w → Q' a w) → triple P m Q E → triple P m Q' E.
Proof.
  intros HQ Hm w Hw. specialize (Hm w Hw).
  destruct (m w) as [[a|e] w1]; [by apply HQ | done].
Qed.

Lemma add_card_written `{JsonCodec} r0 d0 data col (E : world → Prop) :
  (∀ w, written_through r0 d0 data w → E w) →
  triple (written_through r0 d0 data) (add_card data col)
    (λ _, written_through r0 d0 data) E.
Proof. intros HE. unfold add_card. cbv zeta. triple_steps. Qed.

Lemma edit_card_written `{JsonCodec} r0 d0 data col (E : world → Prop) :
  (∀ w, written_through r0 d0 data w → E w) →
  triple (written_through r0 d0 data) (edit_card data col)
    (λ _, written_through r0 d0 data) E.
Proof. intros HE. unfold edit_card. triple_steps. Qed.

Lemma delete_card_written `{JsonCodec} r0 d0 data col (E : world → Prop) :
  (∀ w, written_through r0 d0 data w → E w) →
  triple (written_through r0 d0 data) (delete_card data col)
    (λ _, written_through r0 d0 data) E.
Proof. intros HE. unfold delete_card. triple_steps. Qed.

Lemma create_collection_written `{JsonCodec} r0 d0 data (E : world → Prop) :
  (∀ w, written_through r0 d0 data w → E w) →
  triple (written_through r0 d0 data) (create_collection data)
    (written_through r0 d0) E.
Proof. intros HE. unfold create_collection. cbv zeta. triple_steps. Qed.

Lemma bound_delete data name h : bound data h → bound (delete name data) h.
Proof.
  intros Hb name' l. rewrite lookup_delete_Some. intros [_ Hl]. by eapply Hb.
Qed.

Lemma delete_collection_written `{JsonCodec} r0 d0 data (E : world → Prop) :
  (∀ w, written_through r0 d0 data w → E w) →
  triple (written_through r0 d0 data) (delete_collection data)
    (written_through r0 d0) E.
Proof.
  intros HE. unfold delete_collection. cbv zeta. triple_steps.
  eapply triple_bind.
  - eapply triple_pre; [|apply triple_save_data].
    intros w [Hb _]. by apply bound_delete.
  - intros ?. triple_steps.
Qed.

(** A new list object changes no collection. *)
Lemma snapshot_fresh (h : gmap loc (list card)) (data : collections) cs :
  bound data h → snapshot (<[fresh (dom h) := cs]> h) data = snapshot h data.
Proof.
  intros Hb. unfold snapshot. apply map_fmap_ext. intros name l Hl.
  rewrite lookup_insert_ne; [done|]. intros <-.
  apply Hb in Hl. apply elem_of_dom in Hl. by apply is_fresh in Hl.
Qed.

Lemma learn_mode_written `{JsonCodec} r0 d0 data col (E : world → Prop) :
  (∀ w, written_through r0 d0 data w → E w) →
  triple (written_through r0 d0 data) (learn_mode data col)
    (λ _, written_through r0 d0 data) E.
Proof.
  intros HE w [Hb Hw].
  destruct (stable_learn_mode data col w) as [_ Hd].
  assert (Hkeep : written_through r0 d0 data (learn_mode data col w).2).
  { unfold written_through, on_file. rewrite Hd.
    destruct (learn_mode_heap data col w) as [->|(l & order & _ & _ & ->)];
      [done|].
    rewrite snapshot_fresh by done. split; [by apply bound_insert | done]. }
  destruct (learn_mode data col w) as [[s|e] w1]; [done|]. intros _. by apply HE.
Qed.

#[local] Hint Resolve add_card_written edit_card_written delete_card_written
  create_collection_written delete_collection_written learn_mode_written : triple.

Lemma triple_loop_passes {St} (J Q : St → world → Prop) (E : world → Prop)
    (body : St → M (flow St)) :
  (∀ s w, J s w → E w) →
  (∀ s, triple (J s) (body s)
          (λ next, match next with Return s' => Q s' | Continue s' => J s' end) E) →
  ∀ n s, triple (J s) (loop_passes n body s) Q E.
Proof.
  intros HE Hbody. induction n as [|n IH]; intros s; cbn [loop_passes].
  - intros w Hw _. by eapply HE.
  - eapply triple_bind; [apply Hbody|]. intros [s'|s']; [|apply IH].
    by apply triple_ret.
Qed.

Lemma triple_while_true {St} (J Q : St → world → Prop) (E : world → Prop)
    (body : St → M (flow St)) s :
  (∀ s w, J s w → E w) →
  (∀ s, triple (J s) (body s)
          (λ next, match next with Return s' => Q s' | Continue s' => J s' end) E) →
  triple (J s) (while_true body s) Q E.
Proof.
  intros HE Hbody w. unfold while_true. by apply triple_loop_passes.
Qed.

Lemma manage_cards_pass_written `{JsonCodec} r0 d0 data col (E : world → Prop) :
  (∀ w, written_through r0 d0 data w → E w) →
  triple (written_through r0 d0 data) (manage_cards_pass data col)
    (λ _, written_through r0 d0 data) E.
Proof. intros HE. unfold manage_cards_pass. triple_steps. Qed.

Lemma manage_cards_menu_written `{JsonCodec} r0 d0 data col (E : world → Prop) :
  (∀ w, written_through r0 d0 data w → E w) →
  triple (written_through r0 d0 data) (manage_cards_menu data col)
    (λ _, written_through r0 d0 data) E.
Proof.
  intros HE. unfold manage_cards_menu.
  apply (triple_while_true (λ _ : unit, written_through r0 d0 data)
           (λ _ : unit, written_through r0 d0 data)); [done|].
  intros _. eapply triple_post; [|by apply manage_cards_pass_written].
  by intros [[]|[]].
Qed.

#[local] Hint Resolve manage_cards_menu_written : triple.

Lemma collection_pass_written `{JsonCodec} r0 d0 data col (E : world → Prop) :
  (∀ w, written_through r0 d0 data w → E w) →
  triple (written_through r0 d0 data) (collection_pass data col)
    (λ _, written_through r0 d0 data) E.
Proof. intros HE. unfold collection_pass. triple_steps. Qed.

Lemma collection_menu_written `{JsonCodec} r0 d0 data col (E : world → Prop) :
  (∀ w, written_through r0 d0 data w → E w) →
  triple (written_through r0 d0 data) (collection_menu data col)
    (λ _, written_through r0 d0 data) E.
Proof.
  intros HE. unfold collection_menu.
  apply (triple_while_true (λ _ : unit, written_through r0 d0 data)
           (λ _ : unit, written_through r0 d0 data)); [done|].
  intros _. eapply triple_post; [|by apply collection_pass_written].
  by intros [[]|[]].
Qed.

#[local] Hint Resolve collection_menu_written : triple.

Lemma open_collection_written `{JsonCodec} r0 d0 data (E : world → Prop) :
  (∀ w, written_through r0 d0 data w → E w) →
  triple (written_through r0 d0 data) (open_collection data)
    (λ _, written_through r0 d0 data) E.
Proof. intros HE. unfold open_collection. cbv zeta. triple_steps. Qed.

#[local] Hint Resolve open_collection_written : triple.

Lemma main_pass_written `{JsonCodec} r0 d0 data :
  triple (written_through r0 d0 data) (main_pass data)
    (λ next, match next with
             | Return data' => written_through r0 d0 data'
             | Continue data' => written_through r0 d0 data'
             end)
    (λ w, ∃ data', written_through r0 d0 data' w).
Proof.
  unfold main_pass. cbv zeta. triple_steps.
  eapply triple_bind.
  - apply triple_io; [|eauto with stable|eauto].
    destruct (list_collections data); eauto with stable.
  - intros ?. cbv beta. triple_steps.
Qed.

(** The write-through property of a whole run of the main loop. *)
Lemma main_menu_written `{JsonCodec} r0 d0 data :
  triple (written_through r0 d0 data) (main_menu data)
    (written_through r0 d0)
    (λ w, ∃ data', written_through r0 d0 data' w).
Proof.
  unfold main_menu.
  apply (triple_while_true (written_through r0 d0) (written_through r0 d0));
    [eauto|].
  intros s. apply main_pass_written.
Qed.

(** ** What the prompt loops return *)

Lemma ask_loop_ok_inv {A} p (parse : string → verdict A) lines out a ls out' :
  ask_loop p parse lines out = (Ok a, ls, out') →
  ∃ bad line,
    lines = bad ++ line :: ls ∧ Forall (rejected parse) bad
    ∧ parse line = Accept a ∧ out' = out ++ asked p parse bad.
Proof.
  revert out. induction lines as [|l lines IH]; intros out; simpl; [done|].
  destruct (parse l) as [a0|msg|e] eqn:Hl; [| |done].
  - intros [= -> -> <-]. by exists [], l.
  - intros (bad & line & -> & Hbad & Hline & ->)%IH.
    exists (l :: bad), line. split; [done|]. split.
    { constructor; [by exists msg | done]. }
    split; [done|]. unfold asked. cbn. rewrite Hl. by rewrite <- !app_assoc.
Qed.

Lemma ask_loop_raise_inv {A} p (parse : string → verdict A) lines out e ls out' :
  ask_loop p parse lines out = (Raise e, ls, out') →
  (e = EOFError ∧ Forall (rejected parse) lines ∧ ls = [])
  ∨ ∃ bad line,
      lines = bad ++ line :: ls ∧ Forall (rejected parse) bad
      ∧ parse line = Fail e.
Proof.
  revert out. induction lines as [|l lines IH]; intros out; simpl.
  - intros [= <- <- _]. by left.
  - destruct (parse l) as [a0|msg|e0] eqn:Hl; [done| |].
    + intros [(-> & Hall & ->)|(bad & line & -> & Hbad & Hline)]%IH.
      * left. split; [done|]. split; [|done]. constructor; [by exists msg | done].
      * right. exists (l :: bad), line. split; [done|]. split; [|done].
        constructor; [by exists msg | done].
    + intros [= <- <- _]. right. by exists [], l.
Qed.

Lemma ask_until_ok_inv {A} p (parse : string → verdict A) w a w' :
  ask_until p parse w = (Ok a, w') →
  ∃ bad line,
    stdin w = bad ++ line :: stdin w' ∧ Forall (rejected parse) bad
    ∧ parse line = Accept a
    ∧ w' = World (stdin w') (stdout w ++ asked p parse bad)
             (disk w) (heap w) (entropy w) (drawn w).
Proof.
  destruct w as [ins out dsk hp ent dr]. unfold ask_until.
  destruct (ask_loop p parse ins out) as [[r ls] out'] eqn:Hask.
  intros [= -> <-]. apply ask_loop_ok_inv in Hask as (bad & line & -> & ? & ? & ->).
  by exists bad, line.
Qed.

Lemma ask_until_raise_inv {A} p (parse : string → verdict A) w e w' :
  @ask_until A p parse w = (Raise e, w') →
  (e = EOFError ∧ Forall (rejected parse) (stdin w) ∧ stdin w' = [])
  ∨ ∃ bad line,
      stdin w = bad ++ line :: stdin w' ∧ Forall (rejected parse) bad
      ∧ parse line = Fail e.
Proof.
  destruct w as [ins out dsk hp ent dr]. unfold ask_until.
  destruct (ask_loop p parse ins out) as [[r ls] out'] eqn:Hask.
  intros [= -> <-]. by apply ask_loop_raise_inv in Hask.
Qed.

Lemma ask_until_fail_run {A} p (parse : string → verdict A) bad line rest e w :
  Forall (rejected parse) bad → parse line = Fail e →
  stdin w = bad ++ line :: rest →
  @ask_until A p parse w =
    (Raise e, World rest (stdout w ++ asked p parse bad)
                (disk w) (heap w) (entropy w) (drawn w)).
Proof.
  intros Hbad Hline Hin. destruct w as [ins out0 dsk hp ent dr].
  unfold ask_until, asked. cbn in *. subst ins.
  revert out0. induction Hbad as [|b bad [msg Hb] _ IH]; intros out.
  - simpl. by rewrite Hline.
  - simpl. rewrite Hb. specialize (IH (out ++ [Ask p; Echo msg])).
    destruct (ask_loop p parse (bad ++ line :: rest) (out ++ [Ask p; Echo msg]))
      as [[r ls] out'].
    injection IH as -> -> ->. by rewrite <- !app_assoc.
Qed.

Lemma parse_int_accept_inv lo hi l v :
  parse_int lo hi l = Accept v →
  PyStr.isdigit (PyStr.strip l) = true ∧ PyStr.int (PyStr.strip l) = Some v
  ∧ lo ≤ v ≤ hi.
Proof.
  unfold parse_int. destruct (PyStr.isdigit (PyStr.strip l)); [|done].
  destruct (PyStr.int (PyStr.strip l)) as [v0|]; [|done].
  destruct ((lo <=? v0) && (v0 <=? hi)) eqn:Hr; [|done].
  intros [= <-]. apply andb_true_iff in Hr as [?%Nat.leb_le ?%Nat.leb_le]. done.
Qed.

Lemma parse_int_fail lo hi l :
  PyStr.isdigit (PyStr.strip l) = true →
  PyStr.isdecimal (PyStr.strip l) = false
  ∨ PyStr.max_str_digits < String.length (PyStr.strip l) →
  parse_int lo hi l = Fail ValueError.
Proof.
  intros Hd Ha. unfold parse_int, PyStr.int. rewrite Hd.
  destruct Ha as [-> | Hlen]; [done|].
  apply Nat.leb_gt in Hlen. rewrite Hlen. by rewrite andb_false_r.
Qed.

Lemma parse_int_fail_inv lo hi l e :
  parse_int lo hi l = Fail e →
  e = ValueError ∧ PyStr.isdigit (PyStr.strip l) = true
  ∧ (PyStr.isdecimal (PyStr.strip l) = false
     ∨ PyStr.max_str_digits < String.length (PyStr.strip l)).
Proof.
  unfold parse_int, PyStr.int.
  destruct (PyStr.isdigit (PyStr.strip l)) eqn:Hd; [|done].
  destruct (PyStr.isdecimal (PyStr.strip l)) eqn:Ha.
  - destruct (String.length (PyStr.strip l) <=? PyStr.max_str_digits) eqn:Hlen.
    + cbn [andb]. by destruct ((lo <=? _) && (_ <=? hi)).
    + cbn [andb]. intros [= <-]. split; [done|]. split; [done|].
      right. by apply Nat.leb_gt.
  - cbn [andb]. intros [= <-]. split; [done|]. split; [done|]. by left.
Qed.

Lemma prompt_int_range_inv prompt lo hi w v w' :
  prompt_int prompt lo hi w = (Ok v, w') →
  lo ≤ v ≤ hi
  ∧ ∃ bad line,
      stdin w = bad ++ line :: stdin w'
      ∧ Forall (rejected (parse_int lo hi)) bad
      ∧ PyStr.int (PyStr.strip line) = Some v
      ∧ w' = World (stdin w') (stdout w ++ asked prompt (parse_int lo hi) bad)
               (disk w) (heap w) (entropy w) (drawn w).
Proof.
  unfold prompt_int.
  intros (bad & line & Hin & Hbad & Hline & Hw')%ask_until_ok_inv.
  apply parse_int_accept_inv in Hline as (Hd & Hv & Hr).
  split; [done|]. by exists bad, line.
Qed.

(** X1.  What [prompt_int] returns lies between the two bounds and is the
    decimal value of the trimmed line it accepted; the lines before that one
    were each answered with the range message, and nothing but the terminal
    changed. *)
Theorem prompt_int_in_range prompt lo hi w v w' :
  prompt_int prompt lo hi w = (Ok v, w') →
  lo ≤ v ≤ hi
  ∧ ∃ bad line,
      stdin w = bad ++ line :: stdin w'
      ∧ Forall (rejected (parse_int lo hi)) bad
      ∧ PyStr.isdigit (PyStr.strip line) = true
      ∧ PyStr.int (PyStr.strip line) = Some v
      ∧ stdout w' = stdout w ++ asked prompt (parse_int lo hi) bad
      ∧ disk w' = disk w ∧ heap w' = heap w ∧ drawn w' = drawn w.
Proof.
  unfold prompt_int.
  intros (bad & line & Hin & Hbad & Hline & ->)%ask_until_ok_inv.
  apply parse_int_accept_inv in Hline as (Hd & Hv & Hr).
  split; [done|]. by exists bad, line.
Qed.

Lemma prompt_int_in_range_witness :
  1 ≤ 2 ≤ 2
  ∧ ∃ bad line,
      stdin w_choice = bad ++ line :: ["after"]
      ∧ Forall (rejected (parse_int 1 2)) bad
      ∧ PyStr.isdigit (PyStr.strip line) = true
      ∧ PyStr.int (PyStr.strip line) = Some 2
      ∧ [Ask "Choose: "; Echo "Please enter a number from 1 to 2.";
         Ask "Choose: "; Echo "Please enter a number from 1 to 2."; Ask "Choose: "]
        = [] ++ asked "Choose: " (parse_int 1 2) bad
      ∧ None = disk w_choice ∧ heap w_choice = heap w_choice ∧ 0 = drawn w_choice.
Proof.
  exact (prompt_int_in_range "Choose: " 1 2 w_choice 2
           (World ["after"]
              [Ask "Choose: "; Echo "Please enter a number from 1 to 2.";
               Ask "Choose: "; Echo "Please enter a number from 1 to 2.";
               Ask "Choose: "]
              None (heap w_choice) (entropy w_choice) 0)
           ltac:(by vm_compute)).
Defined.

(** X2.  [prompt_int] passes to [int] every trimmed line that [isdigit]
    accepts, and nothing catches what [int] raises.  [int] raises
    [ValueError] on a line whose characters are digits without all being
    decimal digits (a superscript two), and on a line of more than
    [PyStr.max_str_digits] digits: on the first such line the prompt loop is
    left with that exception, the lines after it unread.  A [ValueError] of
    the loop comes from such a line only, and [EOFError], when the lines run
    out, is the only other way the loop raises. *)
Theorem prompt_int_value_error prompt lo hi w :
  (∀ bad line rest,
     stdin w = bad ++ line :: rest →
     Forall (rejected (parse_int lo hi)) bad →
     PyStr.isdigit (PyStr.strip line) = true →
     PyStr.isdecimal (PyStr.strip line) = false
     ∨ PyStr.max_str_digits < String.length (PyStr.strip line) →
     prompt_int prompt lo hi w =
       (Raise ValueError,
        World rest (stdout w ++ asked prompt (parse_int lo hi) bad)
          (disk w) (heap w) (entropy w) (drawn w)))
  ∧ (∀ e w', prompt_int prompt lo hi w = (Raise e, w') →
       (e = EOFError ∧ Forall (rejected (parse_int lo hi)) (stdin w))
       ∨ (e = ValueError
          ∧ ∃ bad line,
              stdin w = bad ++ line :: stdin w'
              ∧ Forall (rejected (parse_int lo hi)) bad
              ∧ PyStr.isdigit (PyStr.strip line) = true
              ∧ (PyStr.isdecimal (PyStr.strip line) = false
                 ∨ PyStr.max_str_digits < String.length (PyStr.strip line)))).
Proof.
  split.
  - intros bad line rest Hin Hbad Hd Ha. unfold prompt_int.
    eapply ask_until_fail_run; [done | by apply parse_int_fail | done].
  - intros e w' [(-> & Hall & _)|(bad & line & Hin & Hbad & Hline)]%ask_until_raise_inv.
    + by left.
    + right. apply parse_int_fail_inv in Hline as (-> & Hd & Ha).
      split; [done|]. by exists bad, line.
Qed.

Lemma prompt_int_value_error_witness :
  prompt_int "Choose: " 0 5 w_superscript =
    (Raise ValueError,
     World ["1"]
       ([] ++ asked "Choose: " (parse_int 0 5) ["nine"])
       None (heap w_superscript) (entropy w_superscript) 0).
Proof.
  destruct (prompt_int_value_error "Choose: " 0 5 w_superscript) as [Hraise _].
  exact (Hraise ["nine"] (String (ascii_of_nat 178) EmptyString) ["1"]
           eq_refl
           ltac:(constructor; [by eexists | constructor])
           ltac:(by vm_compute) ltac:(left; by vm_compute)).
Defined.

(** [int] converts a line of [PyStr.max_str_digits] digits, zeros included,
    and raises on one digit more: a line of zeros that long is not taken for
    the choice 0. *)
Example prompt_int_long_line :
  parse_int 0 5 (PyStr.repeat_char "0"%char PyStr.max_str_digits) = Accept 0
  ∧ parse_int 0 5 (PyStr.repeat_char "0"%char (S PyStr.max_str_digits))
    = Fail ValueError
  ∧ (prompt_int "Choose: " 0 5 (world0 [long_number; "1"] [] (λ _, 0%Z))).1
    = Raise ValueError.
Proof. by vm_compute. Qed.

Lemma parse_nonempty_rejected l :
  rejected parse_nonempty l ↔ PyStr.strip l = EmptyString.
Proof.
  unfold rejected, parse_nonempty. destruct (PyStr.strip l); simpl.
  - split; [done | by eexists].
  - split; [by intros [msg ?] | done].
Qed.

Lemma asked_nonempty p bad :
  Forall (rejected parse_nonempty) bad →
  asked p parse_nonempty bad
  = (bad ≫= λ _, [Ask p; Echo "Input cannot be empty."]) ++ [Ask p].
Proof.
  intros Hbad. unfold asked. f_equal.
  induction Hbad as [|b bad Hb _ IH]; [done|]. cbn. rewrite IH.
  apply parse_nonempty_rejected in Hb. by rewrite parse_nonempty_reject.
Qed.

(** X3.  [prompt_nonempty] returns the first line that is not blank, with
    the blanks around it removed, so its result is never empty and never
    starts or ends with whitespace.  Every blank line before it is answered
    with the same message; when all the lines are blank the loop ends with
    [EOFError], its only exception. *)
Theorem prompt_nonempty_first_nonblank prompt w :
  match prompt_nonempty prompt w with
  | (Ok s, w') =>
      tidy s
      ∧ ∃ blanks line,
          stdin w = blanks ++ line :: stdin w'
          ∧ Forall (λ l, PyStr.strip l = EmptyString) blanks
          ∧ s = PyStr.strip line
          ∧ stdout w' =
              stdout w
              ++ (blanks ≫= λ _, [Ask prompt; Echo "Input cannot be empty."])
              ++ [Ask prompt]
          ∧ disk w' = disk w ∧ heap w' = heap w ∧ drawn w' = drawn w
  | (Raise e, w') =>
      e = EOFError
      ∧ Forall (λ l, PyStr.strip l = EmptyString) (stdin w) ∧ stdin w' = []
  end.
Proof.
  unfold prompt_nonempty.
  destruct (ask_until prompt parse_nonempty w) as [[s|e] w'] eqn:Hrun.
  - apply ask_until_ok_inv in Hrun as (bad & line & Hin & Hbad & Hline & ->).
    split; [by eapply parse_nonempty_tidy|].
    exists bad, line. cbn. split; [done|]. split.
    { eapply Forall_impl; [done|]. intros l. by apply parse_nonempty_rejected. }
    split.
    { unfold parse_nonempty in Hline.
      destruct (PyStr.truthy (PyStr.strip line)); congruence. }
    by rewrite asked_nonempty.
  - apply ask_until_raise_inv in Hrun
      as [(-> & Hall & Hnil)|(bad & line & _ & _ & Hline)].
    + split; [done|]. split; [|done].
      eapply Forall_impl; [done|]. intros l. by apply parse_nonempty_rejected.
    + unfold parse_nonempty in Hline. by destruct (PyStr.truthy _).
Qed.

Lemma parse_confirm_rejected l : rejected parse_confirm l ↔ ¬ is_answer l.
Proof.
  unfold rejected, parse_confirm, is_answer.
  destruct (decide (PyStr.lower (PyStr.strip l) ∈ ["y"; "yes"])) as [Hy|Hy].
  { rewrite bool_decide_eq_true_2 by done.
    split; [by intros [msg ?] | intros Hn; destruct Hn; by left]. }
  rewrite bool_decide_eq_false_2 by done.
  destruct (decide (PyStr.lower (PyStr.strip l) ∈ ["n"; "no"])) as [Hn|Hn].
  { rewrite bool_decide_eq_true_2 by done.
    split; [by intros [msg ?] | intros Hno; destruct Hno; by right]. }
  rewrite bool_decide_eq_false_2 by done.
  split; [by intros _ [?|?] | by eexists].
Qed.

Lemma parse_confirm_accept_inv l yes :
  parse_confirm l = Accept yes →
  (yes = true ↔ PyStr.lower (PyStr.strip l) ∈ ["y"; "yes"])
  ∧ (yes = false ↔ PyStr.lower (PyStr.strip l) ∈ ["n"; "no"]).
Proof.
  unfold parse_confirm.
  destruct (decide (PyStr.lower (PyStr.strip l) ∈ ["y"; "yes"])) as [Hy|Hy].
  { rewrite bool_decide_eq_true_2 by done. intros [= <-].
    split; [done|]. split; [done|]. intros Hn.
    apply list_elem_of_In in Hy, Hn. revert Hy Hn.
    generalize (PyStr.lower (PyStr.strip l)). intros s. simpl.
    intros [<-|[<-|[]]] [?|[?|[]]]; done. }
  rewrite bool_decide_eq_false_2 by done.
  destruct (decide (PyStr.lower (PyStr.strip l) ∈ ["n"; "no"])) as [Hn|Hn].
  { rewrite bool_decide_eq_true_2 by done. by intros [= <-]. }
  by rewrite bool_decide_eq_false_2 by done.
Qed.

Lemma parse_confirm_fail_inv l e : parse_confirm l ≠ Fail e.
Proof. unfold parse_confirm. by repeat case_bool_decide. Qed.

Lemma parse_confirm_reject_msg l msg :
  parse_confirm l = Reject msg → msg = "Please type y or n.".
Proof.
  unfold parse_confirm. repeat case_bool_decide; congruence.
Qed.

Lemma asked_confirm p bad :
  Forall (rejected parse_confirm) bad →
  asked p parse_confirm bad
  = (bad ≫= λ _, [Ask p; Echo "Please type y or n."]) ++ [Ask p].
Proof.
  intros Hbad. unfold asked. f_equal.
  induction Hbad as [|b bad [msg Hb] _ IH]; [done|]. cbn. rewrite IH, Hb.
  by apply parse_confirm_reject_msg in Hb as ->.
Qed.

(** X4.  [confirm] answers with the first line that, trimmed and in lower
    case, is one of [y], [yes], [n], [no]: true for the first two, false for
    the other two.  Every other line before it is answered with the same
    message; when no line is an answer the loop ends with [EOFError], its
    only exception. *)
Theorem confirm_first_answer prompt w :
  match confirm prompt w with
  | (Ok yes, w') =>
      ∃ others line,
        stdin w = others ++ line :: stdin w'
        ∧ Forall (λ l, ¬ is_answer l) others
        ∧ (yes = true ↔ PyStr.lower (PyStr.strip line) ∈ ["y"; "yes"])
        ∧ (yes = false ↔ PyStr.lower (PyStr.strip line) ∈ ["n"; "no"])
        ∧ stdout w' =
            stdout w
            ++ (others ≫= λ _, [Ask (prompt +:+ " (y/n): ");
                                Echo "Please type y or n."])
            ++ [Ask (prompt +:+ " (y/n): ")]
        ∧ disk w' = disk w ∧ heap w' = heap w ∧ drawn w' = drawn w
  | (Raise e, w') =>
      e = EOFError ∧ Forall (λ l, ¬ is_answer l) (stdin w) ∧ stdin w' = []
  end.
Proof.
  unfold confirm.
  destruct (ask_until _ parse_confirm w) as [[yes|e] w'] eqn:Hrun.
  - apply ask_until_ok_inv in Hrun as (bad & line & Hin & Hbad & Hline & ->).
    exists bad, line. cbn. split; [done|]. split.
    { eapply Forall_impl; [done|]. intros l. by apply parse_confirm_rejected. }
    rewrite asked_confirm by done.
    apply parse_confirm_accept_inv in Hline as [Hy Hn]. by split_and!.
  - apply ask_until_raise_inv in Hrun
      as [(-> & Hall & Hnil)|(bad & line & _ & _ & Hline)].
    + split; [done|]. split; [|done].
      eapply Forall_impl; [done|]. intros l. by apply parse_confirm_rejected.
    + unfold parse_confirm in Hline. repeat case_bool_decide; congruence.
Qed.

(** ** Selecting from a list *)

Lemma print_items_lines i items w :
  print_items i items w =
    (Ok tt, World (stdin w) (stdout w ++ menu_lines i items) (disk w) (heap w)
              (entropy w) (drawn w)).
Proof.
  revert i w. induction items as [|name items IH]; intros i [ins out dsk hp ent dr].
  - unfold print_items, ret. cbn. by rewrite app_nil_r.
  - unfold print_items. fold print_items. unfold bind, print, emit.
    rewrite IH. cbn. by rewrite <- app_assoc.
Qed.

(** The start of [select_from_list] on a list that is not empty: the title,
    the items, the cancel line, and then the prompt. *)
Lemma select_from_list_start title items w :
  items ≠ [] →
  select_from_list title items w =
    (let* choice := prompt_int "Choose: " 0 (length items) in
     if choice =? 0 then ret None
     else match items !! (choice - 1) with
          | Some name => ret (Some name)
          | None => raise IndexError
          end)
      (World (stdin w)
         (stdout w ++ Echo title :: menu_lines 1 items ++ [Echo "  0) Cancel"])
         (disk w) (heap w) (entropy w) (drawn w)).
Proof.
  intros Hne. destruct w as [ins out dsk hp ent dr].
  destruct items as [|n0 items]; [done|].
  unfold select_from_list. unfold bind at 1, print at 1, emit. cbn [fst snd].
  unfold bind at 1. rewrite print_items_lines. cbn [stdin stdout disk heap entropy drawn].
  unfold bind at 1, print at 1, emit.
  by rewrite <- !app_assoc.
Qed.

Lemma select_from_list_picked title items w :
  items ≠ [] →
  match select_from_list title items w with
  | (Ok picked, w') =>
      ∃ bad line k,
        stdin w = bad ++ line :: stdin w'
        ∧ Forall (rejected (parse_int 0 (length items))) bad
        ∧ PyStr.int (PyStr.strip line) = Some k
        ∧ k ≤ length items
        ∧ picked = (if k =? 0 then None else items !! (k - 1))
        ∧ (0 < k → is_Some picked)
        ∧ stdout w' = stdout w ++ select_shown title items bad
  | (Raise e, w') => e = EOFError ∨ e = ValueError
  end.
Proof.
  intros Hne. rewrite select_from_list_start by done. unfold bind.
  destruct (prompt_int _ _ _ _) as [[k|e] w1] eqn:Hrun.
  - apply prompt_int_range_inv in Hrun
      as (Hk & bad & line & Hin & Hbad & Hv & Hw1).
    cbn in Hin. apply (f_equal stdout) in Hw1. cbn in Hw1.
    assert (Hout : stdout w1 = stdout w ++ select_shown title items bad).
    { rewrite Hw1. unfold select_shown.
      rewrite <- !app_assoc. cbn. by rewrite <- !app_assoc. }
    destruct (k =? 0) eqn:Hk0.
    + unfold ret. exists bad, line, k. rewrite Hk0.
      apply Nat.eqb_eq in Hk0. split_and!; try done; lia.
    + destruct (lookup_lt_is_Some_2 items (k - 1)) as [name Hname].
      { apply Nat.eqb_neq in Hk0. lia. }
      rewrite Hname. unfold ret. exists bad, line, k. rewrite Hk0.
      split_and!; try done; lia.
  - unfold prompt_int in Hrun.
    apply ask_until_raise_inv in Hrun as [(-> & _)|(bad & line & _ & _ & Hline)].
    + by left.
    + apply parse_int_fail_inv in Hline as (-> & _). by right.
Qed.

(** X5.  [select_from_list] on an empty list prints one line, reads
    nothing and selects nothing.  Otherwise the number it accepts is 0,
    which selects nothing, or the position of an item of the list, counted
    from 1, which is the item it returns; the index it uses is never out of
    range.  It changes neither the list objects nor the file. *)
Theorem select_from_list_choice title items w :
  (items = [] →
   select_from_list title items w =
     (Ok None,
      World (stdin w) (stdout w ++ [Echo "Nothing to select."])
        (disk w) (heap w) (entropy w) (drawn w)))
  ∧ (items ≠ [] →
     match select_from_list title items w with
     | (Ok picked, w') =>
         ∃ bad line k,
           stdin w = bad ++ line :: stdin w'
           ∧ Forall (rejected (parse_int 0 (length items))) bad
           ∧ PyStr.int (PyStr.strip line) = Some k
           ∧ k ≤ length items
           ∧ picked = (if k =? 0 then None else items !! (k - 1))
           ∧ (0 < k → is_Some picked)
           ∧ stdout w' = stdout w ++ select_shown title items bad
     | (Raise e, w') => e = EOFError ∨ e = ValueError
     end)
  ∧ heap (select_from_list title items w).2 = heap w
  ∧ disk (select_from_list title items w).2 = disk w.
Proof.
  split; [|split].
  - intros ->. by destruct w.
  - apply select_from_list_picked.
  - by destruct (stable_select_from_list title items w) as (_ & ? & ?).
Qed.

Lemma select_from_list_choice_witness :
  match select_from_list "Open which collection?" ["French"; "Spanish"] w_pick with
  | (Ok picked, w') =>
      ∃ bad line k,
        stdin w_pick = bad ++ line :: stdin w'
        ∧ Forall (rejected (parse_int 0 2)) bad
        ∧ PyStr.int (PyStr.strip line) = Some k
        ∧ k ≤ 2
        ∧ picked = (if k =? 0 then None else ["French"; "Spanish"] !! (k - 1))
        ∧ (0 < k → is_Some picked)
        ∧ stdout w' = stdout w_pick
                      ++ select_shown "Open which collection?" ["French"; "Spanish"] bad
  | (Raise e, w') => e = EOFError ∨ e = ValueError
  end.
Proof.
  exact (proj1 (proj2 (select_from_list_choice "Open which collection?"
                         ["French"; "Spanish"] w_pick)) ltac:(done)).
Defined.

Example select_from_list_example :
  (select_from_list "Open which collection?" ["French"; "Spanish"] w_pick).1
  = Ok (Some "Spanish")
  ∧ stdin (select_from_list "Open which collection?" ["French"; "Spanish"] w_pick).2
    = ["after"].
Proof. by vm_compute. Qed.

(** ** The collections in order *)

Lemma string_compare_refl s : String.compare s s = Eq.
Proof.
  induction s as [|c s IH]; [done|]. simpl.
  unfold Ascii.compare. by rewrite N.compare_refl.
Qed.

Lemma string_compare_trans c s1 s2 s3 :
  String.compare s1 s2 = c → String.compare s2 s3 = c → String.compare s1 s3 = c.
Proof.
  revert s2 s3. induction s1 as [|a s1 IH]; intros [|b s2] [|d s3]; simpl;
    try congruence.
  unfold Ascii.compare.
  destruct (N.compare_spec (N_of_ascii a) (N_of_ascii b)) as [Hab|Hab|Hab];
    destruct (N.compare_spec (N_of_ascii b) (N_of_ascii d)) as [Hbd|Hbd|Hbd];
    destruct (N.compare_spec (N_of_ascii a) (N_of_ascii d)) as [Had|Had|Had];
    try congruence; try lia.
  apply IH.
Qed.

Lemma string_compare_eq_l s1 s2 s3 :
  String.compare s1 s2 = Eq → String.compare s1 s3 = String.compare s2 s3.
Proof. by intros ->%String.compare_eq_iff. Qed.

Lemma string_leb_trans s1 s2 s3 :
  String.leb s1 s2 = true → String.leb s2 s3 = true → String.leb s1 s3 = true.
Proof.
  unfold String.leb.
  destruct (String.compare s1 s2) eqn:H12; [| |done]; intros _.
  - by rewrite (string_compare_eq_l s1 s2 s3).
  - destruct (String.compare s2 s3) eqn:H23; [| |done]; intros _.
    + apply String.compare_eq_iff in H23 as ->. by rewrite H12.
    + by rewrite (string_compare_trans Lt s1 s2 s3).
Qed.

#[local] Instance string_leb_transitive : Transitive (λ a b : string, String.leb a b).
Proof.
  intros s1 s2 s3 H12%Is_true_true H23%Is_true_true.
  apply Is_true_true. by eapply string_leb_trans.
Qed.

#[local] Instance string_leb_total : Total (λ a b : string, String.leb a b).
Proof.
  intros s1 s2. destruct (String.leb_total s1 s2) as [Hle|Hle];
    [left | right]; by apply Is_true_true.
Qed.

Lemma list_collections_elem (data : collections) name :
  name ∈ list_collections data ↔ is_Some (data !! name).
Proof.
  unfold list_collections. rewrite merge_sort_Permutation.
  rewrite list_elem_of_fmap. split.
  - intros ([k l] & -> & Hkl%elem_of_map_to_list). by exists l.
  - intros [l Hl]. exists (name, l). split; [done|]. by apply elem_of_map_to_list.
Qed.

(** X6.  [list_collections] gives every name of the dictionary exactly
    once, in ascending order of code points: each name is at most every name
    after it.  It is the only such arrangement of the names. *)
Theorem list_collections_sorted (data : collections) :
  StronglySorted (λ a b, String.leb a b = true) (list_collections data)
  ∧ NoDup (list_collections data)
  ∧ (∀ name, name ∈ list_collections data ↔ is_Some (data !! name))
  ∧ length (list_collections data) = size data
  ∧ (∀ names,
       names ≡ₚ (map_to_list data).*1 →
       StronglySorted (λ a b, String.leb a b = true) names →
       names = list_collections data).
Proof.
  assert (Hsorted : StronglySorted (λ a b, String.leb a b = true)
                      (list_collections data)).
  { unfold list_collections.
    pose proof (StronglySorted_merge_sort (λ a b : string, String.leb a b)
                  (map_to_list data).*1) as Hs.
    induction Hs as [|x l _ IH Hall]; constructor; [done|].
    eapply Forall_impl; [done|]. intros y. apply Is_true_true. }
  assert (Hperm : list_collections data ≡ₚ (map_to_list data).*1).
  { unfold list_collections. apply merge_sort_Permutation. }
  split_and!.
  - done.
  - rewrite Hperm. apply NoDup_fst_map_to_list.
  - apply list_collections_elem.
  - rewrite Hperm, length_fmap. apply length_map_to_list.
  - intros names Hnames Hs.
    apply (StronglySorted_unique_strong (λ a b, String.leb a b = true));
      [|done|done|by rewrite Hperm].
    intros x1 x2 _ _. apply String.leb_antisym.
Qed.

(** ** Deleting a collection *)

Lemma snapshot_delete (h : gmap loc (list card)) (data : collections) name :
  snapshot h (delete name data) = delete name (snapshot h data).
Proof. unfold snapshot. apply fmap_delete. Qed.

(** X7.  [delete_collection] offers the names in the order of
    [list_collections].  Choosing 0 changes nothing.  Choosing the number of
    a name and answering the confirmation with yes removes exactly that name
    from the dictionary: every other name keeps its cards, no list object is
    touched, and the registry without the collection is what is written to
    the file.  Answering no changes nothing.  A collection whose name is the
    empty string cannot be deleted: choosing it is taken as a cancel, and
    nothing is asked. *)
Theorem delete_collection_cascade `{JsonCodec} (data : collections) w bad line k rest :
  list_collections data ≠ [] →
  stdin w = bad ++ line :: rest →
  Forall (rejected (parse_int 0 (length (list_collections data)))) bad →
  parse_int 0 (length (list_collections data)) line = Accept k →
  let shown := stdout w ++ select_shown "Delete which collection?"
                             (list_collections data) bad in
  (k = 0 →
   delete_collection data w =
     (Ok data, World rest shown (disk w) (heap w) (entropy w) (drawn w)))
  ∧ (list_collections data !! (k - 1) = Some EmptyString → 0 < k →
     delete_collection data w =
       (Ok data, World rest shown (disk w) (heap w) (entropy w) (drawn w)))
  ∧ (∀ name answer rest',
       0 < k → list_collections data !! (k - 1) = Some name →
       name ≠ EmptyString → rest = answer :: rest' →
       let question :=
         Ask (("Delete collection '" +:+ name +:+ "' and ALL its cards?")
              +:+ " (y/n): ") in
       is_Some (data !! name)
       ∧ (parse_confirm answer = Accept true → disk w ≠ Some Unreadable →
          delete_collection data w =
            (Ok (delete name data),
             World rest' (shown ++ [question; Echo "Deleted."])
               (Some (Content (json_dumps
                  (encode_registry (delete name (snapshot (heap w) data))))))
               (heap w) (entropy w) (drawn w))
          ∧ ∀ other, other ≠ name →
              delete name (snapshot (heap w) data) !! other
              = snapshot (heap w) data !! other)
       ∧ (parse_confirm answer = Accept false →
          delete_collection data w =
            (Ok data,
             World rest' (shown ++ [question]) (disk w) (heap w)
               (entropy w) (drawn w)))).
Proof.
  intros Hne Hin Hbad Hline shown.
  assert (Hselect :
    delete_collection data w =
      (let* name := (λ w1, (Ok (if k =? 0 then None
                                else list_collections data !! (k - 1)),
                            World rest shown (disk w) (heap w) (entropy w) (drawn w)))
       in match name with
          | None => ret data
          | Some name =>
              if PyStr.truthy name then
                let* yes := confirm ("Delete collection '" +:+ name
                                     +:+ "' and ALL its cards?") in
                if yes then
                  match data !! name with
                  | Some _ =>
                      save_data (delete name data) ;;;
                      print "Deleted." ;;; ret (delete name data)
                  | None => raise KeyError
                  end
                else ret data
              else ret data
          end) w).
  { unfold delete_collection. cbv zeta. unfold bind at 1 3.
    rewrite select_from_list_start by done. unfold bind at 1, prompt_int.
    erewrite (ask_until_run "Choose: " _ bad line rest k); [|done|done|done].
    cbn [stdin stdout disk heap entropy drawn].
    assert (Hshown : (stdout w ++ Echo "Delete which collection?"
                        :: menu_lines 1 (list_collections data)
                        ++ [Echo "  0) Cancel"])
                     ++ asked "Choose: "
                          (parse_int 0 (length (list_collections data))) bad
                     = shown).
    { unfold shown, select_shown. rewrite <- !app_assoc. cbn.
      by rewrite <- !app_assoc. }
    rewrite Hshown.
    apply parse_int_accept_inv in Hline as (_ & _ & Hk).
    destruct (k =? 0) eqn:Hk0; [done|].
    apply Nat.eqb_neq in Hk0.
    destruct (lookup_lt_is_Some_2 (list_collections data) (k - 1)) as [name Hname];
      [lia|].
    by rewrite Hname. }
  rewrite Hselect. clear Hselect. split_and!.
  - by intros ->.
  - intros Hname Hk. unfold bind at 1.
    rewrite (proj2 (Nat.eqb_neq k 0)) by lia. by rewrite Hname.
  - intros name answer rest' Hk Hname Hnonempty ->. unfold bind.
    rewrite (proj2 (Nat.eqb_neq k 0)) by lia. rewrite Hname.
    assert (Hsome : is_Some (data !! name)).
    { apply list_collections_elem, list_elem_of_lookup. eauto. }
    split; [done|].
    destruct name as [|c name]; [done|]. cbn [PyStr.truthy].
    unfold confirm. split.
    + intros Hyes Hd.
      erewrite (ask_until_run _ parse_confirm [] answer rest' true); [|done|done|done].
      destruct Hsome as [l ->]. rewrite save_data_run by done. cbn.
      rewrite snapshot_delete. unfold asked. cbn. rewrite <- !app_assoc. cbn.
      split; [done|]. intros other Hother. by rewrite lookup_delete_ne.
    + intros Hno.
      erewrite (ask_until_run _ parse_confirm [] answer rest' false); [|done|done|done].
      unfold asked, ret. cbn. done.
Qed.

Lemma delete_collection_cascade_witness :
  @delete_collection sample_codec two_collections w_delete_collection =
    (Ok {["Spanish" := 0]},
     World ["after"]
       ([Echo "Delete which collection?"; Echo "  1) French"; Echo "  2) Spanish";
         Echo "  0) Cancel"; Ask "Choose: "]
        ++ [Ask "Delete collection 'French' and ALL its cards? (y/n): ";
            Echo "Deleted."])
       (Some (Content "{}"))
       (heap w_delete_collection) (entropy w_delete_collection) 0).
Proof.
  destruct (@delete_collection_cascade sample_codec two_collections
              w_delete_collection [] "1" 1 ["Yes"; "after"]
              ltac:(by vm_compute) eq_refl ltac:(constructor) ltac:(by vm_compute))
    as (_ & _ & Hpick).
  destruct (Hpick "French" "Yes" ["after"] ltac:(lia) ltac:(by vm_compute)
              ltac:(done) eq_refl) as (_ & Hyes & _).
  destruct (Hyes ltac:(by vm_compute) ltac:(done)) as [Hrun _].
  rewrite Hrun. by vm_compute.
Defined.

(** ** Cards by id *)

Lemma find_card_from_spec k cards cid :
  match find_card_from k cards cid with
  | Some (i, c) =>
      ∃ j, i = k + j ∧ cards !! j = Some c ∧ id c = cid
           ∧ ∀ j' x, j' < j → cards !! j' = Some x → id x ≠ cid
  | None => ∀ c, c ∈ cards → id c ≠ cid
  end.
Proof.
  revert k. induction cards as [|a cards IH]; intros k; simpl.
  - by intros c ?%elem_of_nil.
  - destruct (String.eqb (id a) cid) eqn:Ha.
    + apply String.eqb_eq in Ha. exists 0. split; [lia|]. split; [done|].
      split; [done|]. intros j' x Hj'. lia.
    + apply String.eqb_neq in Ha. specialize (IH (S k)).
      destruct (find_card_from (S k) cards cid) as [[i c]|].
      * destruct IH as (j & -> & Hj & Hid & Hfirst). exists (S j).
        split; [lia|]. split; [done|]. split; [done|].
        intros [|j'] x Hj' Hx; simpl in Hx; [by injection Hx as <- |].
        apply (Hfirst j' x); [lia | done].
      * intros c [->|Hc]%elem_of_cons; [done | by apply IH].
Qed.

(** The same for [find_card], the form the proofs below use. *)
Lemma find_card_found cards cid :
  match find_card cards cid with
  | Some (i, c) =>
      cards !! i = Some c ∧ id c = cid
      ∧ ∀ j x, j < i → cards !! j = Some x → id x ≠ cid
  | None => ∀ c, c ∈ cards → id c ≠ cid
  end.
Proof.
  unfold find_card. pose proof (find_card_from_spec 0 cards cid) as Hspec.
  destruct (find_card_from 0 cards cid) as [[i c]|]; [|done].
  by destruct Hspec as (j & -> & ? & ? & ?).
Qed.

(** X8.  [find_card] returns the first card of the list that has the id,
    at its position, and nothing exactly when no card of the list has the
    id. *)
Theorem find_card_first_match cards cid :
  match find_card cards cid with
  | Some (i, c) =>
      cards !! i = Some c ∧ id c = cid
      ∧ ∀ j x, j < i → cards !! j = Some x → id x ≠ cid
  | None => ∀ c, c ∈ cards → id c ≠ cid
  end.
Proof.
  unfold find_card. pose proof (find_card_from_spec 0 cards cid) as Hspec.
  destruct (find_card_from 0 cards cid) as [[i c]|]; [|done].
  destruct Hspec as (j & -> & Hj & Hid & Hfirst). by split_and!.
Qed.

Lemma find_card_from_app k cards c cid :
  find_card_from k (cards ++ [c]) cid =
    match find_card_from k cards cid with
    | Some r => Some r
    | None => if String.eqb (id c) cid then Some (k + length cards, c) else None
    end.
Proof.
  revert k. induction cards as [|a cards IH]; intros k; simpl.
  - by rewrite Nat.add_0_r.
  - destruct (String.eqb (id a) cid); [done|]. rewrite IH.
    destruct (find_card_from (S k) cards cid); [done|].
    destruct (String.eqb (id c) cid); [|done]. do 2 f_equal. lia.
Qed.

(** X9.  [add_card] puts the new card at the end of the stored list: the
    cards before it keep their positions, no other list object changes, and
    the registry with the card is what is written to the file.  Afterwards
    an id that a stored card already had is found where it was, and the id
    of the new card, if no stored card had it, is found at the end. *)
Theorem add_card_appends `{JsonCodec} data col l cards w f b rest :
  data !! col = Some l → heap w !! l = Some cards →
  stdin w = f :: b :: rest →
  PyStr.strip f ≠ EmptyString → PyStr.strip b ≠ EmptyString →
  disk w ≠ Some Unreadable →
  ∃ c w',
    add_card data col w = (Ok tt, w')
    ∧ c = Card (PyStr.slice_to 8
                  (PyStr.format_032x (uuid4_int (entropy w (drawn w) mod 2 ^ 128))))
               (PyStr.strip f) (PyStr.strip b)
    ∧ heap w' = <[l := cards ++ [c]]> (heap w)
    ∧ (∀ i x, cards !! i = Some x → (cards ++ [c]) !! i = Some x)
    ∧ (cards ++ [c]) !! length cards = Some c
    ∧ on_file data w'
    ∧ stdin w' = rest ∧ drawn w' = S (drawn w)
    ∧ stdout w' = stdout w ++ [Ask "Front: "; Ask "Back: ";
                               Echo ("Added card " +:+ id c +:+ ".")]
    ∧ ∀ cid,
        find_card (cards ++ [c]) cid =
          match find_card cards cid with
          | Some found => Some found
          | None => if String.eqb (id c) cid then Some (length cards, c) else None
          end.
Proof.
  intros Hcol Hl Hin Hf Hb Hd.
  destruct w as [ins out dsk hp ent dr]; simpl in *; subst.
  unfold add_card. run.
  rewrite (parse_nonempty_accept f) by done. cbn.
  rewrite (parse_nonempty_accept b) by done. cbn.
  rewrite Hcol. cbn. rewrite Hl. cbn.
  rewrite save_data_run by done. cbn.
  eexists _, _. split; [done|]. split; [done|]. cbn.
  split_and!; try done.
  - intros i x Hx. by apply lookup_app_l_Some.
  - by apply list_lookup_middle.
  - by rewrite <- !app_assoc.
  - intros cid. unfold find_card. by rewrite find_card_from_app.
Qed.

Lemma add_card_appends_witness :
  ∃ c w',
    @add_card sample_codec spanish "Spanish" w_add = (Ok tt, w')
    ∧ c = Card "deadbeef" "hola" "hello"
    ∧ heap w' = <[0 := [gato] ++ [c]]> (heap w_add)
    ∧ stdin w' = [] ∧ drawn w' = 1
    ∧ find_card ([gato] ++ [c]) "deadbeef" = Some (1, c)
    ∧ find_card ([gato] ++ [c]) "0f9e8d7c" = Some (0, gato).
Proof.
  destruct (@add_card_appends sample_codec spanish "Spanish" 0 [gato] w_add
              " hola" "hello " [] eq_refl eq_refl eq_refl
              ltac:(by vm_compute) ltac:(by vm_compute) ltac:(by vm_compute))
    as (c & w' & Hrun & Hc & Hheap & _ & _ & _ & Hin & Hdr & _ & Hfind).
  exists c, w'. split; [exact Hrun|]. split; [rewrite Hc; by vm_compute|].
  split; [exact Hheap|]. split; [exact Hin|]. split; [exact Hdr|].
  rewrite !Hfind, Hc. by vm_compute.
Defined.

(** X10.  [add_card] does not look at the ids already in the list.  When
    the random value gives an id that a stored card has, the new card is
    appended all the same: two cards then carry one id, and looking the id
    up still finds the older card, so the new card cannot be reached by its
    id. *)
Theorem add_card_id_collision `{JsonCodec} data col l cards w f b rest i old :
  data !! col = Some l → heap w !! l = Some cards →
  stdin w = f :: b :: rest →
  PyStr.strip f ≠ EmptyString → PyStr.strip b ≠ EmptyString →
  disk w ≠ Some Unreadable →
  cards !! i = Some old →
  id old = PyStr.slice_to 8
             (PyStr.format_032x (uuid4_int (entropy w (drawn w) mod 2 ^ 128))) →
  ∃ c w' found,
    add_card data col w = (Ok tt, w')
    ∧ heap w' !! l = Some (cards ++ [c])
    ∧ id c = id old
    ∧ ¬ NoDup (id <$> cards ++ [c])
    ∧ find_card cards (id c) = Some found
    ∧ find_card (cards ++ [c]) (id c) = Some found
    ∧ found.1 < length cards.
Proof.
  intros Hcol Hl Hin Hf Hb Hd Hi Hid.
  destruct w as [ins out dsk hp ent dr]; simpl in *; subst ins.
  unfold add_card. run.
  rewrite (parse_nonempty_accept f) by done. cbn.
  rewrite (parse_nonempty_accept b) by done. cbn.
  rewrite Hcol. cbn. rewrite Hl. cbn.
  rewrite save_data_run by done. cbn. rewrite <- Hid.
  pose proof (find_card_from_spec 0 cards (id old)) as Hspec.
  destruct (find_card_from 0 cards (id old)) as [[j x]|] eqn:Hfound.
  - destruct Hspec as (j' & -> & Hj & _).
    eexists (Card _ _ _), _, (0 + j', x). split; [done|]. cbn.
    split; [by rewrite lookup_insert_eq|]. split; [done|]. split.
    { rewrite fmap_app. cbn. intros [_ [Hnot _]]%NoDup_app.
      - apply (Hnot (id old)); [|left].
        apply list_elem_of_fmap. exists old. split; [done|].
        apply list_elem_of_lookup. eauto. }
    split; [done|]. split.
    + unfold find_card. by rewrite find_card_from_app, Hfound.
    + by apply lookup_lt_Some in Hj.
  - exfalso. apply (Hspec old); [|done]. apply list_elem_of_lookup. eauto.
Qed.

Lemma add_card_id_collision_witness :
  ∃ c w' found,
    @add_card sample_codec spanish "Spanish" w_collision = (Ok tt, w')
    ∧ heap w' !! 0 = Some ([gato; Card "deadbeef" "bos" "ox"] ++ [c])
    ∧ id c = "deadbeef"
    ∧ ¬ NoDup (id <$> [gato; Card "deadbeef" "bos" "ox"] ++ [c])
    ∧ find_card [gato; Card "deadbeef" "bos" "ox"] (id c) = Some found
    ∧ find_card ([gato; Card "deadbeef" "bos" "ox"] ++ [c]) (id c) = Some found
    ∧ found.1 < 2.
Proof.
  exact (@add_card_id_collision sample_codec spanish "Spanish" 0
           [gato; Card "deadbeef" "bos" "ox"] w_collision " hola" "hello " []
           1 (Card "deadbeef" "bos" "ox") eq_refl eq_refl eq_refl
           ltac:(by vm_compute) ltac:(by vm_compute) ltac:(by vm_compute)
           eq_refl ltac:(by vm_compute)).
Defined.

Lemma ids_of_insert_same h l (cs cs' : list card) :
  h !! l = Some cs → id <$> cs' = id <$> cs → ids_of (<[l := cs']> h) = ids_of h.
Proof.
  intros Hl Hids. unfold ids_of. rewrite fmap_insert, Hids.
  apply insert_id. by rewrite lookup_fmap, Hl.
Qed.

(** X11.  [edit_card] never changes an id, the number of cards or their
    order: whatever is typed and however the call ends, every list object
    holds the same ids in the same order as before. *)
Theorem edit_card_keeps_ids `{JsonCodec} data col w :
  ids_of (heap (edit_card data col w).2) = ids_of (heap w).
Proof.
  destruct (edit_card_heap data col w)
    as [->|(l & cards & i & c & c' & _ & Hl & Hi & -> & Hid & _)]; [done|].
  apply (ids_of_insert_same _ _ cards); [done|].
  rewrite list_fmap_insert, Hid. apply list_insert_id.
  by rewrite list_lookup_fmap, Hi.
Qed.

Lemma list_remove_sublist c cards : list_remove c cards `sublist_of` cards.
Proof.
  induction cards as [|a cards IH]; [done|].
  unfold list_remove. fold list_remove. case_decide.
  - by apply sublist_cons.
  - by apply sublist_skip.
Qed.

Lemma list_remove_length c cards :
  length cards ≤ S (length (list_remove c cards)).
Proof.
  induction cards as [|a cards IH]; [simpl; lia|].
  unfold list_remove. fold list_remove. case_decide; simpl; lia.
Qed.

(** X12.  [delete_card] removes at most one card and never reorders:
    whatever is typed and however the call ends, every list object that is
    there afterwards was there before, and its cards are the cards it had, in
    the same order, with at most one left out. *)
Theorem delete_card_at_most_one `{JsonCodec} data col w l cs' :
  heap (delete_card data col w).2 !! l = Some cs' →
  ∃ cs, heap w !! l = Some cs ∧ cs' `sublist_of` cs
        ∧ length cs ≤ S (length cs').
Proof.
  destruct (delete_card_heap data col w)
    as [->|(l0 & cards & c & _ & Hl0 & ->)].
  - intros Hl. exists cs'. split; [done|]. split; [done | lia].
  - destruct (decide (l = l0)) as [->|Hne].
    + rewrite lookup_insert_eq. intros [= <-]. exists cards. split; [done|].
      split; [apply list_remove_sublist | apply list_remove_length].
    + rewrite lookup_insert_ne by done. intros Hl. exists cs'.
      split; [done|]. split; [done | lia].
Qed.

Lemma delete_card_at_most_one_witness :
  ∃ cs, heap w_delete !! 0 = Some cs ∧ [hola; perro] `sublist_of` cs
        ∧ length cs ≤ S (length [hola; perro]).
Proof.
  exact (@delete_card_at_most_one sample_codec spanish "Spanish" w_delete 0
           [hola; perro] ltac:(by vm_compute)).
Defined.

(** X13.  With ids that are all different, a confirmed [delete_card]
    leaves no card with the deleted id: the id is no longer found, every
    other card is still in the list, found under its id as before, and the
    ids stay all different. *)
Theorem delete_card_unique_ids `{JsonCodec}
    data col l cards w i c idline answer rest :
  data !! col = Some l → heap w !! l = Some cards →
  NoDup (id <$> cards) →
  cards !! i = Some c → PyStr.strip idline = id c → id c ≠ EmptyString →
  stdin w = idline :: answer :: rest →
  parse_confirm answer = Accept true → disk w ≠ Some Unreadable →
  ∃ cards' w',
    delete_card data col w = (Ok tt, w')
    ∧ heap w' = <[l := cards']> (heap w)
    ∧ cards' = take i cards ++ drop (S i) cards
    ∧ find_card cards' (id c) = None
    ∧ NoDup (id <$> cards')
    ∧ (∀ x, x ∈ cards → id x ≠ id c → x ∈ cards')
    ∧ (∀ j x, find_card cards (id x) = Some (j, x) → id x ≠ id c →
         ∃ j', find_card cards' (id x) = Some (j', x))
    ∧ on_file data w' ∧ stdin w' = rest.
Proof.
  intros Hcol Hl Hnodup Hi Hid Hne Hin Hyes Hd.
  assert (Hunique : ∀ j x, cards !! j = Some x → id x = id c → j = i).
  { intros j x Hj Hx. eapply (NoDup_lookup (id <$> cards)); [done| |].
    - by rewrite list_lookup_fmap, Hj.
    - rewrite list_lookup_fmap, Hi. cbn. by rewrite Hx. }
  assert (Hfind : find_card cards (PyStr.strip idline) = Some (i, c)).
  { rewrite Hid. apply find_card_first; [done | done |].
    intros j x Hj Hx Hsame. apply Hunique in Hx; [lia | done]. }
  assert (Hrem : list_remove c cards = take i cards ++ drop (S i) cards).
  { apply list_remove_first; [done|]. intros j x Hj Hx ->.
    apply Hunique in Hx; [lia | done]. }
  assert (Hids : id <$> take i cards ++ drop (S i) cards
                 = take i (id <$> cards) ++ drop (S i) (id <$> cards)).
  { by rewrite fmap_app, fmap_take, fmap_drop. }
  assert (Hsplit : id <$> cards
                   = take i (id <$> cards) ++ id c :: drop (S i) (id <$> cards)).
  { symmetry. apply take_drop_middle. by rewrite list_lookup_fmap, Hi. }
  assert (Hgone : ∀ x, x ∈ take i cards ++ drop (S i) cards → id x ≠ id c).
  { intros x Hx Hsame. rewrite Hsplit in Hnodup.
    apply NoDup_app in Hnodup as (_ & Hl1 & Hl2).
    apply NoDup_cons in Hl2 as [Hnotin _].
    assert (Hidx : id x ∈ id <$> take i cards ++ drop (S i) cards).
    { apply list_elem_of_fmap. eauto. }
    rewrite Hids in Hidx. apply elem_of_app in Hidx as [Hx1|Hx2].
    - apply (Hl1 (id x)); [done|]. rewrite Hsame. left.
    - apply Hnotin. by rewrite <- Hsame. }
  assert (Hkept : ∀ x, x ∈ cards → id x ≠ id c →
                       x ∈ take i cards ++ drop (S i) cards).
  { intros x Hx Hdiff. rewrite <- (take_drop_middle cards i c Hi) in Hx.
    apply elem_of_app in Hx as [Hx|Hx]; [apply elem_of_app; by left|].
    apply elem_of_cons in Hx as [->|Hx]; [done|]. apply elem_of_app. by right. }
  assert (Hnodup' : NoDup (id <$> take i cards ++ drop (S i) cards)).
  { rewrite Hids. rewrite Hsplit in Hnodup.
    apply NoDup_app in Hnodup as (Hn1 & Hl1 & Hn2).
    apply NoDup_cons in Hn2 as [_ Hn2].
    apply NoDup_app. split; [done|]. split; [|done].
    intros y Hy1 Hy2. apply (Hl1 y); [done | by right]. }
  destruct w as [ins out dsk hp ent dr]; simpl in *; subst ins.
  unfold delete_card. run. rewrite Hcol. cbn. rewrite Hl. cbn.
  destruct cards as [|c0 cs] eqn:Hcards; [done|]. rewrite <- Hcards in *.
  rewrite list_cards_run. cbn.
  rewrite (parse_nonempty_accept idline) by (by rewrite Hid). cbn.
  rewrite Hfind. cbn. rewrite Hyes. cbn.
  rewrite save_data_run by done. cbn. rewrite Hrem.
  eexists _, _. split; [done|]. cbn. split_and!; try done.
  - by apply find_card_absent.
  - intros j x Hfound Hdiff.
    pose proof (find_card_found cards (id x)) as Hx.
    rewrite Hfound in Hx. destruct Hx as (Hj & _ & _).
    pose proof (find_card_found (take i cards ++ drop (S i) cards) (id x))
      as Hx'.
    destruct (find_card (take i cards ++ drop (S i) cards) (id x))
      as [[j' x']|] eqn:Hfound'.
    + destruct Hx' as (Hj' & Hidx' & _). exists j'. do 2 f_equal.
      assert (Hx'in : x' ∈ cards).
      { apply list_elem_of_lookup_2 in Hj'.
        rewrite <- (take_drop_middle cards i c Hi).
        apply elem_of_app in Hj' as [?|?]; apply elem_of_app; [by left|].
        right. by right. }
      apply list_elem_of_lookup in Hx'in as [k Hk].
      assert (k = j) as ->.
      { eapply (NoDup_lookup (id <$> cards)); [done| |].
        - by rewrite list_lookup_fmap, Hk.
        - rewrite list_lookup_fmap, Hj. cbn. by rewrite Hidx'. }
      congruence.
    + exfalso. apply (Hx' x); [|done]. apply Hkept; [|done].
      apply list_elem_of_lookup. eauto.
Qed.

Lemma delete_card_unique_ids_witness :
  ∃ cards' w',
    @delete_card sample_codec spanish "Spanish" w_delete = (Ok tt, w')
    ∧ heap w' = <[0 := cards']> (heap w_delete)
    ∧ cards' = [hola; perro]
    ∧ find_card cards' "0f9e8d7c" = None
    ∧ stdin w' = ["after"].
Proof.
  destruct (@delete_card_unique_ids sample_codec spanish "Spanish" 0
              [hola; gato; perro] w_delete 1 gato "0f9e8d7c" "y" ["after"]
              eq_refl eq_refl
              ltac:(apply (bool_decide_unpack (NoDup (id <$> [hola; gato; perro])));
                    by vm_compute)
              eq_refl eq_refl ltac:(by vm_compute) eq_refl
              eq_refl ltac:(by vm_compute))
    as (cards' & w' & Hrun & Hheap & Hcards & Hgone & _ & _ & _ & _ & Hin).
  exists cards', w'. by split_and!.
Defined.

(** ** Sessions that read nothing, and sessions in stored order *)

(** The counters of the loop count the cards that were judged: each card
    shown adds at most one. *)
Lemma learn_loop_counts col total cards :
  ∀ idx t seen w,
    drawn (learn_loop col total idx cards t seen w).2 = drawn w
    ∧ ∀ s, (learn_loop col total idx cards t seen w).1 = Ok s →
        ∃ k, k ≤ length cards
             ∧ visited s = seen ++ take k cards
             ∧ (outcome s = Completed → k = length cards)
             ∧ (outcome s = TerminatedEarly → 0 < k)
             ∧ correct (counts s) + wrong (counts s) + skipped (counts s)
               ≤ correct t + wrong t + skipped t + k.
Proof.
  induction cards as [|c cards IH]; intros idx t seen w.
  - unfold learn_loop. cbn. split; [done|]. intros s [= <-]. exists 0. cbn.
    rewrite app_nil_r. split_and!; try done; lia.
  - destruct w as [ins out dsk hp ent dr].
    unfold learn_loop. fold learn_loop. unfold bind, clear, print, emit, input. cbn.
    destruct ins as [|rv ins]; [done|]. cbn. unfold ask_until.
    match goal with
    | |- context [ask_loop ?p ?f ?ls ?o] =>
        destruct (ask_loop p f ls o) as [[[j|e] ls'] out'] eqn:Hask
    end; [|done].
    assert (Hnext : ∀ t',
      correct t' + wrong t' + skipped t' ≤ S (correct t + wrong t + skipped t) →
      let w1 := World ls' out' dsk hp ent dr in
      drawn (learn_loop col total (S idx) cards t' (seen ++ [c]) w1).2 = dr
      ∧ ∀ s, (learn_loop col total (S idx) cards t' (seen ++ [c]) w1).1 = Ok s →
          ∃ k, k ≤ length (c :: cards)
               ∧ visited s = seen ++ take k (c :: cards)
               ∧ (outcome s = Completed → k = length (c :: cards))
               ∧ (outcome s = TerminatedEarly → 0 < k)
               ∧ correct (counts s) + wrong (counts s) + skipped (counts s)
                 ≤ correct t + wrong t + skipped t + k).
    { intros t' Ht' w1.
      destruct (IH (S idx) t' (seen ++ [c]) w1) as (Hr & Hs).
      split; [done|]. intros s Hok.
      destruct (Hs s Hok) as (k & Hk & Hv & Hc & _ & Hcount).
      exists (S k). cbn. rewrite Hv, <- app_assoc. cbn.
      split_and!; [lia | done | intros Ho; by rewrite Hc | lia | lia]. }
    destruct j; cbn; try (apply Hnext; cbn; lia).
    split; [done|]. intros s [= <-]. exists 1. cbn.
    rewrite take_0. split_and!; try done; lia.
Qed.

(** X14.  On a collection without cards [learn_mode] prints one line and
    returns: nothing is read, no random value is taken, the file is not
    touched, and the only new list object is the empty copy. *)
Theorem learn_mode_nothing_to_learn data col l w :
  data !! col = Some l → heap w !! l = Some [] →
  learn_mode data col w =
    (Ok None,
     World (stdin w) (stdout w ++ [Echo "No cards to learn yet."]) (disk w)
       (<[fresh (dom (heap w)) := []]> (heap w)) (entropy w) (drawn w)).
Proof.
  intros Hcol Hl. destruct w as [ins out dsk hp ent dr]. cbn in *.
  unfold learn_mode. run. rewrite Hcol. cbn. rewrite Hl. cbn.
  rewrite lookup_insert_eq. cbn. done.
Qed.

Lemma learn_mode_nothing_to_learn_witness :
  learn_mode spanish "Spanish" w_no_cards =
    (Ok None,
     World ["1"; "y"] [Echo "No cards to learn yet."] None
       (<[1 := []]> (heap w_no_cards)) (entropy w_no_cards) 0).
Proof.
  rewrite (learn_mode_nothing_to_learn spanish "Spanish" 0 w_no_cards eq_refl eq_refl).
  by vm_compute.
Defined.

(** X15.  A session for which the order prompt was answered with 1 takes
    no random value and shows the cards in the order in which they are
    stored: what it has shown is always the first cards of the stored list,
    and the whole list when the session was not left by a quit. *)
Theorem learn_in_stored_order data col l snap w rejects choice lines :
  data !! col = Some l → heap w !! l = Some snap → snap ≠ [] →
  Forall (rejected (parse_int 1 2)) rejects → parse_int 1 2 choice = Accept 1 →
  stdin w = rejects ++ choice :: lines →
  drawn (learn_mode data col w).2 = drawn w
  ∧ (learn_mode data col w).1 ≠ Ok None
  ∧ ∀ s, (learn_mode data col w).1 = Ok (Some s) →
      ∃ k, 0 < k ≤ length snap
           ∧ visited s = take k snap
           ∧ (outcome s = Completed → visited s = snap)
           ∧ correct (counts s) + wrong (counts s) + skipped (counts s) ≤ k.
Proof.
  intros Hcol Hl Hne Hrej Hchoice Hin.
  destruct (learn_mode_start data col l snap w rejects choice 1 lines)
    as (order & _ & Horder & Hrun); try done.
  rewrite (Horder ltac:(done)) in Hrun. rewrite Hrun. clear Hrun.
  cbn [Nat.eqb]. rewrite Nat.add_0_r.
  match goal with |- context [learn_end (learn_loop ?c ?n ?i ?cs ?t ?seen ?w1)] =>
    destruct (learn_loop_counts c n cs i t seen w1) as (Hdr & Hs);
    destruct (learn_loop c n i cs t seen w1)
      as [[s0|e] [ins' out' dsk' hp' ent' dr']]
  end; cbn in Hdr, Hs; [|by cbn].
  destruct (Hs s0 eq_refl) as (k & Hk & Hv & Hc & Hq & Hcount). cbn in Hcount.
  assert (Hshown : ∃ k, 0 < k ≤ length snap
             ∧ visited s0 = take k snap
             ∧ (outcome s0 = Completed → visited s0 = snap)
             ∧ correct (counts s0) + wrong (counts s0) + skipped (counts s0) ≤ k).
  { exists k. split_and!; try done.
    - destruct (outcome s0) eqn:Ho; [|by apply Hq].
      rewrite Hc by done. destruct snap; [done | simpl; lia].
    - intros Ho. rewrite Hv, Hc by done. apply firstn_all. }
  cbn. split; [by destruct (outcome s0)|]. split; [by destruct (outcome s0)|].
  intros s Hok. assert (s = s0) as ->; [|done].
  destruct (outcome s0); cbn in Hok; congruence.
Qed.

Lemma learn_in_stored_order_witness :
  drawn (learn_mode spanish "Spanish" w_quit_seq).2 = 0
  ∧ ∃ k, 0 < k ≤ 3
         ∧ [hola; gato] = take k [hola; gato; perro]
         ∧ (TerminatedEarly = Completed → [hola; gato] = [hola; gato; perro])
         ∧ 1 + 0 + 0 ≤ k.
Proof.
  destruct (learn_in_stored_order spanish "Spanish" 0 [hola; gato; perro]
              w_quit_seq [] "1" [""; "y"; ""; "q"; "after"]
              eq_refl eq_refl ltac:(done) ltac:(constructor)
              ltac:(by vm_compute) eq_refl) as (Hdrawn & _ & Hshown).
  split; [exact Hdrawn|].
  exact (Hshown (Session TerminatedEarly (Tally 1 0 0) [hola; gato])
           ltac:(by vm_compute)).
Defined.

(** ** Operations that only read *)

Lemma search_cards_hits l w hits :
  (search_cards l w).1 = Ok hits → hits `sublist_of` default [] (heap w !! l).
Proof.
  destruct w as [ins out dsk hp ent dr].
  unfold search_cards, bind, deref, print, emit, ret. cbn.
  destruct (default [] (hp !! l)) as [|c0 cs] eqn:Hcards.
  { by intros [= <-]. }
  unfold prompt_nonempty, ask_until. cbn -[filter].
  destruct (ask_loop _ _ _ _) as [[[q|e] ls] out'] eqn:Hask; cbn -[filter];
    [|done].
  destruct (filter _ _) as [|h0 hs] eqn:Hfilter.
  - intros [= <-]. apply sublist_nil_l.
  - rewrite print_each_run. cbn -[filter]. intros [= <-]. rewrite <- Hfilter.
    apply sublist_filter.
Qed.

(** X16.  Listing, searching and learning only read.  Whatever is typed
    and however the call ends, [list_cards] and [search_cards] leave every
    list object and the file as they were, and the hits of a search are
    stored cards in stored order; [learn_mode] leaves the file and every
    list object that existed as they were, so the registry is what it
    was. *)
Theorem reading_changes_nothing data col l cards w :
  heap (list_cards cards w).2 = heap w ∧ disk (list_cards cards w).2 = disk w
  ∧ heap (search_cards l w).2 = heap w ∧ disk (search_cards l w).2 = disk w
  ∧ (∀ hits, (search_cards l w).1 = Ok hits →
       hits `sublist_of` default [] (heap w !! l))
  ∧ disk (learn_mode data col w).2 = disk w
  ∧ (∀ l', is_Some (heap w !! l') →
       heap (learn_mode data col w).2 !! l' = heap w !! l')
  ∧ (bound data (heap w) →
     snapshot (heap (learn_mode data col w).2) data = snapshot (heap w) data).
Proof.
  destruct (stable_list_cards cards w) as (_ & Hh1 & Hd1).
  destruct (stable_search_cards l w) as (_ & Hh2 & Hd2).
  destruct (stable_learn_mode data col w) as (_ & Hd3).
  split_and!; try done.
  - apply search_cards_hits.
  - intros l' Hl'.
    destruct (learn_mode_heap data col w) as [->|(l0 & order & _ & _ & ->)];
      [done|].
    apply lookup_insert_ne. intros <-.
    apply elem_of_dom in Hl'. by apply is_fresh in Hl'.
  - intros Hb.
    destruct (learn_mode_heap data col w) as [->|(l0 & order & _ & _ & ->)];
      [done|].
    by apply snapshot_fresh.
Qed.

(** ** Listing the collections *)

Lemma lookup_key_fmap {A} (f : A → json) (l : list (string * A)) k :
  NoDup l.*1 →
  lookup_key k ((λ kv, (kv.1, f kv.2)) <$> l)
  = f <$> (list_to_map l : gmap string A) !! k.
Proof.
  induction l as [|[k' a] l IH]; [done|].
  intros [Hk' Hl]%NoDup_cons. cbn [fmap list_fmap lookup_key fst snd].
  change (list_fmap _ _ ?g l) with (g <$> l).
  rewrite (IH Hl), list_to_map_cons.
  destruct (decide (k = k')) as [->|Hne].
  - rewrite lookup_insert_eq, String.eqb_refl.
    by rewrite (not_elem_of_list_to_map_1 _ _ Hk').
  - rewrite lookup_insert_ne by done.
    apply String.eqb_neq in Hne. rewrite Hne.
    by destruct (list_to_map l !! k).
Qed.

(** The subscripts of [get_cards] on the document of a registry. *)
Lemma cards_of_document_registry (r : gmap string (list card)) name :
  cards_of_document (encode_registry r) name =
    match r !! name with
    | Some cards => Ok (JList (encode_card <$> cards))
    | None => Raise KeyError
    end.
Proof.
  unfold cards_of_document, encode_registry.
  cbn [subscript lookup_key]. rewrite String.eqb_refl.
  cbn [subscript].
  rewrite (lookup_key_fmap encode_collection (map_to_list r) name)
    by apply NoDup_fst_map_to_list.
  rewrite list_to_map_to_list.
  by destruct (r !! name).
Qed.

(** X17.  The listing of the main menu, on a dictionary in which every
    collection has its list of cards.  For names that are all in the
    dictionary it prints one line per name, in the order given, with the
    number of cards of that collection, and changes nothing; the names it is
    called with are those of [list_collections], which are all in the
    dictionary.  Such are the dictionaries the program builds and saves: on
    the document that [save_data] writes for a dictionary, the subscripts
    of [get_cards] give the cards of a name of the dictionary and raise
    [KeyError] on any other name, as [get_cards] does.  A file is not held
    to that: [load_data] returns a document whose collection lacks the key
    [cards], and on it the subscripts raise [KeyError] for a name that is
    there. *)
Theorem collections_listed `{JsonCodec} data w :
  (∀ names,
     (∀ name, name ∈ names → is_Some (data !! name)) →
     print_counts data names w =
       (Ok tt,
        World (stdin w) (stdout w ++ count_lines data (heap w) names)
          (disk w) (heap w) (entropy w) (drawn w)))
  ∧ print_counts data (list_collections data) w =
      (Ok tt,
       World (stdin w)
         (stdout w ++ count_lines data (heap w) (list_collections data))
         (disk w) (heap w) (entropy w) (drawn w))
  ∧ (∀ name,
       cards_of_document (encode_registry (snapshot (heap w) data)) name =
         match data !! name with
         | Some l => Ok (JList (encode_card <$> default [] (heap w !! l)))
         | None => Raise KeyError
         end
       ∧ ((get_cards data name w).1 = Raise KeyError ↔ data !! name = None))
  ∧ (∀ name text,
       let doc := JDict [("collections", JDict [(name, JDict [])])] in
       disk w = Some (Content text) → json_loads text = Some doc →
       load_data w = (Ok doc, w)
       ∧ cards_of_document doc name = Raise KeyError).
Proof.
  assert (Hrun : ∀ names w,
    (∀ name, name ∈ names → is_Some (data !! name)) →
    print_counts data names w =
      (Ok tt,
       World (stdin w) (stdout w ++ count_lines data (heap w) names)
         (disk w) (heap w) (entropy w) (drawn w))).
  { clear w. induction names as [|name names IH];
      intros [ins out dsk hp ent dr] Hnames.
    - cbn. unfold ret. by rewrite app_nil_r.
    - destruct (Hnames name) as [l Hl]; [left|].
      cbn [print_counts]. unfold get_cards. rewrite Hl.
      unfold bind, ret, deref, print, emit. cbn.
      rewrite IH by (intros n Hn; apply Hnames; by right).
      cbn. rewrite Hl. cbn. by rewrite <- app_assoc. }
  split; [intros names; apply Hrun|]. split; [|split].
  - apply Hrun. intros name. by apply list_collections_elem.
  - intros name. split.
    + rewrite cards_of_document_registry. unfold snapshot.
      rewrite lookup_fmap. by destruct (data !! name).
    + unfold get_cards. by destruct (data !! name).
  - intros name text doc Hd Hdoc. split.
    + destruct w as [ins out dsk hp ent dr]. cbn in Hd. subst dsk.
      unfold load_data, try_except, read_text, json_load, bind, get_disk, ret.
      cbn. by rewrite Hdoc.
    + unfold doc, cards_of_document. cbn. by rewrite String.eqb_refl.
Qed.

Lemma collections_listed_witness :
  print_counts two_collections ["French"; "Spanish"] w_delete_collection =
    (Ok tt,
     World ["1"; "Yes"; "after"]
       ([] ++ [Echo "- French (1 cards)"; Echo "- Spanish (2 cards)"])
       None (heap w_delete_collection) (entropy w_delete_collection) 0).
Proof.
  rewrite (proj1 (@collections_listed sample_codec two_collections
                    w_delete_collection) ["French"; "Spanish"]).
  - by vm_compute.
  - intros name Hname. apply list_collections_elem. revert Hname.
    by vm_compute.
Defined.

(** A file with a collection that has no [cards]: [load_data] returns its
    document, and the subscripts of [get_cards] raise on it. *)
Example collection_without_cards :
  let doc := JDict [("collections", JDict [("A", JDict [])])] in
  let w := World [] [] (Some (Content "{}")) ∅ (λ _, 0%Z) 0 in
  @load_data (table_codec doc "{}") w = (Ok doc, w)
  ∧ cards_of_document doc "A" = Raise KeyError
  ∧ cards_of_document doc "B" = Raise KeyError
  ∧ cards_of_document (JDict [("collections", JList [])]) "A" = Raise TypeError
  ∧ cards_of_document (encode_registry sample_registry) "Spanish"
    = Ok (JList (encode_card <$> [hola; gato])).
Proof. by vm_compute. Qed.

(** ** A name that is not a collection *)

(** X18.  On a name that is not in the dictionary, [edit_card],
    [delete_card] and [learn_mode] raise [KeyError] at once, before they
    print or read anything: the world is as it was.  The two menus of a
    collection clear the screen first and then raise [KeyError], with no
    line read.  [add_card] looks the collection up only after it has asked
    for both texts and drawn the id: it reads the two lines, takes a random
    value, and then raises [KeyError].  In every case no list object and no
    file is changed. *)
Theorem missing_collection_key_error `{JsonCodec} data col w :
  data !! col = None →
  edit_card data col w = (Raise KeyError, w)
  ∧ delete_card data col w = (Raise KeyError, w)
  ∧ learn_mode data col w = (Raise KeyError, w)
  ∧ manage_cards_menu data col w =
      (Raise KeyError,
       World (stdin w) (stdout w ++ [Clear]) (disk w) (heap w) (entropy w)
         (drawn w))
  ∧ collection_menu data col w =
      (Raise KeyError,
       World (stdin w) (stdout w ++ [Clear]) (disk w) (heap w) (entropy w)
         (drawn w))
  ∧ ∀ f b rest,
      stdin w = f :: b :: rest →
      PyStr.strip f ≠ EmptyString → PyStr.strip b ≠ EmptyString →
      add_card data col w =
        (Raise KeyError,
         World rest (stdout w ++ [Ask "Front: "; Ask "Back: "])
           (disk w) (heap w) (entropy w) (S (drawn w))).
Proof.
  intros Hcol. destruct w as [ins out dsk hp ent dr]. split_and!.
  - unfold edit_card, get_cards, bind, raise. by rewrite Hcol.
  - unfold delete_card, get_cards, bind, raise. by rewrite Hcol.
  - unfold learn_mode, get_cards, bind, raise. by rewrite Hcol.
  - unfold manage_cards_menu, while_true. cbn [loop_passes].
    unfold manage_cards_pass, get_cards, bind, raise, clear, emit. cbn.
    by rewrite Hcol.
  - unfold collection_menu, while_true. cbn [loop_passes].
    unfold collection_pass, get_cards, bind, raise, clear, emit. cbn.
    by rewrite Hcol.
  - intros f b rest Hin Hf Hb. cbn in Hin. subst ins.
    unfold add_card. run.
    rewrite (parse_nonempty_accept f) by done. cbn.
    rewrite (parse_nonempty_accept b) by done. cbn.
    rewrite Hcol. cbn. by rewrite <- !app_assoc.
Qed.

Lemma missing_collection_key_error_witness :
  @edit_card sample_codec spanish "French" w_add = (Raise KeyError, w_add)
  ∧ @collection_menu sample_codec spanish "French" w_add =
      (Raise KeyError,
       World [" hola"; "hello "] ([] ++ [Clear]) None (heap w_add)
         (entropy w_add) 0)
  ∧ @add_card sample_codec spanish "French" w_add =
      (Raise KeyError,
       World [] [Ask "Front: "; Ask "Back: "] None (heap w_add) (entropy w_add) 1).
Proof.
  destruct (@missing_collection_key_error sample_codec spanish "French" w_add
              eq_refl) as (Hedit & _ & _ & _ & Hmenu & Hadd).
  split; [exact Hedit|]. split; [exact Hmenu|].
  exact (Hadd " hola" "hello " [] eq_refl ltac:(by vm_compute) ltac:(by vm_compute)).
Defined.

(** ** The file follows the memory *)

Lemma written_through_start `{JsonCodec} data w :
  bound data (heap w) → written_through (snapshot (heap w) data) (disk w) data w.
Proof. intros Hb. split; [done|]. by left. Qed.

Lemma bound_singleton name l (h : gmap loc (list card)) :
  is_Some (h !! l) → bound {[name := l]} h.
Proof. by intros Hl name' l' [<- <-]%lookup_singleton_Some. Qed.

(** X19.  Every operation on cards saves before it returns.  Started
    where every name is bound to a list object, [add_card], [edit_card] and
    [delete_card] end, whatever is typed, with names still bound and either
    the registry and the file both as they were, or the file holding the
    registry as it now is in memory; this holds when the operation returns
    and when it is left by an exception other than the [OSError] of a save
    that failed. *)
Theorem card_operations_write_through `{JsonCodec} data col w :
  bound data (heap w) →
  let kept := written_through (snapshot (heap w) data) (disk w) in
  match add_card data col w with
  | (Ok _, w') => kept data w'
  | (Raise e, w') => e ≠ OSError → kept data w'
  end
  ∧ match edit_card data col w with
    | (Ok _, w') => kept data w'
    | (Raise e, w') => e ≠ OSError → kept data w'
    end
  ∧ match delete_card data col w with
    | (Ok _, w') => kept data w'
    | (Raise e, w') => e ≠ OSError → kept data w'
    end.
Proof.
  intros Hb kept. apply written_through_start in Hb. split_and!.
  - by apply (add_card_written _ _ data col (kept data)).
  - by apply (edit_card_written _ _ data col (kept data)).
  - by apply (delete_card_written _ _ data col (kept data)).
Qed.

Lemma card_operations_write_through_witness :
  @written_through sample_codec (snapshot (heap w_add) spanish) None spanish
    (@add_card sample_codec spanish "Spanish" w_add).2
  ∧ @on_file sample_codec spanish (@add_card sample_codec spanish "Spanish" w_add).2.
Proof.
  destruct (@card_operations_write_through sample_codec spanish "Spanish" w_add
              ltac:(apply bound_singleton; by eexists))
    as (Hadd & _).
  split; [exact Hadd | by vm_compute].
Defined.

(** X28.  The operations on collections save before they return, and a
    learn session leaves nothing unsaved.  Started where every name is bound
    to a list object, [create_collection], [delete_collection] and
    [learn_mode] end, whatever is typed, with the names of the dictionary
    they leave bound and either the registry and the file both as they were,
    or the file holding the registry as it now is in memory; this holds when
    the operation returns and when it is left by an exception other than the
    [OSError] of a save that failed. *)
Theorem collection_operations_write_through `{JsonCodec} data col w :
  bound data (heap w) →
  let kept := written_through (snapshot (heap w) data) (disk w) in
  match create_collection data w with
  | (Ok data', w') => kept data' w'
  | (Raise e, w') => e ≠ OSError → kept data w'
  end
  ∧ match delete_collection data w with
    | (Ok data', w') => kept data' w'
    | (Raise e, w') => e ≠ OSError → kept data w'
    end
  ∧ match learn_mode data col w with
    | (Ok _, w') => kept data w'
    | (Raise e, w') => e ≠ OSError → kept data w'
    end.
Proof.
  intros Hb kept. apply written_through_start in Hb. split_and!.
  - by apply (create_collection_written _ _ data (kept data)).
  - by apply (delete_collection_written _ _ data (kept data)).
  - by apply (learn_mode_written _ _ data col (kept data)).
Qed.

Lemma collection_operations_write_through_witness :
  match @create_collection sample_codec spanish w_create with
  | (Ok data', w') =>
      @written_through sample_codec (snapshot (heap w_create) spanish)
        (disk w_create) data' w'
  | (Raise e, w') =>
      e ≠ OSError →
      @written_through sample_codec (snapshot (heap w_create) spanish)
        (disk w_create) spanish w'
  end.
Proof.
  exact (proj1 (@collection_operations_write_through sample_codec spanish
                  "Spanish" w_create ltac:(apply bound_singleton; by eexists))).
Defined.

(** X20.  Through a whole run of the main loop or of one of the two
    collection menus, with any number of operations, the file follows the
    memory.  Started where every name is bound to a list object, the run
    ends, when the loop returns and when it is left by an exception other
    than the [OSError] of a failed save (the input ran out, say), with names
    bound and either the registry and the file both as they were at the
    start, or the file holding the registry as it is in memory.  For the main
    loop the dictionary meant is the one at the exit. *)
Theorem menus_write_through `{JsonCodec} data col w :
  bound data (heap w) →
  let kept := written_through (snapshot (heap w) data) (disk w) in
  match main_menu data w with
  | (Ok data', w') => kept data' w'
  | (Raise e, w') => e ≠ OSError → ∃ data', kept data' w'
  end
  ∧ match collection_menu data col w with
    | (Ok _, w') => kept data w'
    | (Raise e, w') => e ≠ OSError → kept data w'
    end
  ∧ match manage_cards_menu data col w with
    | (Ok _, w') => kept data w'
    | (Raise e, w') => e ≠ OSError → kept data w'
    end.
Proof.
  intros Hb kept. apply written_through_start in Hb. split_and!.
  - by apply (main_menu_written _ _ data).
  - by apply (collection_menu_written _ _ data col (kept data)).
  - by apply (manage_cards_menu_written _ _ data col (kept data)).
Qed.

Lemma menus_write_through_witness :
  match @main_menu sample_codec spanish w_session with
  | (Ok data', w') =>
      @written_through sample_codec (snapshot (heap w_session) spanish)
        (disk w_session) data' w'
  | (Raise e, w') =>
      e ≠ OSError →
      ∃ data', @written_through sample_codec (snapshot (heap w_session) spanish)
                 (disk w_session) data' w'
  end.
Proof.
  exact (proj1 (@menus_write_through sample_codec spanish "Spanish" w_session
                  ltac:(apply bound_singleton; by eexists))).
Defined.

(** A run of the program on [w_session]: a collection is created, a card
    is added to the other collection, and the program is left. *)
Example session_run :
  ∃ out,
    @main_menu sample_codec spanish w_session
    = (Ok {["Spanish" := 0; "French" := 1]},
       World [] out (Some (Content "{}"))
         {[0 := [hola; Card "deadbeef" "gato" "cat"]; 1 := []]}
         (entropy w_session) 1)
    ∧ last out = Some (Echo "Bye!").
Proof. eexists. split; vm_compute; reflexivity. Qed.

(** ** A save that fails *)

Lemma save_data_unreadable `{JsonCodec} data w :
  disk w = Some Unreadable → save_data data w = (Raise OSError, w).
Proof.
  destruct w as [ins out dsk hp ent dr]. cbn. intros ->.
  by unfold save_data, save_doc, bind, get_heap, get_disk, raise.
Qed.

(** X21.  The list is changed before the file is written.  When the file
    cannot be opened, [add_card] and a confirmed [delete_card] are left by
    the [OSError] of [save_data] with the card already appended to, or
    removed from, the list in memory; the file is as it was and the closing
    message is not printed. *)
Theorem failed_save_keeps_change `{JsonCodec} data col l cards w :
  data !! col = Some l → heap w !! l = Some cards →
  disk w = Some Unreadable →
  (∀ f b rest,
     stdin w = f :: b :: rest →
     PyStr.strip f ≠ EmptyString → PyStr.strip b ≠ EmptyString →
     ∃ c,
       add_card data col w =
         (Raise OSError,
          World rest (stdout w ++ [Ask "Front: "; Ask "Back: "])
            (Some Unreadable) (<[l := cards ++ [c]]> (heap w)) (entropy w)
            (S (drawn w)))
       ∧ front c = PyStr.strip f ∧ back c = PyStr.strip b)
  ∧ (∀ idline answer rest i c,
       stdin w = idline :: answer :: rest →
       cards !! i = Some c → PyStr.strip idline = id c → id c ≠ EmptyString →
       (∀ j x, j < i → cards !! j = Some x → id x ≠ id c) →
       parse_confirm answer = Accept true →
       ∃ w',
         delete_card data col w = (Raise OSError, w')
         ∧ heap w' = <[l := take i cards ++ drop (S i) cards]> (heap w)
         ∧ disk w' = Some Unreadable ∧ stdin w' = rest
         ∧ last (stdout w') = Some (Ask (("Delete card " +:+ id c +:+ "?")
                                         +:+ " (y/n): "))).
Proof.
  intros Hcol Hl Hd. destruct w as [ins out dsk hp ent dr]; cbn in *. subst dsk.
  split.
  - intros f b rest -> Hf Hb. unfold add_card. run.
    rewrite (parse_nonempty_accept f) by done. cbn.
    rewrite (parse_nonempty_accept b) by done. cbn.
    rewrite Hcol. cbn. rewrite Hl. cbn.
    rewrite save_data_unreadable by done.
    eexists (Card _ _ _). rewrite <- !app_assoc. by cbn.
  - intros idline answer rest i c -> Hi Hid Hne Hfirst Hyes.
    assert (Hfind : find_card cards (PyStr.strip idline) = Some (i, c)).
    { rewrite Hid. by apply find_card_first. }
    assert (Hrem : list_remove c cards = take i cards ++ drop (S i) cards).
    { apply list_remove_first; [done|]. intros j x Hj Hx ->. by eapply Hfirst. }
    unfold delete_card. run. rewrite Hcol. cbn. rewrite Hl. cbn.
    destruct cards as [|c0 cs] eqn:Hcards; [done|]. rewrite <- Hcards in *.
    rewrite list_cards_run. cbn.
    rewrite (parse_nonempty_accept idline) by (by rewrite Hid). cbn.
    rewrite Hfind. cbn. rewrite Hyes. cbn.
    rewrite save_data_unreadable by done.
    eexists. split; [done|]. cbn. rewrite Hrem, Hid.
    split_and!; try done. by rewrite last_snoc.
Qed.

Lemma failed_save_keeps_change_witness :
  ∃ c,
    @add_card sample_codec spanish "Spanish" w_locked =
      (Raise OSError,
       World [] ([] ++ [Ask "Front: "; Ask "Back: "]) (Some Unreadable)
         (<[0 := [gato] ++ [c]]> (heap w_locked)) (entropy w_locked) 1)
    ∧ front c = "hola" ∧ back c = "hello".
Proof.
  destruct (@failed_save_keeps_change sample_codec spanish "Spanish" 0 [gato]
              w_locked eq_refl eq_refl eq_refl) as [Hadd _].
  exact (Hadd " hola" "hello " [] eq_refl ltac:(by vm_compute) ltac:(by vm_compute)).
Defined.

(** ** One collection at a time *)

Lemma stable_add_card_only `{JsonCodec} data col l :
  data !! col = Some l → stable (only_object l) (add_card data col).
Proof.
  intros Hcol w l' Hne _.
  destruct (add_card_heap data col w) as [->|(l0 & c & Hl0 & _ & ->)]; [done|].
  apply lookup_insert_ne. congruence.
Qed.

Lemma stable_edit_card_only `{JsonCodec} data col l :
  data !! col = Some l → stable (only_object l) (edit_card data col).
Proof.
  intros Hcol w l' Hne _.
  destruct (edit_card_heap data col w)
    as [->|(l0 & cards & i & c & c' & Hl0 & _ & _ & -> & _)]; [done|].
  apply lookup_insert_ne. congruence.
Qed.

Lemma stable_delete_card_only `{JsonCodec} data col l :
  data !! col = Some l → stable (only_object l) (delete_card data col).
Proof.
  intros Hcol w l' Hne _.
  destruct (delete_card_heap data col w) as [->|(l0 & cards & c & Hl0 & _ & ->)];
    [done|].
  apply lookup_insert_ne. congruence.
Qed.

Lemma stable_learn_mode_only data col l : stable (only_object l) (learn_mode data col).
Proof.
  intros w l' _ Hl'.
  destruct (learn_mode_heap data col w) as [->|(l0 & order & _ & _ & ->)]; [done|].
  apply lookup_insert_ne. intros <-.
  apply elem_of_dom in Hl'. by apply is_fresh in Hl'.
Qed.

#[local] Hint Resolve stable_add_card_only stable_edit_card_only
  stable_delete_card_only stable_learn_mode_only : stable.

Lemma stable_manage_cards_pass_only `{JsonCodec} data col l :
  data !! col = Some l → stable (only_object l) (manage_cards_pass data col).
Proof. intros Hcol. unfold manage_cards_pass. stable_steps. Qed.

Lemma stable_manage_cards_menu_only `{JsonCodec} data col l :
  data !! col = Some l → stable (only_object l) (manage_cards_menu data col).
Proof.
  intros Hcol. apply stable_while_true; [apply _|]. intros _.
  by apply stable_manage_cards_pass_only.
Qed.

#[local] Hint Resolve stable_manage_cards_menu_only : stable.

Lemma stable_collection_pass_only `{JsonCodec} data col l :
  data !! col = Some l → stable (only_object l) (collection_pass data col).
Proof. intros Hcol. unfold collection_pass. stable_steps. Qed.

(** X22.  What is done inside a collection stays inside it: through a
    whole run of [collection_menu] or [manage_cards_menu] on a collection,
    whatever is typed and however the run ends, every other list object that
    existed is as it was, so every other collection keeps its cards. *)
Theorem menu_touches_one_collection `{JsonCodec} data col l w :
  data !! col = Some l →
  (∀ l', l' ≠ l → is_Some (heap w !! l') →
     heap (collection_menu data col w).2 !! l' = heap w !! l'
     ∧ heap (manage_cards_menu data col w).2 !! l' = heap w !! l')
  ∧ ∀ other l', data !! other = Some l' → l' ≠ l →
      is_Some (heap w !! l') →
      snapshot (heap (collection_menu data col w).2) data !! other
      = snapshot (heap w) data !! other.
Proof.
  intros Hcol.
  assert (Hmenu : stable (only_object l) (collection_menu data col)).
  { apply stable_while_true; [apply _|]. intros _.
    by apply stable_collection_pass_only. }
  split.
  - intros l' Hne Hl'. split; [by apply Hmenu|].
    by apply (stable_manage_cards_menu_only data col l Hcol w).
  - intros other l' Hother Hne Hl'. unfold snapshot.
    rewrite !lookup_fmap, Hother. cbn. f_equal. f_equal. by apply Hmenu.
Qed.

Lemma menu_touches_one_collection_witness :
  heap (@collection_menu sample_codec two_collections "Spanish" w_two).2 !! 1
  = heap w_two !! 1.
Proof.
  destruct (@menu_touches_one_collection sample_codec two_collections "Spanish"
              0 w_two eq_refl) as [Hkeep _].
  exact (proj1 (Hkeep 1 ltac:(done) ltac:(by eexists))).
Defined.

(** ** What the collection operations can do to the dictionary *)

(** X24.  [create_collection] never replaces a collection.  Whatever is
    typed, when it returns the dictionary is as it was, or it has one more
    name, a tidy one that was not a collection, bound to a new empty list
    object; every collection that was there is still there with its
    cards. *)
Theorem create_collection_only_adds `{JsonCodec} data w :
  match create_collection data w with
  | (Ok data', w') =>
      (data' = data ∧ heap w' = heap w ∧ disk w' = disk w)
      ∨ ∃ name l,
          tidy name ∧ data !! name = None ∧ heap w !! l = None
          ∧ data' = <[name := l]> data ∧ heap w' = <[l := []]> (heap w)
          ∧ on_file data' w'
          ∧ ∀ other, is_Some (data !! other) → data' !! other = data !! other
  | (Raise e, w') => (e = EOFError ∧ disk w' = disk w) ∨ e = OSError
  end.
Proof.
  unfold create_collection, prompt_nonempty, bind.
  pose proof (stable_ask_until "New collection name: " parse_nonempty w)
    as (_ & _ & Hd).
  destruct (ask_until _ parse_nonempty w) as [[name|e] w1] eqn:Hask; cbn in Hd.
  - apply ask_until_ok_inv in Hask as (bad & line & Hin & Hbad & Hline & ->).
    destruct (data !! name) as [l0|] eqn:Hname.
    + cbn. by left.
    + cbn. destruct w as [ins out dsk hp ent dr]. cbn.
      assert (Hfresh : hp !! fresh (dom hp) = None).
      { apply not_elem_of_dom, is_fresh. }
      match goal with |- context [save_data ?d ?w1] =>
        destruct (save_data_cases d w1) as [-> | ->]
      end; cbn; [|by right].
      right. exists name, (fresh (dom hp)). split_and!; try done.
      * by eapply parse_nonempty_tidy.
      * intros other [l' Hother]. rewrite lookup_insert_ne; [done|].
        intros <-. congruence.
  - apply ask_until_raise_inv in Hask
      as [(-> & _ & _)|(bad & line & _ & _ & Hline)].
    + by left.
    + unfold parse_nonempty in Hline. by destruct (PyStr.truthy _).
Qed.

(** X25.  [delete_collection] removes at most one name, and only a name
    that is in the dictionary: whatever is typed, when it returns the
    dictionary is as it was, with file and list objects untouched, or one
    collection is gone and the file holds the registry without it.  The
    [del] never fails: the call raises neither [KeyError] nor
    [IndexError]. *)
Theorem delete_collection_only_removes `{JsonCodec} data w :
  match delete_collection data w with
  | (Ok data', w') =>
      heap w' = heap w
      ∧ ((data' = data ∧ disk w' = disk w)
         ∨ ∃ name, is_Some (data !! name) ∧ data' = delete name data
                   ∧ on_file data' w')
  | (Raise e, w') => e = EOFError ∨ e = ValueError ∨ e = OSError
  end.
Proof.
  unfold delete_collection. cbv zeta. unfold bind at 1.
  destruct (list_collections data) as [|n0 names] eqn:Hnames.
  { destruct w. cbn. split; [done|]. by left. }
  pose proof (select_from_list_picked "Delete which collection?" (n0 :: names) w
                ltac:(done)) as Hpick.
  destruct (stable_select_from_list "Delete which collection?" (n0 :: names) w)
    as (_ & Hh1 & Hd1).
  destruct (select_from_list _ _ w) as [[picked|e] w1]; cbn in Hh1, Hd1.
  2:{ destruct Hpick as [->| ->]; auto. }
  destruct Hpick as (bad & line & k & _ & _ & _ & Hk & Hpicked & _).
  destruct picked as [name|]; [|cbn; split; [done|]; by left].
  assert (Hin : is_Some (data !! name)).
  { apply list_collections_elem. rewrite Hnames.
    destruct (k =? 0); [done|]. symmetry in Hpicked.
    by apply list_elem_of_lookup_2 in Hpicked. }
  destruct (PyStr.truthy name); [|cbn; split; [done|]; by left].
  unfold bind at 1.
  pose proof (stable_confirm ("Delete collection '" +:+ name
                              +:+ "' and ALL its cards?") w1) as (_ & Hh2 & Hd2).
  unfold confirm in *.
  destruct (ask_until _ parse_confirm w1) as [[yes|e] w2] eqn:Hask;
    cbn in Hh2, Hd2.
  2:{ apply ask_until_raise_inv in Hask
        as [(-> & _)|(bad' & line' & _ & _ & Hline)]; [by left|].
      apply parse_confirm_fail_inv in Hline. done. }
  destruct yes; [|cbn; split; [congruence|]; left; split; [done | congruence]].
  destruct Hin as [l Hl]. rewrite Hl. unfold bind.
  destruct (save_data_cases (delete name data) w2) as [-> | ->]; [|auto].
  cbn. split; [congruence|]. right. exists name. split; [by eexists|].
  split; [done|]. unfold on_file. by cbn.
Qed.

(** ** Leaving the program *)

Lemma triple_any {A} (m : M A) :
  triple (λ _, True) m (λ _ _, True) (λ _, True).
Proof. intros w _. by destruct (m w) as [[a|e] w1]. Qed.

Lemma main_pass_bye `{JsonCodec} data :
  triple (λ _, True) (main_pass data)
    (λ next w, match next with
               | Return data' => data' = data ∧ last (stdout w) = Some (Echo "Bye!")
               | Continue _ => True
               end)
    (λ _, True).
Proof.
  unfold main_pass. cbv zeta.
  repeat (eapply triple_bind; [apply triple_any | intros ?]).
  repeat match goal with |- triple _ (if ?b then _ else _) _ _ => destruct b end;
    try (repeat (eapply triple_bind; [apply triple_any | intros ?]);
         by apply triple_ret).
  intros [ins out dsk hp ent dr] _. cbn. split; [done|]. by rewrite last_snoc.
Qed.

(** X26.  The main loop returns only through its option 0: whatever is
    typed, when the loop returns, the last thing printed is the farewell. *)
Theorem main_menu_returns_after_bye `{JsonCodec} data w :
  match main_menu data w with
  | (Ok _, w') => last (stdout w') = Some (Echo "Bye!")
  | (Raise _, _) => True
  end.
Proof.
  pose proof (triple_while_true (λ (_ : collections) (_ : world), True)
                (λ (_ : collections) w, last (stdout w) = Some (Echo "Bye!"))
                (λ _, True) main_pass data ltac:(done)) as Hloop.
  specialize (Hloop ltac:(
    intros s; eapply triple_post; [|apply main_pass_bye];
    intros [d|d] w0; [by intros [_ ?] | done]) w I).
  unfold main_menu. by destruct (while_true main_pass data w) as [[d|e] w1].
Qed.

(** ** Tidy text through a whole run *)

#[local] Instance keeps_tidy_preorder : PreOrder keeps_tidy.
Proof. split; unfold keeps_tidy; [intros w | intros w1 w2 w3]; auto. Qed.

Lemma io_only_keeps_tidy {A} (m : M A) : stable io_only m → stable keeps_tidy m.
Proof. apply stable_weaken. intros w w' (_ & Hh & _) Ht. by rewrite Hh. Qed.

#[local] Hint Extern 5 (stable keeps_tidy _) => apply io_only_keeps_tidy : stable.

Lemma stable_add_card_tidy `{JsonCodec} data col : stable keeps_tidy (add_card data col).
Proof.
  intros w Hw.
  destruct (add_card_heap data col w) as [->|(lc & c & _ & Hc & ->)]; [done|].
  apply tidy_heap_insert; [done|].
  intros c' [Hc'| ->%list_elem_of_singleton]%elem_of_app; [|done].
  by eapply tidy_heap_default.
Qed.

Lemma stable_edit_card_tidy `{JsonCodec} data col :
  stable keeps_tidy (edit_card data col).
Proof.
  intros w Hw.
  destruct (edit_card_heap data col w)
    as [->|(lc & cards & i & c & c' & _ & Hlc & Hi & -> & _ & Hf & Hb)]; [done|].
  apply tidy_heap_insert; [done|].
  assert (Hc : tidy_card c).
  { apply (Hw lc cards c Hlc). apply list_elem_of_lookup. eauto. }
  intros x [->|Hx]%elem_of_insert_inv; [|by apply (Hw lc cards x Hlc)].
  destruct Hc as [Hcf Hcb]. split.
  - by destruct Hf as [-> |].
  - by destruct Hb as [-> |].
Qed.

Lemma stable_delete_card_tidy `{JsonCodec} data col :
  stable keeps_tidy (delete_card data col).
Proof.
  intros w Hw.
  destruct (delete_card_heap data col w) as [->|(lc & cards & c & _ & Hlc & ->)];
    [done|].
  apply tidy_heap_insert; [done|].
  intros x Hx%list_remove_subset. by apply (Hw lc cards x Hlc).
Qed.

Lemma stable_learn_mode_tidy data col : stable keeps_tidy (learn_mode data col).
Proof.
  intros w Hw.
  destruct (learn_mode_heap data col w) as [->|(lc & order & _ & Hperm & ->)];
    [done|].
  apply tidy_heap_insert; [done|]. intros x Hx. rewrite Hperm in Hx.
  by eapply tidy_heap_default.
Qed.

Lemma stable_create_collection_tidy `{JsonCodec} data :
  stable keeps_tidy (create_collection data).
Proof.
  intros w Hw. destruct (create_collection_heap data w) as [->| ->]; [done|].
  apply tidy_heap_insert; [done|]. by intros c ?%elem_of_nil.
Qed.

Lemma stable_delete_collection_tidy `{JsonCodec} data :
  stable keeps_tidy (delete_collection data).
Proof. intros w Hw. by rewrite delete_collection_heap. Qed.

#[local] Hint Resolve stable_add_card_tidy stable_edit_card_tidy
  stable_delete_card_tidy stable_learn_mode_tidy stable_create_collection_tidy
  stable_delete_collection_tidy : stable.

Lemma stable_manage_cards_menu_tidy `{JsonCodec} data col :
  stable keeps_tidy (manage_cards_menu data col).
Proof.
  apply stable_while_true; [apply _|]. intros _.
  unfold manage_cards_pass. stable_steps.
Qed.

#[local] Hint Resolve stable_manage_cards_menu_tidy : stable.

Lemma stable_collection_menu_tidy `{JsonCodec} data col :
  stable keeps_tidy (collection_menu data col).
Proof.
  apply stable_while_true; [apply _|]. intros _.
  unfold collection_pass. stable_steps.
Qed.

#[local] Hint Resolve stable_collection_menu_tidy : stable.

Lemma stable_main_pass_tidy `{JsonCodec} data : stable keeps_tidy (main_pass data).
Proof.
  unfold main_pass, open_collection. cbv zeta. stable_steps.
Qed.

(** X27.  Tidy text survives a whole run.  When every stored card has a
    front and a back that are not empty and neither start nor end with
    whitespace, this is still so after any run of the main loop or of a
    collection menu, whatever is typed and however the run ends. *)
Theorem run_keeps_text_tidy `{JsonCodec} data col w :
  tidy_heap (heap w) →
  tidy_heap (heap (main_menu data w).2)
  ∧ tidy_heap (heap (collection_menu data col w).2)
  ∧ tidy_heap (heap (manage_cards_menu data col w).2).
Proof.
  intros Hw.
  pose proof (stable_while_true keeps_tidy main_pass data stable_main_pass_tidy w)
    as Hmain.
  pose proof (stable_collection_menu_tidy data col w) as Hcol.
  pose proof (stable_manage_cards_menu_tidy data col w) as Hcards.
  unfold keeps_tidy in Hmain, Hcol, Hcards. unfold main_menu.
  split; [exact (Hmain Hw)|]. split; [exact (Hcol Hw) | exact (Hcards Hw)].
Qed.

Lemma run_keeps_text_tidy_witness :
  tidy_heap (heap (@main_menu sample_codec spanish w_session).2).
Proof.
  refine (proj1 (@run_keeps_text_tidy sample_codec spanish "Spanish" w_session _)).
  intros l cs c Hl Hc.
  change (heap w_session) with (<[0 := [hola]]> (∅ : gmap nat (list card))) in Hl.
  apply lookup_insert_Some in Hl as [[<- <-]|[_ Hl]];
    [|by rewrite lookup_empty in Hl].
  apply list_elem_of_singleton in Hc as ->.
  split; [apply (strip_tidy "hola") | apply (strip_tidy "hello")]; by vm_compute.
Defined.

(** ** The model at work on small inputs *)

Example strip_lower_example :
  PyStr.strip "  ab c  " = "ab c" ∧ PyStr.lower "HeLLo" = "hello"
  ∧ PyStr.rstrip_newline "ab " = "ab ".
Proof. by vm_compute. Qed.

Example contains_example :
  PyStr.contains "at" "cat" = true ∧ PyStr.contains "" "cat" = true
  ∧ PyStr.contains " cat" "cat" = false.
Proof. by vm_compute. Qed.

Example numbers_example :
  PyStr.str_nat 120 = "120" ∧ PyStr.int "042" = Some 42
  ∧ PyStr.isdigit "" = false
  ∧ PyStr.format_x 255 = "ff" ∧ PyStr.format_x 0 = "0".
Proof. by vm_compute. Qed.

(** The superscript two passes [isdigit] and then [int] raises. *)
Example prompt_int_superscript :
  parse_int 1 2 (String (ascii_of_nat 178) EmptyString) = Fail ValueError
  ∧ parse_int 1 2 "3" = Reject "Please enter a number from 1 to 2."
  ∧ parse_int 1 2 " 2 " = Accept 2.
Proof. by vm_compute. Qed.

Example uuid4_example :
  (uuid4_hex w_add).1 = Ok "deadbeefcafe400d8123456789abcdef".
Proof. by vm_compute. Qed.

Example list_collections_example :
  list_collections {["b" := 0; "a" := 1; "B" := 2; "ab" := 3]} = ["B"; "a"; "ab"; "b"].
Proof. by vm_compute. Qed.

(** With every draw equal to 7, three cards are shuffled by exchanging the
    last with the second ([7 mod 3 = 1]) and then the second with itself
    ([7 mod 2 = 1]). *)
Example shuffle_example :
  (shuffle_loop 2 [hola; gato; perro] w_quit3).1 = Ok [hola; perro; gato].
Proof. by vm_compute. Qed.

(** The scenario of the specification: searching [cat] finds the second
    card, deleting the second card leaves the first. *)
Example spanish_scenario :
  (search_cards 0 (world0 ["cat"] [[Card "1" "hola" "hello"; Card "2" "gato" "cat"]]
                     (λ _, 0%Z))).1
  = Ok [Card "2" "gato" "cat"]
  ∧ heap (@delete_card sample_codec spanish "Spanish"
            (world0 ["2"; "yes"] [[Card "1" "hola" "hello"; Card "2" "gato" "cat"]]
               (λ _, 0%Z))).2 !! 0
    = Some [Card "1" "hola" "hello"].
Proof. by vm_compute. Qed.

(** What the terminal received in a session in stored order that is ended
    on the second card. *)
Example quit_transcript :
  stdout (learn_mode spanish "Spanish" w_quit_seq).2 =
    [Echo "Learn mode:"; Echo "  1) In order"; Echo "  2) Random"; Ask "Choose: ";
     Clear; Echo "[Spanish] Card 1/3  (id: a1b2c3d4)";
     Echo "----------------------------------------"; Echo "FRONT:"; Echo "hola";
     Echo "----------------------------------------";
     Ask "Press Enter to reveal the back..."; Echo ""; Echo "BACK:"; Echo "hello";
     Echo "----------------------------------------"; Ask "Got it? (y/n/skip/q): ";
     Clear; Echo "[Spanish] Card 2/3  (id: 0f9e8d7c)";
     Echo "----------------------------------------"; Echo "FRONT:"; Echo "gato";
     Echo "----------------------------------------";
     Ask "Press Enter to reveal the back..."; Echo ""; Echo "BACK:"; Echo "cat";
     Echo "----------------------------------------"; Ask "Got it? (y/n/skip/q): ";
     Clear; Echo "Session ended early."; Echo "Correct: 1, Wrong: 0, Skipped: 0"].
Proof. by vm_compute. Qed.
